(** * The LevelDB write path: codec, arena, write batch, log writer, memtable

    A shallow embedding of [util/coding.cc], [util/arena.{h,cc}],
    [db/write_batch.cc], [db/log_writer.cc] and [db/memtable.cc].

    Conventions of the embedding.
    - A [char] buffer is a [list byte]; a [Slice] is the list of the bytes it
      views.  A pair of pointers [(p, limit)] into one buffer is the list of
      the bytes in [[p, limit)]; a returned pointer [q] is the list of the
      bytes in [[q, limit)], and [nullptr] is [None].
    - [uint32_t], [uint64_t] and [int] are [Z] with the wrap-around written
      out ([to_uint32], [to_uint64], [to_int32]).
    - Loops whose recursion is not structural on the input carry a fuel
      argument; the fuel handed over by the top-level function is shown to be
      enough. *)

From Stdlib Require Import String ZArith List Lia Bool Btauto Permutation.
From coqutil Require Import Byte Word.LittleEndianList Z.bitblast.
Import ListNotations.
Local Open Scope Z_scope.

(** A view of contiguous bytes ([leveldb::Slice]). *)
Definition Slice := list byte.

(** [leveldb::Status], restricted to the codes the write path produces. *)
Inductive Status : Type :=
| OK
| NotFound (msg : string)
| Corruption (msg : string)
| IOError (msg : string).

Definition ok (s : Status) : bool :=
  match s with OK => true | _ => false end.

(** ** Machine integers *)

Definition to_uint32 (z : Z) : Z := z mod 2 ^ 32.
Definition to_uint64 (z : Z) : Z := z mod 2 ^ 64.

(** Conversion to a two's-complement 32-bit [int]. *)
Definition to_int32 (z : Z) : Z := (z + 2 ^ 31) mod 2 ^ 32 - 2 ^ 31.

(** [std::string::size()] / [Slice::size()] as a [size_t] value. *)
Definition size (s : list byte) : Z := Z.of_nat (length s).

(** * util/coding *)
Module Coding.

(** Modelled from the spec: [EncodeFixed32] is declared in [util/coding.h],
    which is not part of the sources at hand; the spec describes it as
    "little-endian into a caller-provided 4/8-byte region". *)
Definition EncodeFixed32 (value : Z) : list byte := le_split 4 (to_uint32 value).

(** Modelled from the spec: [EncodeFixed64], as [EncodeFixed32]. *)
Definition EncodeFixed64 (value : Z) : list byte := le_split 8 (to_uint64 value).

(** Modelled from the spec: [DecodeFixed32] is the inverse of
    [EncodeFixed32] and reads the four bytes at its argument. *)
Definition DecodeFixed32 (ptr : list byte) : Z := le_combine (firstn 4 ptr).

(** Modelled from the spec: [DecodeFixed64], as [DecodeFixed32]. *)
Definition DecodeFixed64 (ptr : list byte) : Z := le_combine (firstn 8 ptr).

Definition PutFixed32 (dst : list byte) (value : Z) : list byte :=
  dst ++ EncodeFixed32 value.

Definition PutFixed64 (dst : list byte) (value : Z) : list byte :=
  dst ++ EncodeFixed64 value.

(** [EncodeVarint32] returns the bytes it stores at [dst]; the pointer it
    hands back is [dst] advanced by their number.  Every store converts to
    [uint8_t], which is [byte.of_Z]. *)
Definition EncodeVarint32 (v : Z) : list byte :=
  let v := to_uint32 v in
  let B := 128 in
  if v <? Z.shiftl 1 7 then
    [byte.of_Z v]
  else if v <? Z.shiftl 1 14 then
    [byte.of_Z (Z.lor v B); byte.of_Z (Z.shiftr v 7)]
  else if v <? Z.shiftl 1 21 then
    [byte.of_Z (Z.lor v B); byte.of_Z (Z.lor (Z.shiftr v 7) B);
     byte.of_Z (Z.shiftr v 14)]
  else if v <? Z.shiftl 1 28 then
    [byte.of_Z (Z.lor v B); byte.of_Z (Z.lor (Z.shiftr v 7) B);
     byte.of_Z (Z.lor (Z.shiftr v 14) B); byte.of_Z (Z.shiftr v 21)]
  else
    [byte.of_Z (Z.lor v B); byte.of_Z (Z.lor (Z.shiftr v 7) B);
     byte.of_Z (Z.lor (Z.shiftr v 14) B); byte.of_Z (Z.lor (Z.shiftr v 21) B);
     byte.of_Z (Z.shiftr v 28)].

Definition PutVarint32 (dst : list byte) (v : Z) : list byte :=
  dst ++ EncodeVarint32 v.

(** The [while (v >= B)] loop of [EncodeVarint64]. *)
Fixpoint EncodeVarint64_loop (fuel : nat) (v : Z) : list byte :=
  match fuel with
  | O => [byte.of_Z v]
  | S fuel' =>
      if 128 <=? v
      then byte.of_Z (Z.lor v 128) :: EncodeVarint64_loop fuel' (Z.shiftr v 7)
      else [byte.of_Z v]
  end.

(** A 64-bit value is below 128 after at most nine shifts by seven. *)
Definition EncodeVarint64 (v : Z) : list byte :=
  EncodeVarint64_loop 10 (to_uint64 v).

Definition PutVarint64 (dst : list byte) (v : Z) : list byte :=
  dst ++ EncodeVarint64 v.

(** [value.size()] is a [size_t]; passing it to [PutVarint32] converts it
    to [uint32_t]. *)
Definition PutLengthPrefixedSlice (dst : list byte) (value : Slice) : list byte :=
  PutVarint32 dst (size value) ++ value.

(** The [while (v >= 128)] loop of [VarintLength]. *)
Fixpoint VarintLength_loop (fuel : nat) (v : Z) (len : Z) : Z :=
  match fuel with
  | O => len
  | S fuel' =>
      if 128 <=? v then VarintLength_loop fuel' (Z.shiftr v 7) (len + 1)
      else len
  end.

Definition VarintLength (v : Z) : Z :=
  VarintLength_loop 10 (to_uint64 v) 1.

(** The [for] loop of [GetVarint32PtrFallback]: [p] holds the bytes up to
    [limit], so [p < limit] is [p <> []].  [byte], [shift] and [result] are
    [uint32_t]. *)
Fixpoint GetVarint32PtrFallback_loop (shift result : Z) (p : list byte)
  : option (Z * list byte) :=
  if shift <=? 28 then
    match p with
    | [] => None
    | b :: p' =>
        let byte := byte.unsigned b in
        if negb (Z.land byte 128 =? 0) then
          GetVarint32PtrFallback_loop (shift + 7)
            (Z.lor result (to_uint32 (Z.shiftl (Z.land byte 127) shift))) p'
        else
          Some (Z.lor result (to_uint32 (Z.shiftl byte shift)), p')
    end
  else None.

Definition GetVarint32PtrFallback (p : list byte) : option (Z * list byte) :=
  GetVarint32PtrFallback_loop 0 0 p.

(** Modelled from the spec: [GetVarint32Ptr] is an inline wrapper declared
    in [util/coding.h], absent from the sources at hand.  The spec gives
    [decode_varint32] one behaviour, that of the decoder in
    [GetVarint32PtrFallback], so the wrapper hands over to it. *)
Definition GetVarint32Ptr (p : list byte) : option (Z * list byte) :=
  GetVarint32PtrFallback p.

(** [GetVarint32] returns its [bool] together with the new input slice; the
    decoded number is [Some] exactly when the result is [true]. *)
Definition GetVarint32 (input : Slice) : option Z * Slice :=
  match GetVarint32Ptr input with
  | None => (None, input)
  | Some (value, q) => (Some value, q)
  end.

Fixpoint GetVarint64Ptr_loop (shift result : Z) (p : list byte)
  : option (Z * list byte) :=
  if shift <=? 63 then
    match p with
    | [] => None
    | b :: p' =>
        let byte := byte.unsigned b in
        if negb (Z.land byte 128 =? 0) then
          GetVarint64Ptr_loop (shift + 7)
            (Z.lor result (to_uint64 (Z.shiftl (Z.land byte 127) shift))) p'
        else
          Some (Z.lor result (to_uint64 (Z.shiftl byte shift)), p')
    end
  else None.

Definition GetVarint64Ptr (p : list byte) : option (Z * list byte) :=
  GetVarint64Ptr_loop 0 0 p.

Definition GetVarint64 (input : Slice) : option Z * Slice :=
  match GetVarint64Ptr input with
  | None => (None, input)
  | Some (value, q) => (Some value, q)
  end.

(** The overload of [GetLengthPrefixedSlice] on a pointer pair. *)
Definition GetLengthPrefixedSlicePtr (p : list byte) : option (Slice * list byte) :=
  match GetVarint32Ptr p with
  | None => None
  | Some (len, p) =>
      if size p <? len then None
      else Some (firstn (Z.to_nat len) p, skipn (Z.to_nat len) p)
  end.

(** The overload of [GetLengthPrefixedSlice] on a slice: the [bool] it
    returns is [true] exactly when the first component is [Some]; the
    second component is the input slice as the call leaves it. *)
Definition GetLengthPrefixedSlice (input : Slice) : option Slice * Slice :=
  match GetVarint32 input with
  | (Some len, input) =>
      if len <=? size input
      then (Some (firstn (Z.to_nat len) input), skipn (Z.to_nat len) input)
      else (None, input)
  | (None, input) => (None, input)
  end.

End Coding.

(** Platform: an LP64 target, where [size_t] and data pointers have 64 bits. *)
Definition to_size_t (z : Z) : Z := to_uint64 z.
Definition sizeof_pointer : Z := 8.

(** * util/arena *)
Module Arena.

Definition kBlockSize : Z := 4096.

(** A [char*] handed out by the arena: the index in [blocks_] of the block
    it points into and the offset inside that block. *)
Inductive pointer : Type :=
| nullptr
| Ptr (block : nat) (offset : Z).

Definition pointer_add (p : pointer) (n : Z) : pointer :=
  match p with
  | nullptr => nullptr
  | Ptr block offset => Ptr block (offset + n)
  end.

(** [blocks_] keeps the size of every block obtained from [new[]], in the
    order of [push_back]. *)
Record t : Type := mk {
  alloc_ptr_ : pointer;
  alloc_bytes_remaining_ : Z;
  blocks_ : list Z;
  memory_usage_ : Z
}.

Definition new : t :=
  {| alloc_ptr_ := nullptr; alloc_bytes_remaining_ := 0;
     blocks_ := []; memory_usage_ := 0 |}.

Definition MemoryUsage (a : t) : Z := memory_usage_ a.

Definition AllocateNewBlock (a : t) (block_bytes : Z) : pointer * t :=
  let result := Ptr (length (blocks_ a)) 0 in
  (result,
   {| alloc_ptr_ := alloc_ptr_ a;
      alloc_bytes_remaining_ := alloc_bytes_remaining_ a;
      blocks_ := blocks_ a ++ [block_bytes];
      memory_usage_ :=
        to_size_t (memory_usage_ a + to_size_t (block_bytes + sizeof_pointer)) |}).

Definition AllocateFallback (a : t) (bytes : Z) : pointer * t :=
  if kBlockSize / 4 <? bytes then
    (* Object is more than a quarter of our block size. *)
    AllocateNewBlock a bytes
  else
    (* We waste the remaining space in the current block. *)
    let (block, a) := AllocateNewBlock a kBlockSize in
    let result := block in
    (result,
     {| alloc_ptr_ := pointer_add block bytes;
        alloc_bytes_remaining_ := kBlockSize - bytes;
        blocks_ := blocks_ a;
        memory_usage_ := memory_usage_ a |}).

(** [Allocate] asserts [bytes > 0]. *)
Definition Allocate (a : t) (bytes : Z) : pointer * t :=
  if bytes <=? alloc_bytes_remaining_ a then
    let result := alloc_ptr_ a in
    (result,
     {| alloc_ptr_ := pointer_add (alloc_ptr_ a) bytes;
        alloc_bytes_remaining_ := alloc_bytes_remaining_ a - bytes;
        blocks_ := blocks_ a;
        memory_usage_ := memory_usage_ a |})
  else AllocateFallback a bytes.

(** Platform: the blocks come from [new char[]], whose result is aligned
    for every fundamental type; [AllocateAligned] relies on it ("always
    returned aligned memory").  So the low bits of the address of a byte
    are the low bits of its offset in its block, and those of [nullptr]
    are 0. *)
Definition address_bits (p : pointer) (mask : Z) : Z :=
  match p with
  | nullptr => 0
  | Ptr _ offset => Z.land offset mask
  end.

Definition align : Z := if 8 <? sizeof_pointer then sizeof_pointer else 8.

Definition AllocateAligned (a : t) (bytes : Z) : pointer * t :=
  let current_mod := address_bits (alloc_ptr_ a) (align - 1) in
  let slop := if current_mod =? 0 then 0 else align - current_mod in
  let needed := to_size_t (bytes + slop) in
  if needed <=? alloc_bytes_remaining_ a then
    let result := pointer_add (alloc_ptr_ a) slop in
    (result,
     {| alloc_ptr_ := pointer_add (alloc_ptr_ a) needed;
        alloc_bytes_remaining_ := alloc_bytes_remaining_ a - needed;
        blocks_ := blocks_ a;
        memory_usage_ := memory_usage_ a |})
  else
    (* AllocateFallback always returned aligned memory *)
    AllocateFallback a bytes.

End Arena.

(** * db/dbformat: the part the write path uses

    [db/dbformat.h] is not among the sources at hand; the constants below are
    the ones the spec fixes. *)
Module DBFormat.

(** Modelled from the spec: "Type is VALUE (0x01) or DELETION (0x00)". *)
Inductive ValueType : Type := kTypeDeletion | kTypeValue.

Definition ValueType_value (t : ValueType) : Z :=
  match t with kTypeDeletion => 0 | kTypeValue => 1 end.

(** Modelled from the spec: the lookup tag carries "type VALUE_FOR_SEEK
    (ensures we land at the first entry with sequence <= snapshot)", which
    with tags in descending order is the highest-numbered type. *)
Definition kValueTypeForSeek : ValueType := kTypeValue.

(** Modelled from the spec: "tag = (sequence << 8) | type", a [uint64_t]. *)
Definition PackSequenceAndType (seq : Z) (t : ValueType) : Z :=
  Z.lor (to_uint64 (Z.shiftl seq 8)) (ValueType_value t).

End DBFormat.

(** * db/write_batch *)
Module WriteBatch.
Import Coding DBFormat.

(** WriteBatch header has an 8-byte sequence number followed by a 4-byte
    count. *)
Definition kHeader : Z := 12.

(** The batch is its [rep_]. *)
Definition t : Type := list byte.

(** [rep_.clear(); rep_.resize(kHeader)]: twelve zero bytes. *)
Definition Clear : t := repeat Byte.x00 (Z.to_nat kHeader).

Definition ApproximateSize (b : t) : Z := size b.

(** [Count] returns an [int]. *)
Definition Count (b : t) : Z := to_int32 (DecodeFixed32 (skipn 8 b)).

(** [EncodeFixed32(&rep_[8], n)] overwrites the four bytes at offset 8;
    [rep_] holds at least the header whenever it is called. *)
Definition SetCount (b : t) (n : Z) : t :=
  firstn 8 b ++ EncodeFixed32 n ++ skipn 12 b.

Definition Sequence (b : t) : Z := DecodeFixed64 b.

Definition SetSequence (b : t) (seq : Z) : t :=
  EncodeFixed64 seq ++ skipn 8 b.

Definition Put (b : t) (key value : Slice) : t :=
  let b := SetCount b (Count b + 1) in
  let b := b ++ [byte.of_Z (ValueType_value kTypeValue)] in
  let b := PutLengthPrefixedSlice b key in
  PutLengthPrefixedSlice b value.

Definition Delete (b : t) (key : Slice) : t :=
  let b := SetCount b (Count b + 1) in
  let b := b ++ [byte.of_Z (ValueType_value kTypeDeletion)] in
  PutLengthPrefixedSlice b key.

(** [WriteBatchInternal::Append]. *)
Definition Append (dst src : t) : t :=
  let dst := SetCount dst (Count dst + Count src) in
  dst ++ skipn (Z.to_nat kHeader) src.

Definition SetContents (contents : Slice) : t := contents.

(** [WriteBatch::Handler]: the state of the handler object is threaded
    through its two methods. *)
Class Handler (H : Type) : Type := {
  handler_Put : H -> Slice -> Slice -> H;
  handler_Delete : H -> Slice -> H
}.

(** How the [while (!input.empty())] loop of [Iterate] is left: by one of
    the [return] statements inside, or at its end with [found]. *)
Inductive LoopExit : Type :=
| Return (s : Status)
| Done (found : Z).

(** Every turn removes the tag byte, so the loop makes at most as many
    turns as [input] has bytes.  [found] is an [int]. *)
Fixpoint Iterate_loop {H : Type} `{Handler H}
    (fuel : nat) (input : Slice) (found : Z) (handler : H)
  : option (LoopExit * H) :=
  match input with
  | [] => Some (Done found, handler)
  | tag :: input =>
      match fuel with
      | O => None
      | S fuel =>
          let found := to_int32 (found + 1) in
          let tag := byte.unsigned tag in
          if tag =? ValueType_value kTypeValue then
            match GetLengthPrefixedSlice input with
            | (Some key, input) =>
                match GetLengthPrefixedSlice input with
                | (Some value, input) =>
                    Iterate_loop fuel input found (handler_Put handler key value)
                | (None, _) =>
                    Some (Return (Corruption "bad WriteBatch Put"), handler)
                end
            | (None, _) =>
                Some (Return (Corruption "bad WriteBatch Put"), handler)
            end
          else if tag =? ValueType_value kTypeDeletion then
            match GetLengthPrefixedSlice input with
            | (Some key, input) =>
                Iterate_loop fuel input found (handler_Delete handler key)
            | (None, _) =>
                Some (Return (Corruption "bad WriteBatch Delete"), handler)
            end
          else
            Some (Return (Corruption "unknown WriteBatch tag"), handler)
      end
  end.

(** [Iterate] returns its status together with the handler as the calls
    made on it have left it. *)
Definition Iterate {H : Type} `{Handler H} (b : t) (handler : H)
  : option (Status * H) :=
  let input := b in
  if size input <? kHeader then
    Some (Corruption "malformed WriteBatch (too small)", handler)
  else
    let input := skipn (Z.to_nat kHeader) input in
    match Iterate_loop (length input) input 0 handler with
    | None => None
    | Some (Return s, handler) => Some (s, handler)
    | Some (Done found, handler) =>
        if negb (found =? Count b) then
          Some (Corruption "WriteBatch has wrong count", handler)
        else Some (OK, handler)
    end.

(** The operations of a batch, and the handler that writes down the calls
    it receives. *)
Inductive Op : Type :=
| OpPut (key value : Slice)
| OpDelete (key : Slice).

#[export] Instance Recorder : Handler (list Op) := {
  handler_Put h key value := h ++ [OpPut key value];
  handler_Delete h key := h ++ [OpDelete key]
}.

Definition apply (b : t) (op : Op) : t :=
  match op with
  | OpPut key value => Put b key value
  | OpDelete key => Delete b key
  end.

End WriteBatch.

(** * db/log_writer *)
Module log.
Import Coding.

(** ** db/log_format.h

    Modelled from the spec: "Block size 32,768; header 7 bytes; types
    FULL=1, FIRST=2, MIDDLE=3, LAST=4, ZERO=0".  The header is not among
    the sources at hand; [AddRecord] itself asserts [kHeaderSize == 7]. *)
Inductive RecordType : Type :=
| kZeroType | kFullType | kFirstType | kMiddleType | kLastType.

Definition RecordType_value (t : RecordType) : Z :=
  match t with
  | kZeroType => 0 | kFullType => 1 | kFirstType => 2
  | kMiddleType => 3 | kLastType => 4
  end.

Definition kMaxRecordType : RecordType := kLastType.
Definition kBlockSize : Z := 32768.
Definition kHeaderSize : Z := 7.

(** ** util/crc32c.h

    The checksum is computed outside the sources at hand; the writer is
    stated for any implementation of its two entry points. *)
Class Crc32c : Type := {
  crc32c_Value : list byte -> Z;
  crc32c_Extend : Z -> list byte -> Z
}.

(** Modelled from the spec: "mask(x) = ((x >> 15) | (x << 17)) + 0xA282EAD8
    mod 2^32". *)
Definition crc32c_Mask (crc : Z) : Z :=
  to_uint32 (Z.lor (Z.shiftr crc 15) (to_uint32 (Z.shiftl crc 17)) + 0xa282ead8).

(** ** leveldb/env.h: the sink

    Modelled from the spec: "WritableSink: append(bytes) -> result,
    flush() -> result".  The state of the file is threaded through. *)
Class WritableFile (F : Type) : Type := {
  file_Append : F -> Slice -> F * Status;
  file_Flush : F -> F * Status
}.

Section Writer.
Context {crc : Crc32c} {F : Type} {file : WritableFile F}.

(** [type_crc_] is filled once, by [InitTypeCrc] in the constructors, and
    only read afterwards: entry [t] is the checksum of the byte [t]. *)
Definition type_crc_ (t : RecordType) : Z :=
  to_uint32 (crc32c_Value [byte.of_Z (RecordType_value t)]).

Record Writer : Type := mkWriter {
  dest_ : F;
  block_offset_ : Z
}.

Definition Writer_new (dest : F) : Writer :=
  {| dest_ := dest; block_offset_ := 0 |}.

Definition Writer_resume (dest : F) (dest_length : Z) : Writer :=
  {| dest_ := dest; block_offset_ := to_int32 (dest_length mod kBlockSize) |}.

(** [ptr] holds the bytes from the cursor to the end of the record, of
    which the first [length] are written. *)
Definition EmitPhysicalRecord (w : Writer) (t : RecordType)
    (ptr : list byte) (length : Z) : Writer * Status :=
  let payload := firstn (Z.to_nat length) ptr in
  (* Format the header *)
  let buf4 := byte.of_Z (Z.land length 0xff) in
  let buf5 := byte.of_Z (Z.shiftr length 8) in
  let buf6 := byte.of_Z (RecordType_value t) in
  (* Compute the crc of the record type and the payload. *)
  let crc := to_uint32 (crc32c_Extend (type_crc_ t) payload) in
  let crc := crc32c_Mask crc in
  let buf := EncodeFixed32 crc ++ [buf4; buf5; buf6] in
  (* Write the header and the payload *)
  let (dest, s) := file_Append (dest_ w) buf in
  let (dest, s) :=
    if ok s then
      let (dest, s) := file_Append dest payload in
      if ok s then file_Flush dest else (dest, s)
    else (dest, s) in
  ({| dest_ := dest;
      block_offset_ := to_int32 (block_offset_ w + (kHeaderSize + length)) |},
   s).

(** The variables the [do ... while] loop of [AddRecord] carries from one
    turn to the next; [s] is the status of the turn just made. *)
Record LoopState : Type := mkLoop {
  writer : Writer;
  ptr : list byte;
  left : Z;
  begin : bool;
  s : Status
}.

(** The first half of the loop body: switch to a new block when fewer
    than [kHeaderSize] bytes are left in the current one. *)
Definition SwitchBlock (w : Writer) : Writer :=
  let leftover := to_int32 (kBlockSize - block_offset_ w) in
  if leftover <? kHeaderSize then
    let dest :=
      if 0 <? leftover then
        (* Fill the trailer *)
        fst (file_Append (dest_ w)
               (firstn (Z.to_nat leftover) (repeat Byte.x00 6)))
      else dest_ w in
    {| dest_ := dest; block_offset_ := 0 |}
  else w.

Definition FragmentType (begin end_ : bool) : RecordType :=
  if begin && end_ then kFullType
  else if begin then kFirstType
  else if end_ then kLastType
  else kMiddleType.

(** One turn of the loop. *)
Definition AddRecord_body (st : LoopState) : LoopState :=
  let w := SwitchBlock (writer st) in
  let avail := to_size_t (to_int32 (kBlockSize - block_offset_ w - kHeaderSize)) in
  let fragment_length := if left st <? avail then left st else avail in
  let end_ := left st =? fragment_length in
  let type := FragmentType (begin st) end_ in
  let (w, s) := EmitPhysicalRecord w type (ptr st) fragment_length in
  {| writer := w;
     ptr := skipn (Z.to_nat fragment_length) (ptr st);
     left := left st - fragment_length;
     begin := false;
     s := s |}.

Fixpoint AddRecord_loop (fuel : nat) (st : LoopState) : option (Writer * Status) :=
  match fuel with
  | O => None
  | S fuel =>
      let st := AddRecord_body st in
      if ok (s st) && (0 <? left st) then AddRecord_loop fuel st
      else Some (writer st, s st)
  end.

(** A turn that writes no payload byte fills its block, so the next one
    writes at least one: twice the length of the record, and one, bounds
    the number of turns. *)
Definition AddRecord (w : Writer) (slice : Slice) : option (Writer * Status) :=
  AddRecord_loop (S (2 * length slice))
    {| writer := w; ptr := slice; left := size slice; begin := true; s := OK |}.

End Writer.

Arguments Writer : clear implicits.
Arguments LoopState : clear implicits.

(** A sink that keeps what it receives: the calls made on it, oldest
    first. *)
Inductive FileEvent : Type :=
| EvAppend (data : Slice)
| EvFlush.

Definition MemFile : Type := list FileEvent.

#[export] Instance MemFile_WritableFile : WritableFile MemFile := {
  file_Append f data := (f ++ [EvAppend data], OK);
  file_Flush f := (f ++ [EvFlush], OK)
}.

(** The bytes of the file after the calls of [f]. *)
Fixpoint contents (f : MemFile) : list byte :=
  match f with
  | [] => []
  | EvAppend data :: f => data ++ contents f
  | EvFlush :: f => contents f
  end.

End log.

(** * db/memtable *)
Module MemTable.
Import Coding DBFormat.

(** Modelled from the spec: "UserComparator: total order on byte slices;
    compare(a, b) -> {<0, 0, >0}" ([leveldb/comparator.h], not among the
    sources at hand). *)
Class Comparator : Type := {
  Compare : Slice -> Slice -> Z
}.

(** [GetVarint32Ptr(p, p + n, &v)] on a buffer that goes on beyond the
    limit [p + n]: the returned pointer is [p] advanced by the bytes the
    decoder consumed. *)
Definition GetVarint32Ptr_limit (n : nat) (p : list byte) : option (Z * list byte) :=
  match GetVarint32Ptr (firstn n p) with
  | None => None
  | Some (v, q) => Some (v, skipn (length (firstn n p) - length q) p)
  end.

(** The file-local [GetLengthPrefixedSlice] of [memtable.cc]; a null
    pointer from the decoder is [None]. *)
Definition GetLengthPrefixedSlice (data : list byte) : option Slice :=
  match GetVarint32Ptr_limit 5 data with
  | None => None
  | Some (len, p) => Some (firstn (Z.to_nat len) p)
  end.

(** From a slice, a length-prefixed key ([EncodeKey]). *)
Definition EncodeKey (target : Slice) : list byte :=
  PutVarint32 [] (size target) ++ target.

(** Modelled from the spec: the ordered set is "an external collaborator
    parameterized by the comparator and allocator.  The canonical
    implementation is a lock-free skip list built over the arena;
    specifying it is out of scope here" ([db/skiplist.h], not among the
    sources at hand).  The memtable constructs [table_] on [&arena_], and
    the set takes the memory of its nodes from there: the arena as the
    constructor of the set leaves it, and as [Insert] leaves it, given the
    entries the set holds and the new one, are parameters. *)
Class OrderedSetMemory : Type := {
  Table_new_arena : Arena.t -> Arena.t;
  Table_Insert_arena : Arena.t -> list (list byte) -> list byte -> Arena.t
}.

Section WithComparator.
Context {user_comparator : Comparator} {table_memory : OrderedSetMemory}.

(** Modelled from the spec: the internal key is "user_key ++ tag8", and
    the order is "ascending by user key (via comparator), then descending
    by sequence (newer shadows older), with type as further tiebreak":
    at equal user keys the larger tag sorts first
    ([InternalKeyComparator], in [db/dbformat], not among the sources at
    hand). *)
Definition ExtractUserKey (internal_key : Slice) : Slice :=
  firstn (length internal_key - 8) internal_key.

Definition InternalKeyComparator_Compare (akey bkey : Slice) : Z :=
  let r := Compare (ExtractUserKey akey) (ExtractUserKey bkey) in
  if r =? 0 then
    let anum := DecodeFixed64 (skipn (length akey - 8) akey) in
    let bnum := DecodeFixed64 (skipn (length bkey - 8) bkey) in
    if bnum <? anum then -1
    else if anum <? bnum then 1
    else r
  else r.

(** [MemTable::KeyComparator::operator()]. *)
Definition KeyComparator (aptr bptr : list byte) : option Z :=
  match GetLengthPrefixedSlice aptr, GetLengthPrefixedSlice bptr with
  | Some a, Some b => Some (InternalKeyComparator_Compare a b)
  | _, _ => None
  end.

(** Modelled from the spec: the ordered set behind the memtable is an
    external collaborator, "OrderedSet: insert(ptr), iterator with
    seek/..."; "Seek to first entry >= lookup_key".  Here it is the list
    of its entries in comparator order.  [FindGreaterOrEqual] splits the
    list before the first entry that is not smaller than [key]. *)
Fixpoint FindGreaterOrEqual (key : list byte) (l : list (list byte))
  : option (list (list byte) * list (list byte)) :=
  match l with
  | [] => Some ([], [])
  | x :: l' =>
      match KeyComparator x key with
      | None => None
      | Some c =>
          if c <? 0 then
            match FindGreaterOrEqual key l' with
            | None => None
            | Some (before, from) => Some (x :: before, from)
            end
          else Some ([], l)
      end
  end.

Definition Table_Insert (key : list byte) (l : list (list byte))
  : option (list (list byte)) :=
  match FindGreaterOrEqual key l with
  | None => None
  | Some (before, from) => Some (before ++ key :: from)
  end.

(** The iterator after [Seek(target)]: the entries from its position on;
    it is [Valid()] when there is one, and [key()] is the first. *)
Definition Table_Seek (target : list byte) (l : list (list byte))
  : option (list (list byte)) :=
  match FindGreaterOrEqual target l with
  | None => None
  | Some (_, from) => Some from
  end.

(** Modelled from the spec: the lookup key "carries a pre-encoded
    memtable seek key (varint32(user_key.len + 8) ++ user_key ++ tag) where
    tag encodes the snapshot sequence and type VALUE_FOR_SEEK"
    ([LookupKey], in [db/dbformat], not among the sources at hand). *)
Record LookupKey : Type := mkLookupKey {
  memtable_key : list byte;
  user_key : Slice
}.

Definition LookupKey_new (user_key : Slice) (sequence : Z) : LookupKey :=
  {| memtable_key :=
       EncodeVarint32 (size user_key + 8) ++ user_key ++
       EncodeFixed64 (PackSequenceAndType sequence kValueTypeForSeek);
     user_key := user_key |}.

(** The memtable: its arena and the entries of [table_], each entry the
    bytes written at its address in the arena. *)
Record t : Type := mk {
  arena_ : Arena.t;
  table_ : list (list byte)
}.

(** The constructor: [table_(comparator_, &arena_)] on the arena just
    made. *)
Definition new : t := {| arena_ := Table_new_arena Arena.new; table_ := [] |}.

Definition ApproximateMemoryUsage (m : t) : Z := Arena.MemoryUsage (arena_ m).

(** [Add] is [None] when the comparator of the ordered set meets an
    entry it cannot decode. *)
Definition Add (m : t) (s : Z) (type : ValueType) (key value : Slice) : option t :=
  let key_size := size key in
  let val_size := size value in
  let internal_key_size := to_size_t (key_size + 8) in
  let encoded_len :=
    to_size_t (VarintLength internal_key_size + internal_key_size +
               VarintLength val_size + val_size) in
  let (_, arena) := Arena.Allocate (arena_ m) encoded_len in
  let buf :=
    EncodeVarint32 internal_key_size ++ key ++
    EncodeFixed64 (Z.lor (to_uint64 (Z.shiftl s 8)) (ValueType_value type)) ++
    EncodeVarint32 val_size ++ value in
  match Table_Insert buf (table_ m) with
  | None => None
  | Some table =>
      Some {| arena_ := Table_Insert_arena arena (table_ m) buf; table_ := table |}
  end.

(** [Get] returns its [bool] with [*value] and [*s] as it leaves them;
    it is [None] when an entry cannot be decoded. *)
Definition Get (m : t) (key : LookupKey) (value : Slice) (s : Status)
  : option (bool * Slice * Status) :=
  let memkey := memtable_key key in
  match Table_Seek memkey (table_ m) with
  | None => None
  | Some [] => Some (false, value, s)
  | Some (entry :: _) =>
      match GetVarint32Ptr_limit 5 entry with
      | None => None
      | Some (key_length, key_ptr) =>
          if Compare (firstn (Z.to_nat (to_uint32 (key_length - 8))) key_ptr)
                     (user_key key) =? 0 then
            (* Correct user key *)
            let tag := DecodeFixed64 (skipn (Z.to_nat (key_length - 8)) key_ptr) in
            let type := Z.land tag 0xff in
            if type =? ValueType_value kTypeValue then
              match GetLengthPrefixedSlice (skipn (Z.to_nat key_length) key_ptr) with
              | None => None
              | Some v => Some (true, v, s)
              end
            else if type =? ValueType_value kTypeDeletion then
              Some (true, value, NotFound "")
            else Some (false, value, s)
          else Some (false, value, s)
      end
  end.

End WithComparator.

(** [MemTableIterator] wraps the iterator of the ordered set, which is the
    entries of the table from its position on, as for [Table_Seek].
    [key()] and [value()] require [Valid()]; off the table they are
    [None] here. *)
Definition MemTableIterator : Type := list (list byte).

Definition MemTableIterator_Valid (it : MemTableIterator) : bool :=
  match it with [] => false | _ :: _ => true end.

Definition MemTableIterator_SeekToFirst (m : t) : MemTableIterator := table_ m.

Definition MemTableIterator_Seek {user_comparator : Comparator}
    (m : t) (k : Slice) : option MemTableIterator :=
  Table_Seek (EncodeKey k) (table_ m).

Definition MemTableIterator_Next (it : MemTableIterator) : MemTableIterator :=
  tl it.

Definition MemTableIterator_key (it : MemTableIterator) : option Slice :=
  match it with
  | [] => None
  | entry :: _ => GetLengthPrefixedSlice entry
  end.

(** [value()] decodes the slice that begins where the key slice ends, at
    [key_slice.data() + key_slice.size()]. *)
Definition MemTableIterator_value (it : MemTableIterator) : option Slice :=
  match it with
  | [] => None
  | entry :: _ =>
      match GetVarint32Ptr_limit 5 entry with
      | None => None
      | Some (len, p) => GetLengthPrefixedSlice (skipn (Z.to_nat len) p)
      end
  end.

End MemTable.

(** * db/write_batch: inserting a batch into a memtable *)
Module WriteBatchInternal.
Import Coding DBFormat WriteBatch.

Section WithComparator.
Context {user_comparator : MemTable.Comparator}
        {table_memory : MemTable.OrderedSetMemory}.

(** [MemTableInserter]: [sequence_], a [SequenceNumber] of 64 bits, and
    the memtable behind [mem_]. *)
Record MemTableInserter : Type := mkInserter {
  sequence_ : Z;
  mem_ : MemTable.t
}.

(** The handler is [None] once a call of [MemTable::Add] has met an entry
    it cannot decode. *)
Definition MemTableInserter_Put (h : option MemTableInserter) (key value : Slice)
  : option MemTableInserter :=
  match h with
  | None => None
  | Some i =>
      match MemTable.Add (mem_ i) (sequence_ i) kTypeValue key value with
      | None => None
      | Some mem => Some {| sequence_ := to_uint64 (sequence_ i + 1); mem_ := mem |}
      end
  end.

Definition MemTableInserter_Delete (h : option MemTableInserter) (key : Slice)
  : option MemTableInserter :=
  match h with
  | None => None
  | Some i =>
      match MemTable.Add (mem_ i) (sequence_ i) kTypeDeletion key [] with
      | None => None
      | Some mem => Some {| sequence_ := to_uint64 (sequence_ i + 1); mem_ := mem |}
      end
  end.

#[export] Instance MemTableInserter_Handler : Handler (option MemTableInserter) := {
  handler_Put := MemTableInserter_Put;
  handler_Delete := MemTableInserter_Delete
}.

(** [InsertInto] returns the status of [Iterate] with the memtable as the
    inserter has left it. *)
Definition InsertInto (b : WriteBatch.t) (memtable : MemTable.t)
  : option (Status * option MemTable.t) :=
  let inserter := {| sequence_ := Sequence b; mem_ := memtable |} in
  match Iterate b (Some inserter) with
  | None => None
  | Some (s, h) => Some (s, option_map mem_ h)
  end.

End WithComparator.

End WriteBatchInternal.

(** * Facts about util/coding *)
Module CodingFacts.
Import Coding.

(** Bit-level equalities: [Z.bitblast], then the comparisons of bit indices
    it leaves behind. *)
Ltac bits :=
  Z.bitblast;
  repeat match goal with
         | |- context [?a =? ?b] => destruct (Z.eqb_spec a b); try lia
         end;
  try btauto.

(** ** Machine integers and slices *)

Lemma to_int32_small a : - 2 ^ 31 <= a < 2 ^ 31 -> to_int32 a = a.
Proof.
  unfold to_int32.
  change (2 ^ 31) with 2147483648. change (2 ^ 32) with 4294967296.
  intros. Z.div_mod_to_equations. lia.
Qed.

Lemma to_int32_add_l a b : to_int32 (to_int32 a + b) = to_int32 (a + b).
Proof.
  unfold to_int32.
  change (2 ^ 31) with 2147483648. change (2 ^ 32) with 4294967296.
  Z.div_mod_to_equations. lia.
Qed.

Lemma to_int32_idem a : to_int32 (to_int32 a) = to_int32 a.
Proof.
  pose proof (to_int32_add_l a 0) as E. rewrite !Z.add_0_r in E. exact E.
Qed.

Lemma to_size_t_small a : 0 <= a < 2 ^ 64 -> to_size_t a = a.
Proof. intros. apply Z.mod_small. assumption. Qed.

Lemma size_app (a b : list byte) : size (a ++ b) = size a + size b.
Proof. unfold size. rewrite length_app. lia. Qed.

Lemma size_firstn (len : Z) (p : list byte) :
  0 <= len <= size p -> size (firstn (Z.to_nat len) p) = len.
Proof. unfold size. intros. rewrite length_firstn. lia. Qed.

Lemma firstn_size_app (data rest : list byte) :
  firstn (Z.to_nat (size data)) (data ++ rest) = data.
Proof.
  unfold size. rewrite Nat2Z.id, firstn_app, Nat.sub_diag, firstn_O, app_nil_r.
  apply firstn_all.
Qed.

Lemma skipn_size_app (data rest : list byte) :
  skipn (Z.to_nat (size data)) (data ++ rest) = rest.
Proof.
  unfold size. rewrite Nat2Z.id, skipn_app, Nat.sub_diag, skipn_all. reflexivity.
Qed.

(** ** Bytes of a varint *)

(** The byte has its high bit set: more bytes follow. *)
Definition continues (b : byte) : Prop := 128 <= byte.unsigned b.

Lemma land_128 b :
  Z.land (byte.unsigned b) 128 = if byte.unsigned b <? 128 then 0 else 128.
Proof. destruct b; reflexivity. Qed.

Lemma land_127 b : Z.land (byte.unsigned b) 127 = byte.unsigned b mod 128.
Proof. destruct b; reflexivity. Qed.

Lemma continues_test b :
  negb (Z.land (byte.unsigned b) 128 =? 0) = true <-> continues b.
Proof.
  unfold continues. rewrite land_128.
  destruct (Z.ltb_spec (byte.unsigned b) 128); simpl; split; intros; try lia; try discriminate; reflexivity.
Qed.

Lemma not_continues_test b :
  negb (Z.land (byte.unsigned b) 128 =? 0) = false <-> ~ continues b.
Proof.
  rewrite <- continues_test. destruct (negb _); split; intros; congruence.
Qed.

Lemma continues_dec b : {continues b} + {~ continues b}.
Proof. unfold continues. destruct (Z_le_dec 128 (byte.unsigned b)); auto. Qed.

Lemma unsigned_of_Z_small x : 0 <= x < 256 -> byte.unsigned (byte.of_Z x) = x.
Proof.
  intros. rewrite byte.unsigned_of_Z. unfold byte.wrap. apply Z.mod_small. lia.
Qed.

Lemma unsigned_of_Z_lor x :
  byte.unsigned (byte.of_Z (Z.lor x 128)) = Z.lor (Z.land x 127) 128.
Proof.
  rewrite byte.unsigned_of_Z. unfold byte.wrap.
  change 127 with (Z.ones 7). change 128 with (2 ^ 7).
  rewrite <- Z.land_ones by lia. bits.
Qed.

Lemma lor_128_continues x : continues (byte.of_Z (Z.lor x 128)).
Proof.
  unfold continues. rewrite unsigned_of_Z_lor.
  assert (H : Z.testbit (Z.lor (Z.land x 127) 128) 7 = true).
  { rewrite Z.lor_spec. change 128 with (2 ^ 7). rewrite Z.pow2_bits_true by lia.
    apply orb_true_r. }
  assert (0 <= Z.lor (Z.land x 127) 128).
  { apply Z.lor_nonneg. split; [|lia]. apply Z.land_nonneg. right; lia. }
  destruct (Z.lt_ge_cases (Z.lor (Z.land x 127) 128) 128) as [Hlt|]; [|assumption].
  rewrite Z.bits_above_log2 in H; [discriminate|assumption|].
  destruct (Z.eq_dec (Z.lor (Z.land x 127) 128) 0) as [->|]; [simpl; lia|].
  apply Z.log2_lt_pow2; lia.
Qed.

Lemma lor_128_low x :
  Z.land (byte.unsigned (byte.of_Z (Z.lor x 128))) 127 = Z.land x 127.
Proof.
  rewrite unsigned_of_Z_lor.
  change 127 with (Z.ones 7). change 128 with (2 ^ 7). bits.
Qed.

(** One turn of the decoding loops on a byte with, and on a byte without,
    the continuation bit. *)
Lemma loop32_continue shift result b p :
  shift <= 28 -> continues b ->
  GetVarint32PtrFallback_loop shift result (b :: p) =
  GetVarint32PtrFallback_loop (shift + 7)
    (Z.lor result (to_uint32 (Z.shiftl (Z.land (byte.unsigned b) 127) shift))) p.
Proof.
  intros Hs Hb. simpl.
  destruct (Z.leb_spec shift 28); [|lia].
  apply continues_test in Hb. rewrite Hb. reflexivity.
Qed.

Lemma loop32_last shift result b p :
  shift <= 28 -> ~ continues b ->
  GetVarint32PtrFallback_loop shift result (b :: p) =
  Some (Z.lor result (to_uint32 (Z.shiftl (byte.unsigned b) shift)), p).
Proof.
  intros Hs Hb. simpl.
  destruct (Z.leb_spec shift 28); [|lia].
  apply not_continues_test in Hb. rewrite Hb. reflexivity.
Qed.

Lemma loop32_stop shift result p :
  28 < shift -> GetVarint32PtrFallback_loop shift result p = None.
Proof.
  intros Hs. destruct p; simpl; destruct (Z.leb_spec shift 28); try lia; reflexivity.
Qed.

Lemma loop64_continue shift result b p :
  shift <= 63 -> continues b ->
  GetVarint64Ptr_loop shift result (b :: p) =
  GetVarint64Ptr_loop (shift + 7)
    (Z.lor result (to_uint64 (Z.shiftl (Z.land (byte.unsigned b) 127) shift))) p.
Proof.
  intros Hs Hb. simpl.
  destruct (Z.leb_spec shift 63); [|lia].
  apply continues_test in Hb. rewrite Hb. reflexivity.
Qed.

Lemma loop64_last shift result b p :
  shift <= 63 -> ~ continues b ->
  GetVarint64Ptr_loop shift result (b :: p) =
  Some (Z.lor result (to_uint64 (Z.shiftl (byte.unsigned b) shift)), p).
Proof.
  intros Hs Hb. simpl.
  destruct (Z.leb_spec shift 63); [|lia].
  apply not_continues_test in Hb. rewrite Hb. reflexivity.
Qed.

Lemma loop64_stop shift result p :
  63 < shift -> GetVarint64Ptr_loop shift result p = None.
Proof.
  intros Hs. destruct p; simpl; destruct (Z.leb_spec shift 63); try lia; reflexivity.
Qed.

(** ** When the decoders fail *)

(** The input ends within the first [n] bytes and no byte of it ends the
    number. *)
Definition exhausted (n : nat) (p : list byte) : Prop :=
  (length p < n)%nat /\ Forall continues p.

(** The first [n] bytes are there and all of them ask for another byte. *)
Definition overlong (n : nat) (p : list byte) : Prop :=
  (n <= length p)%nat /\ Forall continues (firstn n p).

Lemma exhausted_or_overlong n p :
  exhausted n p \/ overlong n p <-> Forall continues (firstn n p).
Proof.
  unfold exhausted, overlong. split.
  - intros [[Hl Hf]|[Hl Hf]]; [|assumption].
    rewrite firstn_all2 by lia. assumption.
  - intros Hf. destruct (Nat.lt_ge_cases (length p) n) as [Hl|Hl].
    + left. split; [assumption|]. rewrite firstn_all2 in Hf by lia. assumption.
    + right. split; assumption.
Qed.

Lemma loop32_None_iff p : forall (k : nat) result,
  (k <= 5)%nat ->
  GetVarint32PtrFallback_loop (7 * Z.of_nat k) result p = None <->
  Forall continues (firstn (5 - k) p).
Proof.
  induction p as [|b p IH]; intros k result Hk.
  - rewrite firstn_nil. split; [constructor|].
    intros _. simpl. destruct (_ <=? _); reflexivity.
  - destruct (Nat.eq_dec k 5) as [->|Hne].
    + simpl firstn. split; [constructor|]. intros _. apply loop32_stop. lia.
    + replace (5 - k)%nat with (S (5 - S k)) by lia. cbn [firstn].
      destruct (continues_dec b) as [Hb|Hb].
      * rewrite loop32_continue by (assumption || lia).
        replace (7 * Z.of_nat k + 7) with (7 * Z.of_nat (S k)) by lia.
        rewrite IH by lia. split; intros H.
        -- constructor; assumption.
        -- inversion H; assumption.
      * rewrite loop32_last by (assumption || lia). split; intros H.
        -- discriminate.
        -- inversion H; contradiction.
Qed.

Lemma loop64_None_iff p : forall (k : nat) result,
  (k <= 10)%nat ->
  GetVarint64Ptr_loop (7 * Z.of_nat k) result p = None <->
  Forall continues (firstn (10 - k) p).
Proof.
  induction p as [|b p IH]; intros k result Hk.
  - rewrite firstn_nil. split; [constructor|].
    intros _. simpl. destruct (_ <=? _); reflexivity.
  - destruct (Nat.eq_dec k 10) as [->|Hne].
    + simpl firstn. split; [constructor|]. intros _. apply loop64_stop. lia.
    + replace (10 - k)%nat with (S (10 - S k)) by lia. cbn [firstn].
      destruct (continues_dec b) as [Hb|Hb].
      * rewrite loop64_continue by (assumption || lia).
        replace (7 * Z.of_nat k + 7) with (7 * Z.of_nat (S k)) by lia.
        rewrite IH by lia. split; intros H.
        -- constructor; assumption.
        -- inversion H; assumption.
      * rewrite loop64_last by (assumption || lia). split; intros H.
        -- discriminate.
        -- inversion H; contradiction.
Qed.

Lemma GetVarint32PtrFallback_None_iff p :
  GetVarint32PtrFallback p = None <-> Forall continues (firstn 5 p).
Proof. apply (loop32_None_iff p 0 0). lia. Qed.

Lemma GetVarint64Ptr_None_iff p :
  GetVarint64Ptr p = None <-> Forall continues (firstn 10 p).
Proof. apply (loop64_None_iff p 0 0). lia. Qed.

Lemma GetVarint32Ptr_None_iff p :
  GetVarint32Ptr p = None <-> exhausted 5 p \/ overlong 5 p.
Proof.
  unfold GetVarint32Ptr. rewrite GetVarint32PtrFallback_None_iff.
  symmetry. apply exhausted_or_overlong.
Qed.

(** A successful decode consumed between one and five bytes: some bytes
    with the continuation bit, then one without. *)
Lemma loop32_Some_inv p : forall (k : nat) result v q,
  GetVarint32PtrFallback_loop (7 * Z.of_nat k) result p = Some (v, q) ->
  exists cs t, p = cs ++ t :: q /\ Forall continues cs /\ ~ continues t /\
               (k + length cs <= 4)%nat.
Proof.
  induction p as [|b p IH]; intros k result v q H.
  - simpl in H. destruct (_ <=? _); discriminate.
  - destruct (Z.le_gt_cases (7 * Z.of_nat k) 28) as [Hs|Hs].
    2:{ rewrite loop32_stop in H by lia. discriminate. }
    destruct (continues_dec b) as [Hb|Hb].
    + rewrite loop32_continue in H by assumption.
      replace (7 * Z.of_nat k + 7) with (7 * Z.of_nat (S k)) in H by lia.
      apply IH in H. destruct H as (cs & t & -> & Hcs & Ht & Hl).
      exists (b :: cs), t. repeat split; try assumption.
      * constructor; assumption.
      * simpl. lia.
    + rewrite loop32_last in H by assumption. inversion H; subst.
      exists [], b. split; [reflexivity|]. split; [constructor|]. split; [assumption|]. simpl. lia.
Qed.

Lemma GetVarint32Ptr_Some_inv p v q :
  GetVarint32Ptr p = Some (v, q) ->
  exists cs t, p = cs ++ t :: q /\ Forall continues cs /\ ~ continues t /\
               (length cs <= 4)%nat.
Proof. intros H. apply (loop32_Some_inv p 0 0) in H. exact H. Qed.

Lemma GetVarint32Ptr_consumed p v q :
  GetVarint32Ptr p = Some (v, q) ->
  exists n, (1 <= n <= 5)%nat /\ (n <= length p)%nat /\ q = skipn n p.
Proof.
  intros H. apply GetVarint32Ptr_Some_inv in H.
  destruct H as (cs & t & -> & _ & _ & Hl).
  exists (S (length cs)). rewrite length_app. simpl. repeat split; try lia.
  clear. induction cs; simpl; [reflexivity|assumption].
Qed.

(** ** Encoding, then decoding *)

Lemma shiftr_small v k n :
  0 <= k -> 0 <= v < 2 ^ (k + n) -> 0 <= n -> 0 <= Z.shiftr v k < 2 ^ n.
Proof.
  intros Hk Hv Hn. rewrite Z.shiftr_div_pow2 by assumption.
  rewrite Z.pow_add_r in Hv by assumption.
  assert (0 < 2 ^ k) by (apply Z.pow_pos_nonneg; lia).
  split.
  - apply Z.div_pos; lia.
  - apply Z.div_lt_upper_bound; lia.
Qed.

Lemma last_byte_stops x : 0 <= x < 128 -> ~ continues (byte.of_Z x).
Proof. intros Hx. unfold continues. rewrite unsigned_of_Z_small; lia. Qed.

Lemma GetVarint32PtrFallback_EncodeVarint32 v rest :
  0 <= v < 2 ^ 32 ->
  GetVarint32PtrFallback (EncodeVarint32 v ++ rest) = Some (v, rest).
Proof.
  intros Hv. unfold EncodeVarint32, GetVarint32PtrFallback.
  assert (Hu : to_uint32 v = v) by (apply Z.mod_small; assumption).
  rewrite Hu. cbv zeta.
  change (Z.shiftl 1 7) with (2 ^ 7). change (Z.shiftl 1 14) with (2 ^ 14).
  change (Z.shiftl 1 21) with (2 ^ 21). change (Z.shiftl 1 28) with (2 ^ 28).
  pose proof (fun k n => shiftr_small v k n) as Hsh.
  repeat match goal with
         | |- context [?a <? ?b] => destruct (Z.ltb_spec a b)
         end;
    cbn [app];
    repeat rewrite loop32_continue by (lia || apply lor_128_continues);
    (rewrite loop32_last;
     [ | lia | apply last_byte_stops; first [ lia | apply (Hsh _ 7); lia ] ]);
    f_equal; f_equal;
    rewrite ?lor_128_low;
    (rewrite unsigned_of_Z_small
       by first [ lia | assert (H128 : forall x, 0 <= x < 2 ^ 7 -> 0 <= x < 256) by lia;
                        apply H128, Hsh; lia ]);
    (transitivity (to_uint32 v); [|exact Hu]); unfold to_uint32;
    change 127 with (Z.ones 7); rewrite <- !Z.land_ones by lia;
    cbn [Z.add Pos.add Pos.succ]; bits.
Qed.

Lemma GetVarint32Ptr_EncodeVarint32 v rest :
  0 <= v < 2 ^ 32 ->
  GetVarint32Ptr (EncodeVarint32 v ++ rest) = Some (v, rest).
Proof. apply GetVarint32PtrFallback_EncodeVarint32. Qed.

Lemma VarintLength_EncodeVarint32 v :
  0 <= v < 2 ^ 32 ->
  size (EncodeVarint32 v) = VarintLength v /\ 1 <= VarintLength v <= 5.
Proof.
  intros Hv. unfold EncodeVarint32, VarintLength, size.
  assert (Hu : to_uint32 v = v) by (apply Z.mod_small; assumption).
  assert (Hu' : to_uint64 v = v) by (apply Z.mod_small; lia).
  rewrite Hu, Hu'. cbv zeta. cbn [VarintLength_loop].
  change (Z.shiftl 1 7) with (2 ^ 7). change (Z.shiftl 1 14) with (2 ^ 14).
  change (Z.shiftl 1 21) with (2 ^ 21). change (Z.shiftl 1 28) with (2 ^ 28).
  rewrite !Z.shiftr_shiftr by lia. cbn [Z.add Pos.add Pos.succ].
  rewrite !Z.shiftr_div_pow2 by lia.
  repeat match goal with
         | |- context [?a <? ?b] => destruct (Z.ltb_spec a b)
         end;
    repeat match goal with
           | |- context [128 <=? ?a] => destruct (Z.leb_spec 128 a)
           end;
    cbn [length Z.of_nat Pos.of_succ_nat Pos.succ Z.add Pos.add];
    try (split; [reflexivity|lia]);
    exfalso;
    change (2 ^ 7) with 128 in *; change (2 ^ 14) with 16384 in *;
    change (2 ^ 21) with 2097152 in *; change (2 ^ 28) with 268435456 in *;
    change (2 ^ 35) with 34359738368 in *; change (2 ^ 42) with 4398046511104 in *;
    change (2 ^ 49) with 562949953421312 in *;
    change (2 ^ 56) with 72057594037927936 in *;
    change (2 ^ 63) with 9223372036854775808 in *;
    change (2 ^ 32) with 4294967296 in *;
    Z.div_mod_to_equations; lia.
Qed.

(** The fuel of [VarintLength] and [EncodeVarint64] is enough for every
    64-bit number: after ten turns nothing is left to shift. *)
Lemma VarintLength_loop_fuel : forall (n k : nat) v len,
  0 <= v < 2 ^ (7 * Z.of_nat n) ->
  VarintLength_loop (n + k) v len = VarintLength_loop n v len.
Proof.
  induction n as [|n IH]; intros k v len Hv.
  - simpl in Hv. assert (v = 0) by lia. subst.
    destruct k; reflexivity.
  - cbn [Nat.add VarintLength_loop].
    destruct (Z.leb_spec 128 v); [|reflexivity].
    apply IH. apply shiftr_small; try lia.
    replace (7 + 7 * Z.of_nat n) with (7 * Z.of_nat (S n)) by lia. assumption.
Qed.

Lemma EncodeVarint64_loop_fuel : forall (n k : nat) v,
  0 <= v < 2 ^ (7 * Z.of_nat n) ->
  EncodeVarint64_loop (n + k) v = EncodeVarint64_loop n v.
Proof.
  induction n as [|n IH]; intros k v Hv.
  - simpl in Hv. assert (v = 0) by lia. subst.
    destruct k; reflexivity.
  - cbn [Nat.add EncodeVarint64_loop].
    destruct (Z.leb_spec 128 v); [|reflexivity].
    f_equal. apply IH. apply shiftr_small; try lia.
    replace (7 + 7 * Z.of_nat n) with (7 * Z.of_nat (S n)) by lia. assumption.
Qed.

Lemma VarintLength_fuel (k : nat) v :
  VarintLength_loop (10 + k) (to_uint64 v) 1 = VarintLength v.
Proof.
  apply VarintLength_loop_fuel. unfold to_uint64.
  pose proof (Z.mod_pos_bound v (2 ^ 64) ltac:(lia)) as H.
  change (2 ^ (7 * Z.of_nat 10)) with (2 ^ 70).
  assert (2 ^ 64 < 2 ^ 70) by (apply Z.pow_lt_mono_r; lia). lia.
Qed.

Lemma EncodeVarint64_fuel (k : nat) v :
  EncodeVarint64_loop (10 + k) (to_uint64 v) = EncodeVarint64 v.
Proof.
  apply EncodeVarint64_loop_fuel. unfold to_uint64.
  pose proof (Z.mod_pos_bound v (2 ^ 64) ltac:(lia)) as H.
  change (2 ^ (7 * Z.of_nat 10)) with (2 ^ 70).
  assert (2 ^ 64 < 2 ^ 70) by (apply Z.pow_lt_mono_r; lia). lia.
Qed.

(** A first byte without the continuation bit is the whole number: a
    wrapper that looks at one byte before it calls the fallback returns
    what the fallback returns. *)
Lemma GetVarint32Ptr_one_byte b rest :
  ~ continues b -> GetVarint32Ptr (b :: rest) = Some (byte.unsigned b, rest).
Proof.
  intros Hb. unfold GetVarint32Ptr, GetVarint32PtrFallback.
  rewrite loop32_last by (assumption || lia).
  rewrite Z.shiftl_0_r, Z.lor_0_l. unfold to_uint32.
  pose proof (byte.unsigned_range b).
  rewrite Z.mod_small by (change (2 ^ 8) with 256 in *; change (2 ^ 32) with 4294967296; lia).
  reflexivity.
Qed.

(** ** The slice reader is not atomic *)

Lemma GetVarint32_failure input :
  fst (GetVarint32 input) = None -> snd (GetVarint32 input) = input.
Proof.
  unfold GetVarint32. destruct (GetVarint32Ptr input) as [[v q]|]; simpl.
  - discriminate.
  - reflexivity.
Qed.

(** ** The wire format of a varint32, and what the decoder makes of it

    "Base-128, little-endian groups, high bit = continuation, 1-5 bytes
    for 32-bit": up to four bytes with the continuation bit, then one
    without.  The value is read off the low seven bits of each byte and
    kept to 32 bits. *)
Definition varint32_form (enc : list byte) : Prop :=
  exists cs t, enc = cs ++ [t] /\ Forall continues cs /\ ~ continues t /\
               (length cs <= 4)%nat.

Definition groups (enc : list byte) : Z :=
  fold_right (fun b acc => byte.unsigned b mod 128 + 128 * acc) 0 enc.

Definition varint32_value (enc : list byte) : Z := to_uint32 (groups enc).

Lemma lor_shiftl_add r y n :
  0 <= n -> 0 <= r < 2 ^ n -> Z.lor r (Z.shiftl y n) = r + y * 2 ^ n.
Proof.
  intros Hn Hr. rewrite <- Z.shiftl_mul_pow2 by assumption.
  apply Z.or_to_plus. apply Z.bits_inj'. intros i Hi.
  rewrite Z.land_spec, Z.bits_0.
  destruct (Z.lt_ge_cases i n) as [Hlt|Hge].
  - rewrite Z.shiftl_spec_low by assumption. apply andb_false_r.
  - destruct (Z.eq_dec r 0) as [->|Hne]; [rewrite Z.bits_0; reflexivity|].
    rewrite (Z.bits_above_log2 r i); [reflexivity|lia|].
    apply Z.lt_le_trans with n; [|assumption].
    apply Z.log2_lt_pow2; lia.
Qed.

Lemma loop32_value cs t rest : forall (k : nat) r,
  Forall continues cs -> ~ continues t -> (k + length cs <= 4)%nat ->
  0 <= r < 2 ^ (7 * Z.of_nat k) ->
  GetVarint32PtrFallback_loop (7 * Z.of_nat k) r (cs ++ t :: rest) =
  Some (to_uint32 (r + 2 ^ (7 * Z.of_nat k) * groups (cs ++ [t])), rest).
Proof.
  induction cs as [|c cs IH]; intros k r Hcs Ht Hk Hr.
  - cbn [app]. simpl in Hk. rewrite loop32_last by (assumption || lia).
    f_equal. f_equal. unfold groups. cbn [fold_right].
    unfold continues in Ht. pose proof (byte.unsigned_range t) as Hb.
    rewrite (Z.mod_small (byte.unsigned t) 128) by lia.
    unfold to_uint32. rewrite Z.shiftl_mul_pow2 by lia.
    simpl in Hk.
    assert (Hk' : (k = 0 \/ k = 1 \/ k = 2 \/ k = 3 \/ k = 4)%nat) by lia.
    set (x := byte.unsigned t) in *.
    assert (Hx : 0 <= x < 128) by lia. clearbody x.
    assert (Hmul : forall n m : Z, 0 <= n -> 0 <= m -> 2 ^ n * 2 ^ m = 2 ^ (n + m))
      by (intros; rewrite Z.pow_add_r by assumption; reflexivity).
    destruct Hk' as [->|[->|[->|[->| ->]]]]; cbn [Z.of_nat Pos.of_succ_nat Pos.succ Z.mul Pos.mul Pos.add] in *.
    + change (2 ^ 0) with 1 in *. assert (r = 0) by lia. subst r.
      rewrite Z.lor_0_l. f_equal. lia.
    + rewrite (Z.mod_small (x * 2 ^ 7)) by (change (2 ^ 7) with 128; change (2 ^ 32) with 4294967296; lia).
      rewrite <- Z.shiftl_mul_pow2 by lia. rewrite lor_shiftl_add by lia.
      rewrite Z.mod_small; [lia|].
      change (2 ^ 7) with 128 in *; change (2 ^ 32) with 4294967296; lia.
    + rewrite (Z.mod_small (x * 2 ^ 14)) by (change (2 ^ 14) with 16384; change (2 ^ 32) with 4294967296; lia).
      rewrite <- Z.shiftl_mul_pow2 by lia. rewrite lor_shiftl_add by lia.
      rewrite Z.mod_small; [lia|].
      change (2 ^ 14) with 16384 in *; change (2 ^ 32) with 4294967296; lia.
    + rewrite (Z.mod_small (x * 2 ^ 21)) by (change (2 ^ 21) with 2097152; change (2 ^ 32) with 4294967296; lia).
      rewrite <- Z.shiftl_mul_pow2 by lia. rewrite lor_shiftl_add by lia.
      rewrite Z.mod_small; [lia|].
      change (2 ^ 21) with 2097152 in *; change (2 ^ 32) with 4294967296; lia.
    + assert (E : (x * 2 ^ 28) mod 2 ^ 32 = (x mod 2 ^ 4) * 2 ^ 28).
      { change (2 ^ 32) with (2 ^ 4 * 2 ^ 28).
        rewrite Z.mul_mod_distr_r by lia. reflexivity. }
      rewrite E. rewrite <- Z.shiftl_mul_pow2 by lia. rewrite lor_shiftl_add by lia.
      change (2 ^ 28) with 268435456 in *. change (2 ^ 4) with 16 in *.
      change (2 ^ 32) with 4294967296 in *.
      Z.div_mod_to_equations. lia.
  - cbn [app]. inversion Hcs as [|? ? Hc Hcs']; subst.
    simpl in Hk.
    rewrite loop32_continue by (assumption || lia).
    replace (7 * Z.of_nat k + 7) with (7 * Z.of_nat (S k)) by lia.
    rewrite land_127.
    pose proof (Z.mod_pos_bound (byte.unsigned c) 128 ltac:(lia)) as Hm.
    set (x := byte.unsigned c mod 128) in *.
    assert (Hpow : 2 ^ (7 * Z.of_nat (S k)) = 128 * 2 ^ (7 * Z.of_nat k)).
    { replace (7 * Z.of_nat (S k)) with (7 + 7 * Z.of_nat k) by lia.
      rewrite Z.pow_add_r by lia. reflexivity. }
    assert (Hp : 0 < 2 ^ (7 * Z.of_nat k)) by (apply Z.pow_pos_nonneg; lia).
    assert (Hsmall : 0 <= Z.shiftl x (7 * Z.of_nat k) < 2 ^ 32).
    { rewrite Z.shiftl_mul_pow2 by lia. split; [nia|].
      apply Z.lt_le_trans with (2 ^ (7 * Z.of_nat (S k))); [rewrite Hpow; nia|].
      apply Z.pow_le_mono_r; lia. }
    unfold to_uint32 at 1. rewrite (Z.mod_small _ _ Hsmall).
    rewrite lor_shiftl_add by lia.
    rewrite IH; try assumption; try lia.
    + change (groups (c :: cs ++ [t])) with (x + 128 * groups (cs ++ [t])).
      rewrite Hpow. do 3 f_equal. ring.
    + rewrite Hpow. nia.
Qed.

Lemma GetVarint32Ptr_form enc rest :
  varint32_form enc ->
  GetVarint32Ptr (enc ++ rest) = Some (varint32_value enc, rest).
Proof.
  intros (cs & t & -> & Hcs & Ht & Hl).
  unfold GetVarint32Ptr, GetVarint32PtrFallback.
  rewrite <- app_assoc. cbn [app].
  change (GetVarint32PtrFallback_loop 0 0 (cs ++ t :: rest))
    with (GetVarint32PtrFallback_loop (7 * Z.of_nat 0) 0 (cs ++ t :: rest)).
  rewrite (loop32_value cs t rest 0 0) by (assumption || simpl; lia).
  unfold varint32_value. do 3 f_equal. change (2 ^ (7 * Z.of_nat 0)) with 1. lia.
Qed.

Lemma GetVarint32Ptr_Some_form p v q :
  GetVarint32Ptr p = Some (v, q) ->
  exists enc, varint32_form enc /\ p = enc ++ q /\ v = varint32_value enc.
Proof.
  intros H. destruct (GetVarint32Ptr_Some_inv _ _ _ H) as (cs & t & -> & Hcs & Ht & Hl).
  assert (Hf : varint32_form (cs ++ [t])) by (exists cs, t; auto).
  exists (cs ++ [t]). split; [assumption|]. split.
  - rewrite <- app_assoc. reflexivity.
  - pose proof (GetVarint32Ptr_form _ q Hf) as E.
    rewrite <- app_assoc in E. cbn [app] in E. congruence.
Qed.

(** ** The properties of the codec *)

(** C2, varint32 round-trip: for every [v] in [[0, 2^32)], decoding the
    bytes [EncodeVarint32] produces, followed by whatever the buffer holds
    up to the limit, succeeds, yields [v], and leaves the cursor
    [VarintLength v] bytes further, which is between 1 and 5 bytes. *)
Theorem varint32_roundtrip (v : Z) (rest : list byte) :
  0 <= v < 2 ^ 32 ->
  GetVarint32Ptr (EncodeVarint32 v ++ rest) = Some (v, rest) /\
  GetVarint32PtrFallback (EncodeVarint32 v ++ rest) = Some (v, rest) /\
  size (EncodeVarint32 v ++ rest) - size rest = VarintLength v /\
  1 <= VarintLength v <= 5.
Proof.
  intros Hv.
  pose proof (GetVarint32PtrFallback_EncodeVarint32 v rest Hv) as Hd.
  destruct (VarintLength_EncodeVarint32 v Hv) as [Hlen Hrange].
  repeat split; try assumption; try lia.
  unfold size in *. rewrite length_app. lia.
Qed.

Lemma varint32_roundtrip_witness :
  0 <= 300 < 2 ^ 32 /\
  GetVarint32Ptr (EncodeVarint32 300 ++ [Byte.x07]) = Some (300, [Byte.x07]) /\
  GetVarint32PtrFallback (EncodeVarint32 300 ++ [Byte.x07]) = Some (300, [Byte.x07]) /\
  size (EncodeVarint32 300 ++ [Byte.x07]) - size [Byte.x07] = VarintLength 300 /\
  1 <= VarintLength 300 <= 5.
Proof.
  split; [lia|]. apply (varint32_roundtrip 300 [Byte.x07]). lia.
Defined.

(** C8, varint decode failure: [GetVarint32Ptr] (and the fallback behind
    it) and [GetVarint64Ptr] return the null pointer exactly when the
    input runs out before a byte without the continuation bit is seen, or
    when the first 5 (respectively 10) bytes all carry the continuation
    bit; in particular such a 5-byte (10-byte) prefix is rejected whatever
    follows it. *)
Theorem varint_decode_failure :
  (forall p, GetVarint32Ptr p = None <-> exhausted 5 p \/ overlong 5 p) /\
  (forall p, GetVarint32PtrFallback p = None <-> exhausted 5 p \/ overlong 5 p) /\
  (forall p, GetVarint64Ptr p = None <-> exhausted 10 p \/ overlong 10 p) /\
  (forall cs rest, length cs = 5%nat -> Forall continues cs ->
                   GetVarint32Ptr (cs ++ rest) = None) /\
  (forall cs rest, length cs = 10%nat -> Forall continues cs ->
                   GetVarint64Ptr (cs ++ rest) = None).
Proof.
  assert (H32 : forall p, GetVarint32PtrFallback p = None <->
                          exhausted 5 p \/ overlong 5 p).
  { intros p. rewrite exhausted_or_overlong. apply GetVarint32PtrFallback_None_iff. }
  assert (H64 : forall p, GetVarint64Ptr p = None <->
                          exhausted 10 p \/ overlong 10 p).
  { intros p. rewrite exhausted_or_overlong. apply GetVarint64Ptr_None_iff. }
  repeat split; try apply H32; try apply H64.
  - intros cs rest Hl Hcs. apply H32. right. split.
    + rewrite length_app. lia.
    + rewrite firstn_app, Hl, Nat.sub_diag, firstn_O, app_nil_r.
      rewrite <- Hl, firstn_all. assumption.
  - intros cs rest Hl Hcs. apply H64. right. split.
    + rewrite length_app. lia.
    + rewrite firstn_app, Hl, Nat.sub_diag, firstn_O, app_nil_r.
      rewrite <- Hl, firstn_all. assumption.
Qed.

Lemma all_continue_ff n : Forall continues (repeat Byte.xff n).
Proof.
  apply Forall_forall. intros b Hb. apply repeat_spec in Hb. subst.
  unfold continues. vm_compute. discriminate.
Qed.

Lemma varint_decode_failure_witness :
  GetVarint32Ptr (repeat Byte.xff 5 ++ [Byte.x01]) = None /\
  GetVarint64Ptr (repeat Byte.xff 10 ++ [Byte.x01]) = None.
Proof.
  destruct varint_decode_failure as (_ & _ & _ & H5 & H10).
  split.
  - apply (H5 (repeat Byte.xff 5) [Byte.x01]); [reflexivity|apply all_continue_ff].
  - apply (H10 (repeat Byte.xff 10) [Byte.x01]); [reflexivity|apply all_continue_ff].
Defined.

(** C9, the slice-consuming [GetLengthPrefixedSlice] is not atomic: when
    the length prefix decodes but fewer bytes than it announces are left,
    the call returns [false] and the input slice stays advanced past the
    prefix, by one to five bytes; [GetVarint32] alone leaves the input as
    it was when it fails. *)
Theorem GetLengthPrefixedSlice_not_atomic (input : Slice) (len : Z) (rest : Slice) :
  GetVarint32 input = (Some len, rest) ->
  size rest < len ->
  (GetLengthPrefixedSlice input = (None, rest) /\
   (exists n, (1 <= n <= 5)%nat /\ (n <= length input)%nat /\ rest = skipn n input) /\
   rest <> input) /\
  (forall input', fst (GetVarint32 input') = None ->
                  snd (GetVarint32 input') = input').
Proof.
  intros Hv Hlt. split; [|apply GetVarint32_failure].
  assert (Hp : GetVarint32Ptr input = Some (len, rest)).
  { unfold GetVarint32 in Hv. destruct (GetVarint32Ptr input) as [[v q]|];
      inversion Hv; reflexivity. }
  destruct (GetVarint32Ptr_consumed _ _ _ Hp) as (n & Hn & Hle & Hrest).
  split; [|split].
  - unfold GetLengthPrefixedSlice. rewrite Hv.
    destruct (Z.leb_spec len (size rest)); [lia|reflexivity].
  - exists n. auto.
  - intros E. apply (f_equal (@length byte)) in Hrest.
    rewrite length_skipn, E in Hrest. lia.
Qed.

Lemma GetLengthPrefixedSlice_not_atomic_witness :
  (GetLengthPrefixedSlice [Byte.x05; Byte.x61] = (None, [Byte.x61]) /\
   (exists n, (1 <= n <= 5)%nat /\ (n <= length [Byte.x05; Byte.x61])%nat /\
              [Byte.x61] = skipn n [Byte.x05; Byte.x61]) /\
   [Byte.x61] <> [Byte.x05; Byte.x61]) /\
  (forall input', fst (GetVarint32 input') = None ->
                  snd (GetVarint32 input') = input').
Proof.
  apply (GetLengthPrefixedSlice_not_atomic [Byte.x05; Byte.x61] 5 [Byte.x61]).
  - reflexivity.
  - vm_compute. reflexivity.
Defined.

(** The encodings at the boundaries of one and two bytes. *)
Example varint_boundaries :
  EncodeVarint32 127 = [Byte.x7f] /\
  EncodeVarint32 128 = [Byte.x80; Byte.x01] /\
  EncodeVarint32 16383 = [Byte.xff; Byte.x7f] /\
  EncodeVarint32 16384 = [Byte.x80; Byte.x80; Byte.x01] /\
  EncodeVarint64 16384 = [Byte.x80; Byte.x80; Byte.x01] /\
  VarintLength 16384 = 3.
Proof. vm_compute. repeat split. Qed.

(** Five bytes that end the number are decoded, also when the last one
    carries more than the four bits that are left of the 32. *)
Example five_bytes :
  GetVarint32Ptr [Byte.xff; Byte.xff; Byte.xff; Byte.xff; Byte.x0f; Byte.x2a] =
    Some (4294967295, [Byte.x2a]) /\
  GetVarint32Ptr [Byte.xff; Byte.xff; Byte.xff; Byte.xff; Byte.x7f; Byte.x2a] =
    Some (4294967295, [Byte.x2a]) /\
  GetVarint32Ptr [Byte.xff; Byte.xff; Byte.xff; Byte.xff; Byte.xff; Byte.x2a] = None /\
  GetVarint32Ptr [Byte.xff; Byte.xff] = None.
Proof. vm_compute. repeat split. Qed.

End CodingFacts.

(** * Facts about util/arena *)
Module ArenaFacts.
Import Arena.

(** A run of allocations: the pointers handed out, oldest first, and the
    arena afterwards. *)
Fixpoint AllocateAll (a : t) (sizes : list Z) : list pointer * t :=
  match sizes with
  | [] => ([], a)
  | n :: sizes =>
      let (p, a) := Allocate a n in
      let (ps, a) := AllocateAll a sizes in
      (p :: ps, a)
  end.

(** The pointer lies in the block of index [k] or in a later one. *)
Definition in_block_from (k : nat) (p : pointer) : Prop :=
  match p with
  | nullptr => False
  | Ptr block _ => (k <= block)%nat
  end.

Lemma to_size_t_add m x : to_size_t (m + to_size_t x) = to_size_t (m + x).
Proof. unfold to_size_t, to_uint64. apply Zplus_mod_idemp_r. Qed.

Lemma AllocateNewBlock_spec a block_bytes :
  AllocateNewBlock a block_bytes =
  (Ptr (length (blocks_ a)) 0,
   {| alloc_ptr_ := alloc_ptr_ a;
      alloc_bytes_remaining_ := alloc_bytes_remaining_ a;
      blocks_ := blocks_ a ++ [block_bytes];
      memory_usage_ := to_size_t (memory_usage_ a + (block_bytes + sizeof_pointer)) |}).
Proof. unfold AllocateNewBlock. rewrite to_size_t_add. reflexivity. Qed.

(** Once the current block is the one of index [k] or later, every
    allocation is served from such a block. *)
Lemma Allocate_from k a n :
  in_block_from k (alloc_ptr_ a) -> (k <= length (blocks_ a))%nat ->
  in_block_from k (fst (Allocate a n)) /\
  in_block_from k (alloc_ptr_ (snd (Allocate a n))) /\
  (k <= length (blocks_ (snd (Allocate a n))))%nat.
Proof.
  intros Hp Hk. unfold Allocate, AllocateFallback.
  destruct (Z.leb_spec n (alloc_bytes_remaining_ a)).
  - cbn [fst snd alloc_ptr_ blocks_].
    destruct (alloc_ptr_ a); cbn [in_block_from pointer_add] in *; auto.
  - rewrite !AllocateNewBlock_spec.
    destruct (Z.ltb_spec (kBlockSize / 4) n);
      cbn [fst snd alloc_ptr_ blocks_ in_block_from pointer_add];
      rewrite length_app; cbn [length]; repeat split; try assumption; lia.
Qed.

Lemma AllocateAll_from k sizes : forall a,
  in_block_from k (alloc_ptr_ a) -> (k <= length (blocks_ a))%nat ->
  Forall (in_block_from k) (fst (AllocateAll a sizes)).
Proof.
  induction sizes as [|n sizes IH]; intros a Hp Hk; cbn.
  - constructor.
  - destruct (Allocate_from k a n Hp Hk) as (H1 & H2 & H3).
    destruct (Allocate a n) as [p a1]. cbn in *.
    specialize (IH a1 H2 H3).
    destruct (AllocateAll a1 sizes) as [ps a2]. cbn in *.
    constructor; assumption.
Qed.

(** C6, the allocation policy of [Allocate(n)], [n > 0].  When [n] fits in
    what is left of the current block the bytes come from it and the
    pointer advances by [n].  Otherwise a request above [4096 / 4] gets a
    block of its own of exactly [n] bytes, and the current block stays as it
    was, so that later requests that fit in its remainder are served from
    it; a smaller request gets a fresh block of 4096 bytes that becomes the
    current block and serves the [n] bytes, and no later allocation comes
    from an older block.  Every new block adds its size and the size of a
    pointer to [memory_usage_]. *)
Theorem allocation_policy (a : t) (n : Z) :
  0 < n ->
  let (result, a') := Allocate a n in
  (n <= alloc_bytes_remaining_ a ->
     result = alloc_ptr_ a /\
     alloc_ptr_ a' = pointer_add (alloc_ptr_ a) n /\
     alloc_bytes_remaining_ a' = alloc_bytes_remaining_ a - n /\
     blocks_ a' = blocks_ a /\
     memory_usage_ a' = memory_usage_ a) /\
  (alloc_bytes_remaining_ a < n -> 4096 / 4 < n ->
     result = Ptr (length (blocks_ a)) 0 /\
     blocks_ a' = blocks_ a ++ [n] /\
     alloc_ptr_ a' = alloc_ptr_ a /\
     alloc_bytes_remaining_ a' = alloc_bytes_remaining_ a /\
     memory_usage_ a' = to_size_t (memory_usage_ a + (n + sizeof_pointer)) /\
     (forall m, 0 < m <= alloc_bytes_remaining_ a ->
                fst (Allocate a' m) = alloc_ptr_ a)) /\
  (alloc_bytes_remaining_ a < n -> n <= 4096 / 4 ->
     result = Ptr (length (blocks_ a)) 0 /\
     blocks_ a' = blocks_ a ++ [4096] /\
     alloc_ptr_ a' = Ptr (length (blocks_ a)) n /\
     alloc_bytes_remaining_ a' = 4096 - n /\
     memory_usage_ a' = to_size_t (memory_usage_ a + (4096 + sizeof_pointer)) /\
     (forall sizes,
        Forall (in_block_from (length (blocks_ a))) (fst (AllocateAll a' sizes)))).
Proof.
  intros Hn. unfold Allocate, AllocateFallback.
  destruct (Z.leb_spec n (alloc_bytes_remaining_ a)) as [Hfit|Hfit].
  - change (4096 / 4) with 1024.
    split; [|split]; intros; try lia. repeat split.
  - change (kBlockSize / 4) with 1024. change (4096 / 4) with 1024.
    destruct (Z.ltb_spec 1024 n) as [Hbig|Hsmall].
    + rewrite AllocateNewBlock_spec.
      split; [|split]; intros; try lia.
      repeat split. intros m Hm. unfold Allocate. cbn.
      destruct (Z.leb_spec m (alloc_bytes_remaining_ a)); [reflexivity|lia].
    + rewrite AllocateNewBlock_spec. cbn.
      split; [|split]; intros; try lia.
      repeat split. intros sizes. apply AllocateAll_from; cbn.
      * lia.
      * rewrite length_app. cbn. lia.
Qed.

(** The first allocation of a new arena, 100 bytes: a block of 4096. *)
Lemma allocation_policy_witness :
  fst (Allocate new 100) = Ptr 0 0 /\
  blocks_ (snd (Allocate new 100)) = [4096] /\
  alloc_ptr_ (snd (Allocate new 100)) = Ptr 0 100 /\
  alloc_bytes_remaining_ (snd (Allocate new 100)) = 4096 - 100 /\
  memory_usage_ (snd (Allocate new 100)) = 4096 + 8.
Proof.
  pose proof (allocation_policy new 100 ltac:(lia)) as H.
  destruct (Allocate new 100) as [result a'].
  destruct H as (_ & _ & H).
  destruct H as (H1 & H2 & H3 & H4 & H5 & _).
  - cbn. lia.
  - cbn. lia.
  - cbn [fst snd]. repeat split; assumption.
Defined.

End ArenaFacts.

(** * Facts about db/write_batch *)
Module WriteBatchFacts.
Import Coding DBFormat WriteBatch CodingFacts.

(** ** Length-prefixed slices on the wire *)

(** A complete length-prefixed slice at the cursor, followed by [rest]. *)
Definition varstring (p : list byte) (data rest : Slice) : Prop :=
  exists enc, varint32_form enc /\ varint32_value enc = size data /\
              p = enc ++ data ++ rest.

(** The input ends inside the slice: inside its length, or before the
    bytes the length announces are all there. *)
Definition slice_truncated (p : list byte) : Prop :=
  exhausted 5 p \/
  exists enc data, varint32_form enc /\ p = enc ++ data /\
                   size data < varint32_value enc.

(** The length is not a varint32: five bytes, each asking for another. *)
Definition length_malformed (p : list byte) : Prop := overlong 5 p.

Lemma GetLengthPrefixedSlice_varstring p data rest :
  varstring p data rest -> GetLengthPrefixedSlice p = (Some data, rest).
Proof.
  intros (enc & Hf & Hv & ->).
  unfold GetLengthPrefixedSlice, GetVarint32.
  rewrite (GetVarint32Ptr_form enc (data ++ rest) Hf), Hv.
  assert (Hle : size data <= size (data ++ rest)).
  { unfold size. rewrite length_app. lia. }
  destruct (Z.leb_spec (size data) (size (data ++ rest))); [|lia].
  rewrite firstn_size_app, skipn_size_app. reflexivity.
Qed.

Lemma GetLengthPrefixedSlice_truncated p :
  slice_truncated p -> fst (GetLengthPrefixedSlice p) = None.
Proof.
  intros [Hex|(enc & data & Hf & -> & Hlt)];
    unfold GetLengthPrefixedSlice, GetVarint32.
  - assert (E : GetVarint32Ptr p = None).
    { apply GetVarint32Ptr_None_iff. left. assumption. }
    rewrite E. reflexivity.
  - rewrite (GetVarint32Ptr_form enc data Hf).
    destruct (Z.leb_spec (varint32_value enc) (size data)); [lia|reflexivity].
Qed.

Lemma GetLengthPrefixedSlice_malformed p :
  length_malformed p -> fst (GetLengthPrefixedSlice p) = None.
Proof.
  intros Hm. unfold GetLengthPrefixedSlice, GetVarint32.
  assert (E : GetVarint32Ptr p = None).
  { apply GetVarint32Ptr_None_iff. right. assumption. }
  rewrite E. reflexivity.
Qed.



(** ** The records of a batch, as the format describes them *)

(** What stops the walk over the records. *)
Inductive Defect : Type :=
| BadTag            (* a tag that is neither VALUE nor DELETION *)
| Truncated         (* a length-prefixed slice cut short by the end of the input *)
| MalformedLength.  (* a length prefix that is no varint32 *)

Inductive slice_defect : list byte -> Defect -> Prop :=
| defect_truncated p : slice_truncated p -> slice_defect p Truncated
| defect_malformed p : length_malformed p -> slice_defect p MalformedLength.

Lemma slice_defect_None p d :
  slice_defect p d -> fst (GetLengthPrefixedSlice p) = None.
Proof.
  intros [q Hq|q Hq].
  - apply GetLengthPrefixedSlice_truncated; assumption.
  - apply GetLengthPrefixedSlice_malformed; assumption.
Qed.


(** [scan p ops d]: the record area [p] holds the complete records [ops],
    which take it to its end ([d = None]) or to a record with the defect
    [d]. *)
Inductive scan : list byte -> list Op -> option Defect -> Prop :=
| scan_end : scan [] [] None
| scan_put tag p key p1 value p2 ops d :
    byte.unsigned tag = 1 ->
    varstring p key p1 -> varstring p1 value p2 -> scan p2 ops d ->
    scan (tag :: p) (OpPut key value :: ops) d
| scan_delete tag p key p1 ops d :
    byte.unsigned tag = 0 ->
    varstring p key p1 -> scan p1 ops d ->
    scan (tag :: p) (OpDelete key :: ops) d
| scan_bad_tag tag p :
    byte.unsigned tag <> 1 -> byte.unsigned tag <> 0 ->
    scan (tag :: p) [] (Some BadTag)
| scan_put_key tag p d :
    byte.unsigned tag = 1 -> slice_defect p d ->
    scan (tag :: p) [] (Some d)
| scan_put_value tag p key p1 d :
    byte.unsigned tag = 1 -> varstring p key p1 -> slice_defect p1 d ->
    scan (tag :: p) [] (Some d)
| scan_delete_key tag p d :
    byte.unsigned tag = 0 -> slice_defect p d ->
    scan (tag :: p) [] (Some d).



(** ** [Iterate] follows the records *)

Section WithHandler.
Context {H : Type} {handler : Handler H}.

Definition dispatch (h : H) (op : Op) : H :=
  match op with
  | OpPut key value => handler_Put h key value
  | OpDelete key => handler_Delete h key
  end.

Lemma varstring_length p data rest :
  varstring p data rest -> (length rest <= length p)%nat.
Proof.
  intros (enc & _ & _ & ->). rewrite !length_app. lia.
Qed.

(** [found] is an [int] throughout. *)
Lemma Iterate_loop_scan p ops d :
  scan p ops d ->
  forall fuel found h,
    (length p <= fuel)%nat ->
    to_int32 found = found ->
    exists exit,
      Iterate_loop fuel p found h = Some (exit, fold_left dispatch ops h) /\
      match d with
      | None => exit = Done (to_int32 (found + Z.of_nat (length ops)))
      | Some _ => exists msg, exit = Return (Corruption msg)
      end.
Proof.
  induction 1 as [| tag p key p1 value p2 ops d Ht Hk Hv Hs IH
                  | tag p key p1 ops d Ht Hk Hs IH
                  | tag p Ht1 Ht0
                  | tag p d Ht Hd
                  | tag p key p1 d Ht Hk Hd
                  | tag p d Ht Hd ];
    intros fuel found h Hfuel Hfound.
  - exists (Done found). split; [destruct fuel; reflexivity|].
    cbn [length Z.of_nat]. rewrite Z.add_0_r, Hfound. reflexivity.
  - destruct fuel as [|fuel]; [simpl in Hfuel; lia|]. simpl in Hfuel.
    pose proof (varstring_length _ _ _ Hk). pose proof (varstring_length _ _ _ Hv).
    destruct (IH fuel (to_int32 (found + 1)) (handler_Put h key value)
                ltac:(lia) (to_int32_idem _))
      as (exit & E & Hexit).
    exists exit. split.
    + cbn [Iterate_loop]. rewrite Ht. cbn [ValueType_value Z.eqb Pos.eqb].
      rewrite (GetLengthPrefixedSlice_varstring _ _ _ Hk).
      rewrite (GetLengthPrefixedSlice_varstring _ _ _ Hv). exact E.
    + destruct d; [assumption|]. subst exit. f_equal.
      rewrite to_int32_add_l. f_equal. cbn [length]. lia.
  - destruct fuel as [|fuel]; [simpl in Hfuel; lia|]. simpl in Hfuel.
    pose proof (varstring_length _ _ _ Hk).
    destruct (IH fuel (to_int32 (found + 1)) (handler_Delete h key)
                ltac:(lia) (to_int32_idem _))
      as (exit & E & Hexit).
    exists exit. split.
    + cbn [Iterate_loop]. rewrite Ht. cbn [ValueType_value Z.eqb Pos.eqb].
      rewrite (GetLengthPrefixedSlice_varstring _ _ _ Hk). exact E.
    + destruct d; [assumption|]. subst exit. f_equal.
      rewrite to_int32_add_l. f_equal. cbn [length]. lia.
  - destruct fuel as [|fuel]; [simpl in Hfuel; lia|].
    eexists. split; [|eexists; reflexivity].
    cbn [Iterate_loop ValueType_value fold_left].
    destruct (Z.eqb_spec (byte.unsigned tag) 1); [contradiction|].
    destruct (Z.eqb_spec (byte.unsigned tag) 0); [contradiction|]. reflexivity.
  - destruct fuel as [|fuel]; [simpl in Hfuel; lia|].
    apply slice_defect_None in Hd.
    eexists. split; [|eexists; reflexivity].
    cbn [Iterate_loop ValueType_value fold_left]. rewrite Ht. cbn [Z.eqb Pos.eqb].
    destruct (GetLengthPrefixedSlice p) as [[?|] ?]; [discriminate|reflexivity].
  - destruct fuel as [|fuel]; [simpl in Hfuel; lia|].
    apply slice_defect_None in Hd.
    eexists. split; [|eexists; reflexivity].
    cbn [Iterate_loop ValueType_value fold_left]. rewrite Ht. cbn [Z.eqb Pos.eqb].
    rewrite (GetLengthPrefixedSlice_varstring _ _ _ Hk).
    destruct (GetLengthPrefixedSlice p1) as [[?|] ?]; [discriminate|reflexivity].
  - destruct fuel as [|fuel]; [simpl in Hfuel; lia|].
    apply slice_defect_None in Hd.
    eexists. split; [|eexists; reflexivity].
    cbn [Iterate_loop ValueType_value fold_left]. rewrite Ht. cbn [Z.eqb Pos.eqb].
    destruct (GetLengthPrefixedSlice p) as [[?|] ?]; [discriminate|reflexivity].
Qed.

End WithHandler.

(** ** The header *)

Lemma length_EncodeFixed32 n : length (EncodeFixed32 n) = 4%nat.
Proof. apply length_le_split. Qed.

Lemma DecodeFixed32_EncodeFixed32 n rest :
  DecodeFixed32 (EncodeFixed32 n ++ rest) = to_uint32 n.
Proof.
  unfold DecodeFixed32.
  rewrite firstn_app, length_EncodeFixed32, Nat.sub_diag, firstn_O, app_nil_r.
  rewrite <- (length_EncodeFixed32 n) at 1. rewrite firstn_all.
  unfold EncodeFixed32. rewrite le_combine_split.
  unfold to_uint32. apply Z.mod_mod. cbn. lia.
Qed.

Lemma EncodeFixed32_add_l a b :
  EncodeFixed32 (to_int32 (to_uint32 a) + b) = EncodeFixed32 (a + b).
Proof.
  unfold EncodeFixed32. f_equal. unfold to_uint32, to_int32.
  change (2 ^ 31) with 2147483648. change (2 ^ 32) with 4294967296.
  Z.div_mod_to_equations. lia.
Qed.

(** A batch with the eight bytes [seq] of the sequence number, the count
    [c] and the records [body]. *)
Definition batch (seq : list byte) (c : Z) (body : list byte) : t :=
  seq ++ EncodeFixed32 c ++ body.

Section Header.
Variables (seq : list byte) (c : Z) (body : list byte).
Hypothesis Hseq : length seq = 8%nat.

Lemma skipn_8_batch : skipn 8 (batch seq c body) = EncodeFixed32 c ++ body.
Proof.
  unfold batch. rewrite skipn_app, Hseq, Nat.sub_diag, <- Hseq, skipn_all. reflexivity.
Qed.

Lemma firstn_8_batch : firstn 8 (batch seq c body) = seq.
Proof.
  unfold batch.
  rewrite firstn_app, Hseq, Nat.sub_diag, firstn_O, app_nil_r, <- Hseq.
  apply firstn_all.
Qed.

Lemma skipn_12_batch : skipn 12 (batch seq c body) = body.
Proof.
  unfold batch. rewrite app_assoc.
  assert (Hl : length (seq ++ EncodeFixed32 c) = 12%nat)
    by (rewrite length_app, Hseq, length_EncodeFixed32; reflexivity).
  rewrite skipn_app, Hl, Nat.sub_diag, <- Hl, skipn_all. reflexivity.
Qed.

Lemma Count_batch : Count (batch seq c body) = to_int32 (to_uint32 c).
Proof.
  unfold Count. rewrite skipn_8_batch, DecodeFixed32_EncodeFixed32. reflexivity.
Qed.

Lemma SetCount_batch n : SetCount (batch seq c body) n = batch seq n body.
Proof.
  unfold SetCount. rewrite firstn_8_batch, skipn_12_batch. reflexivity.
Qed.

Lemma size_batch : size (batch seq c body) = 12 + size body.
Proof.
  unfold batch, size. rewrite !length_app, Hseq, length_EncodeFixed32. lia.
Qed.
End Header.

Lemma Clear_batch : Clear = batch (repeat Byte.x00 8) 0 [].
Proof. reflexivity. Qed.

(** The bytes [Put] and [Delete] append for one operation. *)
Definition record (op : Op) : list byte :=
  match op with
  | OpPut key value =>
      Byte.x01 :: EncodeVarint32 (size key) ++ key ++
                  EncodeVarint32 (size value) ++ value
  | OpDelete key =>
      Byte.x00 :: EncodeVarint32 (size key) ++ key
  end.

Lemma apply_batch seq c body op :
  length seq = 8%nat ->
  apply (batch seq c body) op = batch seq (c + 1) (body ++ record op).
Proof.
  intros Hseq. destruct op as [key value|key]; cbn [apply record].
  - unfold Put. rewrite Count_batch, SetCount_batch by assumption.
    unfold PutLengthPrefixedSlice, PutVarint32, batch.
    rewrite EncodeFixed32_add_l.
    change (byte.of_Z (ValueType_value kTypeValue)) with Byte.x01.
    rewrite <- !app_assoc. reflexivity.
  - unfold Delete. rewrite Count_batch, SetCount_batch by assumption.
    unfold PutLengthPrefixedSlice, PutVarint32, batch.
    rewrite EncodeFixed32_add_l.
    change (byte.of_Z (ValueType_value kTypeDeletion)) with Byte.x00.
    rewrite <- !app_assoc. reflexivity.
Qed.

Lemma fold_apply_batch ops : forall seq c body,
  length seq = 8%nat ->
  fold_left apply ops (batch seq c body) =
  batch seq (c + Z.of_nat (length ops)) (body ++ concat (map record ops)).
Proof.
  induction ops as [|op ops IH]; intros seq c body Hseq.
  - cbn. rewrite Z.add_0_r, app_nil_r. reflexivity.
  - cbn [fold_left]. rewrite apply_batch by assumption. rewrite IH by assumption.
    cbn [map concat length]. rewrite <- app_assoc. f_equal. lia.
Qed.

(** The key and the value of the operation fit the 32-bit length prefix. *)
Definition fits (op : Op) : Prop :=
  match op with
  | OpPut key value => size key < 2 ^ 32 /\ size value < 2 ^ 32
  | OpDelete key => size key < 2 ^ 32
  end.

Lemma varstring_EncodeVarint32 data rest :
  size data < 2 ^ 32 ->
  varstring (EncodeVarint32 (size data) ++ data ++ rest) data rest.
Proof.
  intros Hs.
  assert (Hv : 0 <= size data < 2 ^ 32) by (unfold size in *; lia).
  pose proof (GetVarint32Ptr_EncodeVarint32 (size data) [] Hv) as E.
  destruct (GetVarint32Ptr_Some_form _ _ _ E) as (enc & Hf & Henc & Hval).
  rewrite !app_nil_r in Henc. exists enc. rewrite <- Henc.
  split; [rewrite Henc; assumption|]. split; [congruence|reflexivity].
Qed.

Lemma scan_records ops : Forall fits ops -> scan (concat (map record ops)) ops None.
Proof.
  induction 1 as [|op ops Hop _ IH]; cbn [map concat].
  - constructor.
  - destruct op as [key value|key]; cbn [record fits] in *.
    + destruct Hop as [Hk Hv]. rewrite <- !app_comm_cons, <- !app_assoc.
      eapply scan_put; [reflexivity| | |exact IH].
      * apply varstring_EncodeVarint32; assumption.
      * apply varstring_EncodeVarint32; assumption.
    + rewrite <- !app_comm_cons, <- !app_assoc.
      eapply scan_delete; [reflexivity| |exact IH].
      apply varstring_EncodeVarint32; assumption.
Qed.

Lemma fold_dispatch_Recorder ops : forall h : list Op,
  fold_left dispatch ops h = h ++ ops.
Proof.
  induction ops as [|op ops IH]; intros h; cbn [fold_left].
  - rewrite app_nil_r. reflexivity.
  - rewrite IH. destruct op; cbn; rewrite <- app_assoc; reflexivity.
Qed.

(** [Iterate] on a buffer that holds a header, by the records behind it. *)
Lemma Iterate_scan {H : Type} {handler : Handler H} (b : t) ops d (h : H) :
  kHeader <= size b ->
  scan (skipn 12 b) ops d ->
  exists st,
    Iterate b h = Some (st, fold_left dispatch ops h) /\
    match d with
    | Some _ => exists msg, st = Corruption msg
    | None =>
        (to_int32 (Z.of_nat (length ops)) = Count b /\ st = OK) \/
        (to_int32 (Z.of_nat (length ops)) <> Count b /\ exists msg, st = Corruption msg)
    end.
Proof.
  intros Hsize Hs. unfold Iterate.
  destruct (Z.ltb_spec (size b) kHeader) as [Hlt|_]; [lia|].
  change (Z.to_nat kHeader) with 12%nat.
  destruct (Iterate_loop_scan _ ops d Hs (length (skipn 12 b)) 0 h (Nat.le_refl _) eq_refl)
    as (exit & E & Hexit).
  rewrite E. destruct d as [d|].
  - destruct Hexit as [msg ->]. eexists. split; [reflexivity|]. eexists; reflexivity.
  - subst exit. cbn [Z.add].
    destruct (Z.eqb_spec (to_int32 (Z.of_nat (length ops))) (Count b)).
    + eexists. split; [reflexivity|]. left. auto.
    + eexists. split; [reflexivity|]. right. split; [assumption|]. eexists; reflexivity.
Qed.

(** ** The properties of the write batch *)

(** The batch built from nothing by the operations, in their order. *)
Definition build (ops : list Op) : t := fold_left apply ops Clear.

(** The round trip of a sequence of operations: [Iterate] hands the
    recording handler the operations and returns OK, and the count field of
    the header is their number. *)
Definition roundtrip (ops : list Op) : Prop :=
  Iterate (build ops) ([] : list Op) = Some (OK, ops) /\
  DecodeFixed32 (skipn 8 (build ops)) = Z.of_nat (length ops).

(** C1, batch round-trip: for every sequence of fewer than 2^32 put and
    delete operations, with keys and values shorter than 2^32 bytes as the
    data model has them, applied to a freshly cleared batch, [Iterate]
    with the recording handler returns OK and has recorded exactly the
    operations, in their order, with their key and value bytes; and the
    count field of the header is the number of operations, which [Count],
    an [int], returns as it is below 2^31. *)
Theorem batch_roundtrip (ops : list Op) :
  Forall fits ops ->
  Z.of_nat (length ops) < 2 ^ 32 ->
  (forall recorded : list Op,
     Iterate (build ops) recorded = Some (OK, recorded ++ ops)) /\
  DecodeFixed32 (skipn 8 (build ops)) = Z.of_nat (length ops) /\
  (Z.of_nat (length ops) < 2 ^ 31 -> Count (build ops) = Z.of_nat (length ops)) /\
  roundtrip ops.
Proof.
  intros Hfits Hn.
  assert (Hit : forall recorded : list Op,
             Iterate (build ops) recorded = Some (OK, recorded ++ ops)).
  { intros recorded. unfold build.
    rewrite Clear_batch, fold_apply_batch by reflexivity. cbn [app Z.add].
    destruct (Iterate_scan
                (batch (repeat Byte.x00 8) (Z.of_nat (length ops))
                   (concat (map record ops)))
                ops None recorded) as (st & E & Hst).
    - rewrite size_batch by reflexivity. unfold kHeader, size. lia.
    - rewrite skipn_12_batch by reflexivity. apply scan_records. assumption.
    - rewrite E, fold_dispatch_Recorder.
      destruct Hst as [[_ ->]|[Hne _]]; [reflexivity|].
      exfalso. apply Hne. rewrite Count_batch by reflexivity.
      unfold to_uint32, to_int32.
      change (2 ^ 31) with 2147483648. change (2 ^ 32) with 4294967296.
      Z.div_mod_to_equations. lia. }
  assert (Hfield : DecodeFixed32 (skipn 8 (build ops)) = Z.of_nat (length ops)).
  { unfold build. rewrite Clear_batch, fold_apply_batch by reflexivity.
    cbn [app Z.add]. rewrite skipn_8_batch by reflexivity.
    rewrite DecodeFixed32_EncodeFixed32. apply Z.mod_small. lia. }
  split; [exact Hit|]. split; [exact Hfield|]. split.
  - intros Hint. unfold build.
    rewrite Clear_batch, fold_apply_batch by reflexivity. cbn [app Z.add].
    rewrite Count_batch by reflexivity.
    unfold to_uint32, to_int32.
    change (2 ^ 31) with 2147483648 in *. change (2 ^ 32) with 4294967296 in *.
    Z.div_mod_to_equations. lia.
  - split; [apply (Hit [])|exact Hfield].
Qed.

(** "k1", "v1" and "k2". *)
Definition key_k1 : Slice := [Byte.x6b; Byte.x31].
Definition value_v1 : Slice := [Byte.x76; Byte.x31].
Definition key_k2 : Slice := [Byte.x6b; Byte.x32].

Lemma batch_roundtrip_witness :
  (forall recorded : list Op,
     Iterate (build [OpPut key_k1 value_v1; OpDelete key_k2]) recorded =
     Some (OK, recorded ++ [OpPut key_k1 value_v1; OpDelete key_k2])) /\
  Count (build [OpPut key_k1 value_v1; OpDelete key_k2]) = 2 /\
  DecodeFixed32 (skipn 8 (build [OpPut key_k1 value_v1; OpDelete key_k2])) = 2.
Proof.
  destruct (batch_roundtrip [OpPut key_k1 value_v1; OpDelete key_k2])
    as (Hit & Hfield & Hcount & _).
  - repeat constructor.
  - reflexivity.
  - split; [exact Hit|]. split; [apply Hcount; reflexivity|exact Hfield].
Defined.

(** The count field of the header has 32 bits, and the number of
    operations is not bounded in the source.  [many] is 2^32. *)
Definition many : nat := Z.to_nat 4294967296.

Lemma many_value : Z.of_nat many = 2 ^ 32.
Proof. unfold many. apply Z2Nat.id. lia. Qed.

(** After 2^32 operations the count field is back at 0. *)
Lemma count_field_wraps (ops : list Op) :
  Z.of_nat (length ops) = 2 ^ 32 -> ~ roundtrip ops.
Proof.
  intros Hlen [_ Hfield]. revert Hfield. unfold build.
  rewrite Clear_batch, fold_apply_batch by reflexivity. cbn [app Z.add].
  rewrite skipn_8_batch by reflexivity.
  rewrite DecodeFixed32_EncodeFixed32, Hlen. discriminate.
Qed.

(** 2^32 deletions of the empty key: the count field of the header is not
    their number. *)
Lemma batch_roundtrip_counterexample :
  ~ roundtrip (repeat (OpDelete []) many).
Proof.
  apply count_field_wraps. rewrite repeat_length. apply many_value.
Qed.






(** ** Runs of [Iterate] *)

(** A new batch: twelve bytes, count 0, sequence 0, no record. *)
Example empty_batch :
  size Clear = 12 /\ Count Clear = 0 /\ Sequence Clear = 0 /\
  Iterate Clear ([] : list Op) = Some (OK, []).
Proof. vm_compute. repeat split. Qed.

(** [put("k1", "v1"); delete("k2"); set_sequence(100)]. *)
Example put_delete :
  let k1 := [Byte.x6b; Byte.x31] in
  let v1 := [Byte.x76; Byte.x31] in
  let k2 := [Byte.x6b; Byte.x32] in
  let b := SetSequence (Delete (Put Clear k1 v1) k2) 100 in
  Count b = 2 /\ Sequence b = 100 /\
  Iterate b ([] : list Op) = Some (OK, [OpPut k1 v1; OpDelete k2]).
Proof. vm_compute. repeat split. Qed.

(** One buffer for each way of being corrupt, and the status [Iterate]
    returns on it. *)
Example corrupt_batches :
  let header n : t := SetCount Clear n in
  let status (b : t) := option_map fst (Iterate b ([] : list Op)) in
  status (repeat Byte.x00 11) = Some (Corruption "malformed WriteBatch (too small)") /\
  status (header 1 ++ [Byte.x02]) = Some (Corruption "unknown WriteBatch tag") /\
  status (header 1 ++ [Byte.x01; Byte.x05; Byte.x61]) =
    Some (Corruption "bad WriteBatch Put") /\
  status (header 1 ++ [Byte.x00; Byte.x80; Byte.x80; Byte.x80; Byte.x80; Byte.x80;
                       Byte.x00]) =
    Some (Corruption "bad WriteBatch Delete") /\
  status (header 0 ++ [Byte.x00; Byte.x00]) =
    Some (Corruption "WriteBatch has wrong count") /\
  status (header 1 ++ [Byte.x00; Byte.x00]) = Some OK.
Proof. vm_compute. repeat split. Qed.

End WriteBatchFacts.

(** * Facts about db/log_writer *)
Module LogFacts.
Import Coding log CodingFacts.

Section AnyFile.
Context {crc : Crc32c} {F : Type} {file : WritableFile F}.

(** The state of the writer between two calls and between two turns of
    the loop: the offset lies in the block. *)
Definition offset_ok (w : Writer F) : Prop :=
  0 <= block_offset_ w <= kBlockSize.

(** The block offset at which the turn writes its header. *)
Definition switched_offset (offset : Z) : Z :=
  if kBlockSize - offset <? kHeaderSize then 0 else offset.

(** The number of payload bytes the turn writes. *)
Definition fragment_length (offset left : Z) : Z :=
  Z.min left (kBlockSize - switched_offset offset - kHeaderSize).

Lemma block_offset_SwitchBlock (w : Writer F) :
  offset_ok w ->
  block_offset_ (SwitchBlock w) = switched_offset (block_offset_ w).
Proof.
  unfold offset_ok, SwitchBlock, switched_offset, kBlockSize, kHeaderSize.
  intros Hw. rewrite to_int32_small by (change (2 ^ 31) with 2147483648; lia).
  destruct (_ <? 7); reflexivity.
Qed.

Lemma block_offset_Emit (w : Writer F) t p len :
  block_offset_ (fst (EmitPhysicalRecord w t p len)) =
  to_int32 (block_offset_ w + (kHeaderSize + len)).
Proof.
  unfold EmitPhysicalRecord.
  destruct (file_Append (dest_ w) _) as [dest st].
  destruct (ok st).
  - destruct (file_Append dest _) as [dest' st'].
    destruct (ok st'); [destruct (file_Flush dest')|]; reflexivity.
  - reflexivity.
Qed.

Lemma body_progress (st : LoopState F) :
  offset_ok (writer st) -> 0 <= left st ->
  let len := fragment_length (block_offset_ (writer st)) (left st) in
  left (AddRecord_body st) = left st - len /\
  ptr (AddRecord_body st) = skipn (Z.to_nat len) (ptr st) /\
  block_offset_ (writer (AddRecord_body st)) =
    switched_offset (block_offset_ (writer st)) + kHeaderSize + len /\
  begin (AddRecord_body st) = false.
Proof.
  intros Hw Hleft len. unfold AddRecord_body.
  rewrite (block_offset_SwitchBlock _ Hw).
  set (off := switched_offset (block_offset_ (writer st))).
  assert (Hoff : 0 <= off <= kBlockSize - kHeaderSize).
  { subst off. unfold switched_offset, offset_ok, kBlockSize, kHeaderSize in *.
    destruct (Z.ltb_spec (32768 - block_offset_ (writer st)) 7); lia. }
  unfold kBlockSize, kHeaderSize in *.
  rewrite (to_int32_small (32768 - off - 7)) by (change (2 ^ 31) with 2147483648; lia).
  rewrite to_size_t_small by (change (2 ^ 64) with 18446744073709551616; lia).
  assert (Hlen : (if left st <? 32768 - off - 7 then left st else 32768 - off - 7) = len).
  { subst len. unfold fragment_length, kBlockSize, kHeaderSize. fold off.
    destruct (Z.ltb_spec (left st) (32768 - off - 7)); lia. }
  rewrite Hlen.
  pose proof (block_offset_Emit (SwitchBlock (writer st))
                (FragmentType (begin st) (left st =? len)) (ptr st) len) as Hemit.
  destruct (EmitPhysicalRecord _ _ _ _) as [w' s']. cbn [fst] in Hemit.
  cbn [left ptr writer begin]. rewrite Hemit.
  rewrite (block_offset_SwitchBlock _ Hw). fold off.
  unfold kHeaderSize.
  assert (0 <= len <= 32768 - off - 7).
  { subst len. unfold fragment_length, kBlockSize, kHeaderSize. fold off. lia. }
  rewrite to_int32_small by (change (2 ^ 31) with 2147483648; lia).
  repeat split; lia.
Qed.

Lemma body_offset_ok (st : LoopState F) :
  offset_ok (writer st) -> 0 <= left st ->
  offset_ok (writer (AddRecord_body st)) /\ 0 <= left (AddRecord_body st).
Proof.
  intros Hw Hleft.
  destruct (body_progress st Hw Hleft) as (Hl & _ & Ho & _).
  unfold offset_ok in *. rewrite Hl, Ho.
  unfold fragment_length, switched_offset, kBlockSize, kHeaderSize in *.
  destruct (Z.ltb_spec (32768 - block_offset_ (writer st)) 7); lia.
Qed.

(** The assertions of [EmitPhysicalRecord] hold at every turn: the
    length fits two bytes and the fragment fits the block. *)
Lemma fragment_fits_block (st : LoopState F) :
  offset_ok (writer st) -> 0 <= left st ->
  let offset := switched_offset (block_offset_ (writer st)) in
  let len := fragment_length (block_offset_ (writer st)) (left st) in
  0 <= len <= 0xffff /\ offset + kHeaderSize + len <= kBlockSize.
Proof.
  unfold offset_ok, fragment_length, switched_offset, kBlockSize, kHeaderSize.
  intros Hw Hleft.
  destruct (Z.ltb_spec (32768 - block_offset_ (writer st)) 7); cbn zeta; lia.
Qed.

(** A turn that leaves payload behind has filled its block: within one
    call only the first turn can begin anywhere else than at the end of a
    block. *)
Lemma body_fills_block (st : LoopState F) :
  offset_ok (writer st) -> 0 <= left st ->
  0 < left (AddRecord_body st) ->
  block_offset_ (writer (AddRecord_body st)) = kBlockSize.
Proof.
  intros Hw Hleft Hmore.
  destruct (body_progress st Hw Hleft) as (Hl & _ & Ho & _).
  rewrite Hl in Hmore. rewrite Ho.
  unfold offset_ok, fragment_length, switched_offset, kBlockSize, kHeaderSize in *.
  destruct (Z.ltb_spec (32768 - block_offset_ (writer st)) 7); lia.
Qed.

(** What is left to do, counted in turns: two for each payload byte, and
    one when the turn at hand has only room for a header. *)
Definition turns (st : LoopState F) : Z :=
  2 * left st +
  (if block_offset_ (writer st) =? kBlockSize - kHeaderSize then 1 else 0).

Lemma AddRecord_loop_total : forall (fuel : nat) (st : LoopState F),
  offset_ok (writer st) -> 0 <= left st ->
  turns st <= Z.of_nat fuel -> (1 <= fuel)%nat ->
  exists w s, AddRecord_loop fuel st = Some (w, s) /\ offset_ok w.
Proof.
  induction fuel as [|fuel IH]; intros st Hw Hleft Hturns Hfuel; [lia|].
  cbn [AddRecord_loop].
  destruct (body_progress st Hw Hleft) as (Hl & _ & Ho & _).
  destruct (body_offset_ok st Hw Hleft) as [Hw' Hleft'].
  destruct (ok (s (AddRecord_body st)) && (0 <? left (AddRecord_body st))) eqn:Hgo.
  - apply andb_true_iff in Hgo. destruct Hgo as [_ Hpos].
    apply Z.ltb_lt in Hpos.
    apply IH; try assumption.
    + unfold turns in *. rewrite Ho, Hl in *.
      unfold fragment_length, switched_offset, kBlockSize, kHeaderSize in *.
      repeat match goal with
             | |- context [?a <? ?b] => destruct (Z.ltb_spec a b)
             | |- context [?a =? ?b] => destruct (Z.eqb_spec a b)
             | H : context [?a =? ?b] |- _ => destruct (Z.eqb_spec a b)
             end; lia.
    + unfold turns in *. rewrite Hl in *.
      unfold fragment_length, switched_offset, kBlockSize, kHeaderSize in *.
      repeat match goal with
             | H : context [?a <? ?b] |- _ => destruct (Z.ltb_spec a b)
             | H : context [?a =? ?b] |- _ => destruct (Z.eqb_spec a b)
             end; lia.
  - eexists _, _. split; [reflexivity|assumption].
Qed.

(** [AddRecord] returns: the fuel it hands to its loop is enough. *)
Lemma AddRecord_total (w : Writer F) (slice : Slice) :
  offset_ok w ->
  exists w' s, AddRecord w slice = Some (w', s) /\ offset_ok w'.
Proof.
  intros Hw. unfold AddRecord. apply AddRecord_loop_total; cbn [writer left].
  - assumption.
  - unfold size. lia.
  - unfold turns, size. cbn [writer left]. destruct (_ =? _); lia.
  - lia.
Qed.

End AnyFile.

(** ** The writer on a file that keeps what it receives *)

Section OnMemFile.
Context {crc : Crc32c}.

(** The seven header bytes of a fragment of type [t] with the payload
    [payload]. *)
Definition fragment_header (t : RecordType) (payload : list byte) : list byte :=
  EncodeFixed32 (crc32c_Mask (to_uint32 (crc32c_Extend (type_crc_ t) payload))) ++
  [byte.of_Z (Z.land (size payload) 0xff);
   byte.of_Z (Z.shiftr (size payload) 8);
   byte.of_Z (RecordType_value t)].

(** The fields of a header: the little-endian length in bytes 4 and 5,
    the type in byte 6. *)
Definition header_length (header : list byte) : Z :=
  le_combine (firstn 2 (skipn 4 header)).

Definition header_type (header : list byte) : Z :=
  byte.unsigned (nth 6 header Byte.x00).

(** The calls one fragment makes on the file. *)
Definition fragment (t : RecordType) (payload : list byte) : MemFile :=
  [EvAppend (fragment_header t payload); EvAppend payload; EvFlush].

(** The trailer written when fewer than [kHeaderSize] bytes are left. *)
Definition trailer (offset : Z) : MemFile :=
  let leftover := kBlockSize - offset in
  if (leftover <? kHeaderSize) && (0 <? leftover)
  then [EvAppend (repeat Byte.x00 (Z.to_nat leftover))]
  else [].

Lemma length_fragment_header t payload : length (fragment_header t payload) = 7%nat.
Proof.
  unfold fragment_header. rewrite length_app.
  unfold EncodeFixed32. rewrite length_le_split. reflexivity.
Qed.

Lemma header_fields t payload :
  size payload <= 65535 ->
  header_length (fragment_header t payload) = size payload /\
  header_type (fragment_header t payload) = RecordType_value t.
Proof.
  intros Hs. unfold header_length, header_type, fragment_header, EncodeFixed32.
  set (c := to_uint32 _).
  assert (Hl : length (le_split 4 c) = 4%nat) by apply length_le_split.
  destruct (le_split 4 c) as [|b0 [|b1 [|b2 [|b3 [|? ?]]]]]; try discriminate.
  cbn [app skipn firstn nth le_combine].
  assert (0 <= size payload) by (unfold size; lia).
  split.
  - unfold le_combine. rewrite !byte.unsigned_of_Z. unfold byte.wrap.
    rewrite Z.shiftl_0_l, Z.lor_0_r.
    change 255 with (Z.ones 8). rewrite Z.land_ones by lia.
    rewrite Z.shiftr_div_pow2 by lia. rewrite Z.mod_mod by lia.
    rewrite Z.shiftl_mul_pow2 by lia.
    rewrite <- Z.shiftl_mul_pow2 by lia.
    rewrite lor_shiftl_add; [|lia|apply Z.mod_pos_bound; lia].
    change (2 ^ 8) with 256. Z.div_mod_to_equations. lia.
  - rewrite byte.unsigned_of_Z. unfold byte.wrap.
    destruct t; reflexivity.
Qed.

Lemma Emit_MemFile (w : Writer MemFile) t p len :
  EmitPhysicalRecord w t p len =
  ({| dest_ := dest_ w ++
               [EvAppend
                  (EncodeFixed32
                     (crc32c_Mask
                        (to_uint32 (crc32c_Extend (type_crc_ t) (firstn (Z.to_nat len) p)))) ++
                   [byte.of_Z (Z.land len 0xff); byte.of_Z (Z.shiftr len 8);
                    byte.of_Z (RecordType_value t)]);
                EvAppend (firstn (Z.to_nat len) p); EvFlush];
      block_offset_ := to_int32 (block_offset_ w + (kHeaderSize + len)) |}, OK).
Proof.
  unfold EmitPhysicalRecord. cbn [file_Append file_Flush MemFile_WritableFile ok].
  rewrite <- !app_assoc. reflexivity.
Qed.

Lemma dest_SwitchBlock (w : Writer MemFile) :
  offset_ok w ->
  dest_ (SwitchBlock w) = dest_ w ++ trailer (block_offset_ w).
Proof.
  unfold offset_ok, SwitchBlock, trailer, kBlockSize, kHeaderSize.
  intros Hw. rewrite to_int32_small by (change (2 ^ 31) with 2147483648; lia).
  destruct (Z.ltb_spec (32768 - block_offset_ w) 7) as [Hlt|Hge]; cbn [andb].
  - destruct (Z.ltb_spec 0 (32768 - block_offset_ w)) as [Hpos|Hzero];
      cbn [dest_ file_Append MemFile_WritableFile fst].
    + do 3 f_equal.
      set (n := Z.to_nat (32768 - block_offset_ w)).
      assert (Hn : (n <= 6)%nat) by lia.
      clearbody n. do 7 (destruct n as [|n]; [reflexivity|]). lia.
    + rewrite app_nil_r. reflexivity.
  - rewrite app_nil_r. reflexivity.
Qed.

(** One turn of the loop: the trailer if there is one, then the fragment. *)
Lemma body_MemFile (st : LoopState MemFile) :
  offset_ok (writer st) -> left st = size (ptr st) ->
  let offset := block_offset_ (writer st) in
  let len := fragment_length offset (left st) in
  let payload := firstn (Z.to_nat len) (ptr st) in
  AddRecord_body st =
  {| writer :=
       {| dest_ := dest_ (writer st) ++ trailer offset ++
                   fragment (FragmentType (begin st) (left st =? len)) payload;
          block_offset_ := switched_offset offset + kHeaderSize + len |};
     ptr := skipn (Z.to_nat len) (ptr st);
     left := left st - len;
     begin := false;
     s := OK |}.
Proof.
  intros Hw Hleft offset len payload.
  assert (Hleft0 : 0 <= left st) by (rewrite Hleft; unfold size; lia).
  destruct (body_progress st Hw Hleft0) as (Hl & Hp & Ho & Hb).
  fold offset in Hl, Hp, Ho. fold len in Hl, Hp, Ho.
  assert (Hlen : 0 <= len <= size (ptr st)).
  { subst len offset. unfold fragment_length, switched_offset, offset_ok,
      kBlockSize, kHeaderSize in *.
    destruct (Z.ltb_spec (32768 - block_offset_ (writer st)) 7); lia. }
  assert (Hdest : dest_ (writer (AddRecord_body st)) =
                  dest_ (writer st) ++ trailer offset ++
                  fragment (FragmentType (begin st) (left st =? len)) payload
                  /\ s (AddRecord_body st) = OK).
  { unfold AddRecord_body.
    rewrite (block_offset_SwitchBlock _ Hw). fold offset.
    assert (Hoff : 0 <= switched_offset offset <= kBlockSize - kHeaderSize).
    { subst offset. unfold switched_offset, offset_ok, kBlockSize, kHeaderSize in *.
      destruct (Z.ltb_spec (32768 - block_offset_ (writer st)) 7); lia. }
    unfold kBlockSize, kHeaderSize in Hoff.
    replace (to_size_t (to_int32 (kBlockSize - switched_offset offset - kHeaderSize)))
      with (kBlockSize - switched_offset offset - kHeaderSize).
    2:{ unfold kBlockSize, kHeaderSize.
        rewrite to_int32_small by (change (2 ^ 31) with 2147483648; lia).
        rewrite to_size_t_small by (change (2 ^ 64) with 18446744073709551616; lia).
        reflexivity. }
    replace (if left st <? kBlockSize - switched_offset offset - kHeaderSize
             then left st else kBlockSize - switched_offset offset - kHeaderSize)
      with len.
    2:{ subst len. unfold fragment_length.
        destruct (Z.ltb_spec (left st) (kBlockSize - switched_offset offset - kHeaderSize)); lia. }
    rewrite Emit_MemFile. cbn [writer s dest_].
    rewrite (dest_SwitchBlock _ Hw). fold offset.
    split; [|reflexivity].
    rewrite <- app_assoc. unfold fragment, fragment_header. fold payload.
    subst payload. rewrite size_firstn by assumption. reflexivity. }
  destruct Hdest as [Hdest Hs].
  destruct (AddRecord_body st) as [[d o] p l b s0].
  cbn [writer dest_ block_offset_ ptr left begin s] in *.
  subst. reflexivity.
Qed.

Lemma contents_app (f g : MemFile) : contents (f ++ g) = contents f ++ contents g.
Proof.
  induction f as [|[data|] f IH]; cbn [app contents].
  - reflexivity.
  - rewrite IH, app_assoc. reflexivity.
  - exact IH.
Qed.

Lemma size_contents_fragment t payload :
  size (contents (fragment t payload)) = kHeaderSize + size payload.
Proof.
  unfold fragment, size. cbn [contents].
  rewrite !length_app, length_fragment_header. cbn [length]. unfold kHeaderSize. lia.
Qed.

Lemma size_contents_trailer offset :
  0 <= kBlockSize - offset < kHeaderSize ->
  size (contents (trailer offset)) = kBlockSize - offset /\
  contents (trailer offset) = repeat Byte.x00 (Z.to_nat (kBlockSize - offset)).
Proof.
  unfold trailer, size. intros Hl.
  destruct (Z.ltb_spec (kBlockSize - offset) kHeaderSize); [|lia]. cbn [andb].
  destruct (Z.ltb_spec 0 (kBlockSize - offset)); cbn [contents].
  - rewrite app_nil_r, repeat_length. split; [lia|reflexivity].
  - replace (kBlockSize - offset) with 0 by lia. split; reflexivity.
Qed.

Lemma SwitchBlock_MemFile (w : Writer MemFile) :
  offset_ok w ->
  SwitchBlock w =
  {| dest_ := dest_ w ++ trailer (block_offset_ w);
     block_offset_ := switched_offset (block_offset_ w) |}.
Proof.
  intros Hw.
  pose proof (dest_SwitchBlock w Hw) as Hd.
  pose proof (block_offset_SwitchBlock w Hw) as Ho.
  destruct (SwitchBlock w) as [d o]. cbn [dest_ block_offset_] in *. subst. reflexivity.
Qed.

(** A turn sees the writer only through [SwitchBlock]. *)
Lemma body_SwitchBlock (st : LoopState MemFile) :
  offset_ok (writer st) ->
  AddRecord_body st =
  AddRecord_body {| writer := SwitchBlock (writer st); ptr := ptr st;
                    left := left st; begin := begin st; s := s st |}.
Proof.
  intros Hw. unfold AddRecord_body. cbn [writer ptr left begin s].
  assert (E : SwitchBlock (SwitchBlock (writer st)) = SwitchBlock (writer st)).
  { rewrite (SwitchBlock_MemFile _ Hw).
    unfold SwitchBlock at 1. cbn [block_offset_ dest_].
    unfold switched_offset, offset_ok, kBlockSize, kHeaderSize in *.
    destruct (Z.ltb_spec (32768 - block_offset_ (writer st)) 7).
    - reflexivity.
    - rewrite to_int32_small by (change (2 ^ 31) with 2147483648; lia).
      destruct (Z.ltb_spec (32768 - block_offset_ (writer st)) 7); [lia|reflexivity]. }
  rewrite E. reflexivity.
Qed.

(** The file position and [block_offset_] agree modulo the block size;
    the constructors set the writer up this way and every turn keeps
    it. *)
Definition aligned (w : Writer MemFile) : Prop :=
  size (contents (dest_ w)) mod kBlockSize = block_offset_ w mod kBlockSize.

Lemma aligned_body (st : LoopState MemFile) :
  offset_ok (writer st) -> left st = size (ptr st) -> aligned (writer st) ->
  aligned (writer (AddRecord_body st)).
Proof.
  intros Hw Hleft Ha. rewrite (body_MemFile st Hw Hleft). cbn [writer].
  unfold aligned in *. cbn [dest_ block_offset_].
  set (offset := block_offset_ (writer st)) in *.
  set (len := fragment_length offset (left st)).
  assert (Hlen : 0 <= len <= size (ptr st)).
  { subst len offset. unfold fragment_length, switched_offset, offset_ok,
      kBlockSize, kHeaderSize in *.
    assert (0 <= size (ptr st)) by (unfold size; lia).
    destruct (Z.ltb_spec (32768 - block_offset_ (writer st)) 7); lia. }
  rewrite !contents_app, !size_app, size_contents_fragment, size_firstn by assumption.
  unfold switched_offset.
  destruct (Z.ltb_spec (kBlockSize - offset) kHeaderSize) as [Hlt|Hge].
  - destruct (size_contents_trailer offset) as [Ht _].
    { unfold offset_ok in Hw. fold offset in Hw. lia. }
    rewrite Ht.
    unfold kBlockSize, kHeaderSize in *.
    Z.div_mod_to_equations. lia.
  - unfold trailer. destruct (Z.ltb_spec (kBlockSize - offset) kHeaderSize); [lia|].
    cbn [andb contents]. change (size []) with 0. unfold kBlockSize, kHeaderSize in *.
    Z.div_mod_to_equations. lia.
Qed.

(** ** The writers and the turns of a program *)

(** The writers a program holds: one made on an empty file, or on a file
    with the length of that file, and then used for any records. *)
Inductive reachable : Writer MemFile -> Prop :=
| reachable_new : reachable (Writer_new [])
| reachable_resume dest : reachable (Writer_resume dest (size (contents dest)))
| reachable_AddRecord w slice w' status :
    reachable w -> AddRecord w slice = Some (w', status) -> reachable w'.

(** The states in which a turn of the loop of [AddRecord] begins: the
    first turn of a call, and the turn after one that left the loop
    running. *)
Inductive turn : LoopState MemFile -> Prop :=
| turn_first w slice :
    reachable w ->
    turn {| writer := w; ptr := slice; left := size slice; begin := true; s := OK |}
| turn_next st :
    turn st ->
    ok (s (AddRecord_body st)) && (0 <? left (AddRecord_body st)) = true ->
    turn (AddRecord_body st).

Definition writer_inv (w : Writer MemFile) : Prop := offset_ok w /\ aligned w.

Definition turn_inv (st : LoopState MemFile) : Prop :=
  writer_inv (writer st) /\ left st = size (ptr st).

Lemma size_skipn (len : Z) (p : list byte) :
  0 <= len <= size p -> size (skipn (Z.to_nat len) p) = size p - len.
Proof. unfold size. intros. rewrite length_skipn. lia. Qed.

Lemma fragment_length_bounds (offset left : Z) :
  0 <= offset <= kBlockSize -> 0 <= left ->
  0 <= fragment_length offset left <= left.
Proof.
  unfold fragment_length, switched_offset, kBlockSize, kHeaderSize.
  intros Ho Hl. destruct (Z.ltb_spec (32768 - offset) 7); lia.
Qed.

Lemma turn_inv_body (st : LoopState MemFile) :
  turn_inv st -> turn_inv (AddRecord_body st).
Proof.
  intros [[Hw Ha] Hleft].
  assert (Hleft0 : 0 <= left st) by (rewrite Hleft; unfold size; lia).
  destruct (body_progress st Hw Hleft0) as (Hl & Hp & _ & _).
  destruct (body_offset_ok st Hw Hleft0) as [Hw' _].
  split; [split|].
  - exact Hw'.
  - apply aligned_body; assumption.
  - rewrite Hl, Hp.
    pose proof (fragment_length_bounds _ _ Hw Hleft0) as Hlen.
    rewrite size_skipn by (rewrite <- Hleft; exact Hlen).
    rewrite Hleft. reflexivity.
Qed.

Lemma writer_inv_loop : forall (fuel : nat) (st : LoopState MemFile) w status,
  turn_inv st -> AddRecord_loop fuel st = Some (w, status) -> writer_inv w.
Proof.
  induction fuel as [|fuel IH]; intros st w status Hst Hrun; [discriminate|].
  cbn [AddRecord_loop] in Hrun.
  pose proof (turn_inv_body st Hst) as Hst'.
  destruct (ok (s (AddRecord_body st)) && (0 <? left (AddRecord_body st))).
  - exact (IH _ _ _ Hst' Hrun).
  - assert (E : writer (AddRecord_body st) = w) by congruence.
    rewrite <- E. exact (proj1 Hst').
Qed.

Lemma reachable_inv (w : Writer MemFile) : reachable w -> writer_inv w.
Proof.
  induction 1 as [|dest|w slice w' status _ IH Hrun].
  - split; [unfold offset_ok, kBlockSize; cbn; lia|reflexivity].
  - assert (Hmod : 0 <= size (contents dest) mod kBlockSize < kBlockSize)
      by (apply Z.mod_pos_bound; reflexivity).
    unfold Writer_resume, writer_inv, offset_ok, aligned. cbn [block_offset_ dest_].
    rewrite to_int32_small by (unfold kBlockSize in *; lia).
    split; [lia|]. rewrite Z.mod_mod by (unfold kBlockSize; lia). reflexivity.
  - unfold AddRecord in Hrun.
    apply (writer_inv_loop (S (2 * length slice))
             {| writer := w; ptr := slice; left := size slice; begin := true; s := OK |}
             w' status); [|exact Hrun].
    split; [exact IH|reflexivity].
Qed.

Lemma turn_turn_inv (st : LoopState MemFile) : turn st -> turn_inv st.
Proof.
  induction 1 as [w slice Hw|st _ IH _].
  - split; [apply reachable_inv; assumption|reflexivity].
  - apply turn_inv_body. assumption.
Qed.

(** ** Whole calls *)

(** The payload bytes of a block that holds one fragment and nothing
    else. *)
Definition full : Z := kBlockSize - kHeaderSize.

(** The room for payload in the block the writer is in, once it has
    switched blocks if it had to. *)
Definition room (w : Writer MemFile) : Z :=
  kBlockSize - switched_offset (block_offset_ w) - kHeaderSize.

(** The fragments after the first: MIDDLE fragments that fill their
    block, and a LAST fragment that is not empty. *)
Inductive later_fragments : list (RecordType * list byte) -> Prop :=
| later_last p :
    0 < size p <= full -> later_fragments [(kLastType, p)]
| later_middle p frs :
    size p = full -> later_fragments frs ->
    later_fragments ((kMiddleType, p) :: frs).

(** The fragments of the record [slice] written where [n] bytes of
    payload fit the block: one FULL fragment when the record fits, and
    otherwise a FIRST fragment of [n] bytes and the later fragments. *)
Definition record_fragments (n : Z) (slice : Slice)
    (frs : list (RecordType * list byte)) : Prop :=
  concat (map snd frs) = slice /\
  ((size slice <= n /\ frs = [(kFullType, slice)]) \/
   (n < size slice /\
    exists p rest, frs = (kFirstType, p) :: rest /\ size p = n /\
                   later_fragments rest)).

Definition emit (frs : list (RecordType * list byte)) : MemFile :=
  flat_map (fun f => fragment (fst f) (snd f)) frs.

Lemma offset_ok_full (w : Writer MemFile) :
  block_offset_ w = kBlockSize -> offset_ok w.
Proof. unfold offset_ok, kBlockSize. lia. Qed.

(** The turns after the first begin at the end of a block. *)
Lemma loop_later : forall (fuel : nat) (st : LoopState MemFile),
  block_offset_ (writer st) = kBlockSize ->
  begin st = false ->
  left st = size (ptr st) ->
  0 < left st <= Z.of_nat fuel ->
  exists frs w',
    AddRecord_loop fuel st = Some (w', OK) /\
    dest_ w' = dest_ (writer st) ++ emit frs /\
    concat (map snd frs) = ptr st /\
    later_fragments frs /\
    offset_ok w'.
Proof.
  induction fuel as [|fuel IH]; intros st Hbo Hbegin Hleft Hfuel; [lia|].
  cbn [AddRecord_loop].
  rewrite (body_MemFile st (offset_ok_full _ Hbo) Hleft).
  cbn [writer ptr left begin s ok andb]. rewrite Hbo, Hbegin.
  change (switched_offset kBlockSize) with 0.
  change (trailer kBlockSize) with ([] : MemFile).
  change (fragment_length kBlockSize (left st)) with (Z.min (left st) full).
  cbn [app].
  destruct (Z.le_gt_cases (left st) full) as [Hfit|Hmore].
  - (* the last fragment *)
    rewrite Z.min_l by assumption.
    rewrite Z.sub_diag, Z.eqb_refl. change (0 <? 0) with false.
    assert (Hall : firstn (Z.to_nat (left st)) (ptr st) = ptr st).
    { apply firstn_all2. unfold size in Hleft. lia. }
    rewrite Hall.
    exists [(kLastType, ptr st)]. eexists. split; [reflexivity|].
    cbn [dest_ block_offset_ emit flat_map fst snd map concat].
    rewrite !app_nil_r. split; [reflexivity|]. split; [reflexivity|]. split.
    + constructor. lia.
    + unfold offset_ok, full, kBlockSize, kHeaderSize in *. cbn [block_offset_]. lia.
  - (* a fragment in the middle *)
    rewrite Z.min_r by lia.
    destruct (Z.eqb_spec (left st) full) as [E|_]; [lia|].
    destruct (Z.ltb_spec 0 (left st - full)) as [_|Hno]; [|lia].
    cbn [FragmentType andb].
    match goal with |- context [AddRecord_loop fuel ?x] => set (st1 := x) end.
    assert (Hfull : 0 <= full <= size (ptr st)).
    { unfold full, kBlockSize, kHeaderSize in *. lia. }
    destruct (IH st1) as (frs & w' & E & Hd & Hc & Hl & Hw').
    + subst st1. cbn [writer block_offset_]. reflexivity.
    + reflexivity.
    + subst st1. cbn [left ptr]. rewrite size_skipn by assumption. lia.
    + subst st1. cbn [left]. unfold full, kBlockSize, kHeaderSize in *. lia.
    + exists ((kMiddleType, firstn (Z.to_nat full) (ptr st)) :: frs), w'.
      split; [exact E|]. subst st1. cbn [writer dest_ ptr] in *.
      split; [|split; [|split]].
      * rewrite Hd. cbn [emit flat_map fst snd]. rewrite <- !app_assoc. reflexivity.
      * cbn [map concat snd]. rewrite Hc. apply firstn_skipn.
      * constructor; [|assumption]. apply size_firstn. assumption.
      * assumption.
Qed.

Lemma room_nonneg (w : Writer MemFile) : offset_ok w -> 0 <= room w.
Proof.
  unfold offset_ok, room, switched_offset, kBlockSize, kHeaderSize.
  intros Hw. destruct (Z.ltb_spec (32768 - block_offset_ w) 7); lia.
Qed.

Lemma AddRecord_MemFile (w : Writer MemFile) (slice : Slice) :
  offset_ok w ->
  exists frs w',
    AddRecord w slice = Some (w', OK) /\
    dest_ w' = dest_ w ++ trailer (block_offset_ w) ++ emit frs /\
    record_fragments (room w) slice frs /\
    offset_ok w' /\
    (size slice <= room w ->
     block_offset_ w' = switched_offset (block_offset_ w) + kHeaderSize + size slice).
Proof.
  intros Hw. pose proof (room_nonneg w Hw) as Hroom.
  unfold AddRecord. cbn [AddRecord_loop].
  match goal with |- context [AddRecord_body ?x] => set (st0 := x) end.
  rewrite (body_MemFile st0 Hw eq_refl). subst st0.
  cbn [writer ptr left begin s ok andb].
  change (fragment_length (block_offset_ w) (size slice))
    with (Z.min (size slice) (room w)).
  destruct (Z.le_gt_cases (size slice) (room w)) as [Hfit|Hmore].
  - (* one fragment *)
    rewrite Z.min_l by assumption.
    rewrite Z.sub_diag, Z.eqb_refl. change (0 <? 0) with false.
    rewrite firstn_all2 by (unfold size; lia).
    exists [(kFullType, slice)]. eexists. split; [reflexivity|].
    cbn [dest_ block_offset_ emit flat_map fst snd map concat FragmentType andb].
    rewrite !app_nil_r. split; [reflexivity|]. split; [|split].
    + split; [cbn [map concat snd]; apply app_nil_r|]. left. auto.
    + unfold offset_ok, room in *. cbn [block_offset_].
      assert (0 <= size slice) by (unfold size; lia).
      unfold switched_offset, kBlockSize, kHeaderSize in *.
      destruct (Z.ltb_spec (32768 - block_offset_ w) 7); lia.
    + reflexivity.
  - (* a first fragment and more *)
    rewrite Z.min_r by lia.
    destruct (Z.eqb_spec (size slice) (room w)) as [E|_]; [lia|].
    destruct (Z.ltb_spec 0 (size slice - room w)) as [_|Hno]; [|lia].
    cbn [FragmentType andb].
    match goal with |- context [AddRecord_loop _ ?x] => set (st1 := x) end.
    destruct (loop_later (2 * length slice) st1) as (frs & w' & E & Hd & Hc & Hl & Hw').
    + subst st1. cbn [writer block_offset_]. unfold room. lia.
    + reflexivity.
    + subst st1. cbn [left ptr]. rewrite size_skipn by lia. reflexivity.
    + subst st1. cbn [left]. unfold size in *. lia.
    + exists ((kFirstType, firstn (Z.to_nat (room w)) slice) :: frs), w'.
      split; [exact E|]. subst st1. cbn [writer dest_ ptr] in *.
      split; [|split; [|split]].
      * rewrite Hd. cbn [emit flat_map fst snd]. rewrite <- !app_assoc. reflexivity.
      * split.
        -- cbn [map concat snd]. rewrite Hc. apply firstn_skipn.
        -- right. split; [assumption|]. eexists _, frs. split; [reflexivity|].
           split; [|assumption]. apply size_firstn. lia.
      * assumption.
      * lia.
Qed.

(** The states a call [AddRecord w slice] passes through: the one its
    loop begins in, and the one after each turn that leaves the loop
    running. *)
Inductive reaches (w : Writer MemFile) (slice : Slice) : LoopState MemFile -> Prop :=
| reaches_first :
    reaches w slice
      {| writer := w; ptr := slice; left := size slice; begin := true; s := OK |}
| reaches_next st :
    reaches w slice st ->
    ok (s (AddRecord_body st)) && (0 <? left (AddRecord_body st)) = true ->
    reaches w slice (AddRecord_body st).

Lemma reaches_turn w slice st : reachable w -> reaches w slice st -> turn st.
Proof.
  intros Hw. induction 1 as [|st _ IH Hgo].
  - apply turn_first. assumption.
  - apply turn_next; assumption.
Qed.

(** Within a call, every turn but the first begins at the end of a
    block. *)
Lemma reaches_later w slice st :
  reachable w -> reaches w slice st ->
  st = {| writer := w; ptr := slice; left := size slice; begin := true; s := OK |} \/
  block_offset_ (writer st) = kBlockSize.
Proof.
  intros Hw Hst. destruct Hst as [|st Hst Hgo]; [left; reflexivity|right].
  destruct (turn_turn_inv st (reaches_turn w slice st Hw Hst)) as [[Ho _] Hleft].
  apply andb_true_iff in Hgo. destruct Hgo as [_ Hpos]. apply Z.ltb_lt in Hpos.
  apply body_fills_block; try assumption.
  rewrite Hleft. unfold size. lia.
Qed.

(** ** The properties of the log writer *)

(** C4, fragmentation: a single record of 40,000 bytes written by
    [AddRecord] to a writer at block offset 0 goes out as exactly two
    fragments: a FIRST fragment with length field 32,761 that fills the
    first block of 32,768 bytes, then a LAST fragment with length field
    7,239 that starts at file offset 32,768; in all
    7 + 32761 + 7 + 7239 bytes. *)
Theorem fragmentation_40000 (payload : Slice) :
  size payload = 40000 ->
  let first := firstn (Z.to_nat 32761) payload in
  let last := skipn (Z.to_nat 32761) payload in
  AddRecord (Writer_new ([] : MemFile)) payload =
    Some ({| dest_ := fragment kFirstType first ++ fragment kLastType last;
             block_offset_ := 7246 |}, OK) /\
  header_type (fragment_header kFirstType first) = 2 /\
  header_length (fragment_header kFirstType first) = 32761 /\
  header_type (fragment_header kLastType last) = 4 /\
  header_length (fragment_header kLastType last) = 7239 /\
  size (contents (fragment kFirstType first)) = 32768 /\
  size (contents (fragment kFirstType first ++ fragment kLastType last)) =
    7 + 32761 + 7 + 7239.
Proof.
  intros Hsize first last.
  assert (Hfirst : size first = 32761).
  { subst first. apply size_firstn. lia. }
  assert (Hlast : size last = 7239).
  { subst last. unfold size in *. rewrite length_skipn. lia. }
  destruct (header_fields kFirstType first ltac:(lia)) as [Hlen1 Hty1].
  destruct (header_fields kLastType last ltac:(lia)) as [Hlen2 Hty2].
  rewrite Hlen1, Hlen2, Hty1, Hty2, Hfirst, Hlast.
  rewrite contents_app, size_app, !size_contents_fragment, Hfirst, Hlast.
  split; [|repeat split].
  unfold AddRecord, Writer_new.
    cbn [AddRecord_loop].
    set (st0 := {| writer := {| dest_ := ([] : MemFile); block_offset_ := 0 |};
                   ptr := payload; left := size payload; begin := true; s := OK |}).
    assert (Hw0 : offset_ok (writer st0)) by (cbn; unfold offset_ok, kBlockSize; cbn; lia).
    rewrite (body_MemFile st0 Hw0 eq_refl). subst st0.
    cbn [writer ptr left begin s dest_ block_offset_ ok andb].
    rewrite Hsize.
    change (fragment_length 0 40000) with 32761.
    change (switched_offset 0) with 0. change (trailer 0) with ([] : MemFile).
    change (40000 =? 32761) with false. change (0 <? 40000 - 32761) with true.
    cbn [app FragmentType andb]. fold first. fold last.
    destruct (2 * length payload)%nat as [|fuel] eqn:Hfuel.
    { unfold size in Hsize. lia. }
    cbn [AddRecord_loop].
    match goal with |- context [AddRecord_body ?x] => set (st1 := x) end.
    assert (Hw1 : offset_ok (writer st1)) by (cbn; unfold offset_ok, kBlockSize; cbn; lia).
    assert (Hl1 : left st1 = size (ptr st1)) by (subst st1; cbn [left ptr]; lia).
    rewrite (body_MemFile st1 Hw1 Hl1). subst st1.
    cbn [writer ptr left begin s dest_ block_offset_ ok andb].
    change (fragment_length (0 + kHeaderSize + 32761) (40000 - 32761)) with 7239.
    change (switched_offset (0 + kHeaderSize + 32761)) with 0.
    change (trailer (0 + kHeaderSize + 32761)) with ([] : MemFile).
    change (40000 - 32761 =? 7239) with true.
    change (0 <? 40000 - 32761 - 7239) with false.
    cbn [app FragmentType andb].
    replace (firstn (Z.to_nat 7239) last) with last.
  2:{ symmetry. apply firstn_all2. unfold size in Hlast. lia. }
  reflexivity.
Qed.

(** C7, block padding: whenever a turn of [AddRecord] begins with fewer
    than 7 bytes left in the current block, it writes exactly that many
    zero bytes to the file, and the header of the fragment that follows
    starts a new block at offset 0, at a file position that is a
    multiple of 32,768. *)
Theorem block_padding (st : LoopState MemFile) :
  turn st ->
  let leftover := kBlockSize - block_offset_ (writer st) in
  leftover < kHeaderSize ->
  let zeros : MemFile :=
    if 0 <? leftover then [EvAppend (repeat Byte.x00 (Z.to_nat leftover))] else [] in
  0 <= leftover /\
  (exists t payload,
     dest_ (writer (AddRecord_body st)) =
       dest_ (writer st) ++ zeros ++ fragment t payload /\
     block_offset_ (writer (AddRecord_body st)) = 0 + kHeaderSize + size payload) /\
  contents zeros = repeat Byte.x00 (Z.to_nat leftover) /\
  size (contents (dest_ (writer st) ++ zeros)) mod kBlockSize = 0.
Proof.
  intros Hturn leftover Hlt zeros.
  destruct (turn_turn_inv st Hturn) as [[Hw Ha] Hsize].
  assert (Hleft : 0 <= leftover < kHeaderSize).
  { unfold offset_ok in Hw. subst leftover. lia. }
  assert (Hz : zeros = trailer (block_offset_ (writer st))).
  { subst zeros. unfold trailer. fold leftover.
    destruct (Z.ltb_spec leftover kHeaderSize); [|lia]. reflexivity. }
  assert (Hs : switched_offset (block_offset_ (writer st)) = 0).
  { unfold switched_offset. fold leftover.
    destruct (Z.ltb_spec leftover kHeaderSize); [reflexivity|lia]. }
  destruct (size_contents_trailer (block_offset_ (writer st)) Hleft) as [Hts Htc].
  split; [lia|]. split; [|split].
  - rewrite (body_MemFile st Hw Hsize). cbn [writer dest_ block_offset_].
    rewrite Hs, <- Hz. eexists _, _. split; [reflexivity|].
    rewrite size_firstn; [reflexivity|].
    unfold fragment_length. rewrite Hs, <- Hsize.
    assert (0 <= left st) by (rewrite Hsize; unfold size; lia).
    unfold kBlockSize, kHeaderSize. lia.
  - rewrite Hz. exact Htc.
  - rewrite contents_app, size_app, Hz, Hts.
    unfold aligned in Ha. subst leftover.
    unfold kBlockSize, kHeaderSize in *. Z.div_mod_to_equations. lia.
Qed.

(** C10, fragments without payload: a call of [AddRecord] that comes to
    a turn at block offset [kBlockSize - 7] with payload bytes still to
    write is at its first turn, and the call writes a fragment of type
    FIRST whose length field is 0 and which takes only the 7 header
    bytes; that fragment ends its block, and the whole payload follows
    in the next blocks, in MIDDLE fragments that fill a block each and a
    LAST fragment.  So a fragment that is not FULL and carries nothing
    stands inside the record. *)
Theorem zero_length_fragment (w : Writer MemFile) (slice : Slice)
    (st : LoopState MemFile) :
  reachable w ->
  reaches w slice st ->
  block_offset_ (writer st) = kBlockSize - kHeaderSize ->
  0 < left st ->
  st = {| writer := w; ptr := slice; left := size slice; begin := true; s := OK |} /\
  exists frs w',
    AddRecord w slice = Some (w', OK) /\
    dest_ w' = dest_ w ++ fragment kFirstType [] ++ emit frs /\
    header_length (fragment_header kFirstType []) = 0 /\
    header_type (fragment_header kFirstType []) = RecordType_value kFirstType /\
    size (contents (fragment kFirstType [])) = kHeaderSize /\
    size (contents (dest_ w ++ fragment kFirstType [])) mod kBlockSize = 0 /\
    concat (map snd frs) = slice /\
    later_fragments frs.
Proof.
  intros Hw Hst Hoff Hleft.
  destruct (reaches_later w slice st Hw Hst) as [E|Hfull].
  2:{ rewrite Hfull in Hoff. discriminate Hoff. }
  split; [exact E|]. subst st. cbn [writer left] in Hoff, Hleft.
  destruct (reachable_inv w Hw) as [Ho Ha].
  destruct (AddRecord_MemFile w slice Ho) as (frs0 & w' & Erun & Hd & [Hc Hf] & _).
  assert (Hroom : room w = 0).
  { unfold room. rewrite Hoff. reflexivity. }
  rewrite Hroom in Hf. rewrite Hoff in Hd.
  change (trailer (kBlockSize - kHeaderSize)) with ([] : MemFile) in Hd.
  cbn [app] in Hd.
  destruct Hf as [[Hno _]|(_ & p & rest & -> & Hp & Hrest)]; [lia|].
  assert (Ep : p = []).
  { destruct p; [reflexivity|]. unfold size in Hp. cbn [length] in Hp. lia. }
  subst p. cbn [map concat snd app] in Hc.
  cbn [emit flat_map fst snd] in Hd. fold (emit rest) in Hd.
  destruct (header_fields kFirstType []) as [Hlen Hty]; [cbn; lia|].
  exists rest, w'.
  split; [exact Erun|]. split; [exact Hd|]. split; [exact Hlen|]. split; [exact Hty|].
  split; [rewrite size_contents_fragment; reflexivity|].
  split; [|split; assumption].
  rewrite contents_app, size_app, size_contents_fragment.
  unfold aligned in Ha. rewrite Hoff in Ha.
  change (size []) with 0.
  unfold kBlockSize, kHeaderSize in *. Z.div_mod_to_equations. lia.
Qed.

End OnMemFile.

(** ** Runs of the writer *)

(** A stand-in for the checksum in the runs below: the sum of the bytes. *)
Definition SumCrc : Crc32c :=
  {| crc32c_Value data := fold_right (fun b acc => byte.unsigned b + acc) 0 data;
     crc32c_Extend init data :=
       fold_right (fun b acc => byte.unsigned b + acc) init data |}.

Definition payload_40000 : Slice := repeat Byte.x61 (Z.to_nat 40000).

Lemma fragmentation_40000_witness :
  AddRecord (crc := SumCrc) (Writer_new ([] : MemFile)) payload_40000 =
  Some ({| dest_ :=
             fragment (crc := SumCrc) kFirstType (firstn (Z.to_nat 32761) payload_40000) ++
             fragment (crc := SumCrc) kLastType (skipn (Z.to_nat 32761) payload_40000);
           block_offset_ := 7246 |}, OK).
Proof.
  apply (fragmentation_40000 (crc := SumCrc) payload_40000).
  unfold size, payload_40000. rewrite repeat_length. reflexivity.
Defined.

(** A writer made on a file of 32,765 bytes, and the first turn of a
    record of one byte: three bytes are left in the block, the writer pads
    with three zero bytes and the file is at a block boundary. *)
Definition file_32765 : MemFile := [EvAppend (repeat Byte.x00 (Z.to_nat 32765))].

Definition writer_32765 : Writer MemFile :=
  {| dest_ := file_32765; block_offset_ := 32765 |}.

Lemma reachable_32765 : reachable (crc := SumCrc) writer_32765.
Proof.
  assert (Hsize : size (contents file_32765) = 32765).
  { unfold file_32765, size. cbn [contents].
    rewrite app_nil_r, repeat_length. apply Z2Nat.id. lia. }
  pose proof (reachable_resume (crc := SumCrc) file_32765) as Hr.
  unfold Writer_resume in Hr. rewrite Hsize in Hr. exact Hr.
Qed.

Definition turn_32765 : LoopState MemFile :=
  {| writer := writer_32765; ptr := [Byte.x61]; left := size [Byte.x61];
     begin := true; s := OK |}.

Lemma block_padding_witness :
  contents [EvAppend (repeat Byte.x00 (Z.to_nat 3))] = repeat Byte.x00 (Z.to_nat 3) /\
  size (contents (file_32765 ++ [EvAppend (repeat Byte.x00 (Z.to_nat 3))]))
    mod kBlockSize = 0.
Proof.
  destruct (block_padding (crc := SumCrc) turn_32765)
    as (_ & _ & Hzeros & Hboundary).
  - apply turn_first, reachable_32765.
  - reflexivity.
  - split; [exact Hzeros|exact Hboundary].
Defined.

(** A writer made on a file of 32,761 bytes, seven bytes before the end of
    the first block, and a record of one byte. *)
Definition file_32761 : MemFile := [EvAppend (repeat Byte.x00 (Z.to_nat 32761))].

Definition writer_32761 : Writer MemFile :=
  {| dest_ := file_32761; block_offset_ := 32761 |}.

Lemma reachable_32761 : reachable (crc := SumCrc) writer_32761.
Proof.
  assert (Hsize : size (contents file_32761) = 32761).
  { unfold file_32761, size. cbn [contents].
    rewrite app_nil_r, repeat_length. apply Z2Nat.id. lia. }
  pose proof (reachable_resume (crc := SumCrc) file_32761) as Hr.
  unfold Writer_resume in Hr. rewrite Hsize in Hr. exact Hr.
Qed.

Lemma zero_length_fragment_witness :
  exists frs w',
    AddRecord (crc := SumCrc) writer_32761 [Byte.x61] = Some (w', OK) /\
    dest_ w' =
      file_32761 ++ fragment (crc := SumCrc) kFirstType [] ++ emit (crc := SumCrc) frs /\
    concat (map snd frs) = [Byte.x61] /\
    later_fragments frs.
Proof.
  destruct (zero_length_fragment (crc := SumCrc) writer_32761 [Byte.x61]
              {| writer := writer_32761; ptr := [Byte.x61]; left := size [Byte.x61];
                 begin := true; s := OK |})
    as (_ & frs & w' & E & Hd & _ & _ & _ & _ & Hc & Hl).
  - apply reachable_32761.
  - apply reaches_first.
  - reflexivity.
  - reflexivity.
  - exists frs, w'. repeat split; assumption.
Defined.

(** A record of one byte written at block offset [kBlockSize - 7]: a FIRST
    fragment without payload, then a LAST fragment with the byte in the
    next block. *)
Example empty_first_fragment (crc : Crc32c) :
  AddRecord {| dest_ := ([] : MemFile); block_offset_ := kBlockSize - kHeaderSize |}
    [Byte.x61] =
  Some ({| dest_ := fragment kFirstType [] ++ fragment kLastType [Byte.x61];
           block_offset_ := 8 |}, OK).
Proof. reflexivity. Qed.

(** A record of 100 bytes in an empty log: one FULL fragment, 107 bytes. *)
Example small_record (crc : Crc32c) :
  let payload := repeat Byte.x61 100 in
  AddRecord (Writer_new ([] : MemFile)) payload =
    Some ({| dest_ := fragment kFullType payload; block_offset_ := 107 |}, OK) /\
  size (contents (fragment kFullType payload)) = 107.
Proof. split; reflexivity. Qed.

End LogFacts.

(** * Facts about db/memtable *)
Module MemTableFacts.
Import Coding DBFormat MemTable CodingFacts.

(** ** Tags *)

Lemma length_EncodeFixed64 n : length (EncodeFixed64 n) = 8%nat.
Proof. apply length_le_split. Qed.

Lemma DecodeFixed64_EncodeFixed64 n rest :
  0 <= n < 2 ^ 64 -> DecodeFixed64 (EncodeFixed64 n ++ rest) = n.
Proof.
  intros Hn. unfold DecodeFixed64.
  rewrite firstn_app, length_EncodeFixed64, Nat.sub_diag, firstn_O, app_nil_r.
  rewrite <- (length_EncodeFixed64 n) at 1. rewrite firstn_all.
  unfold EncodeFixed64. rewrite le_combine_split.
  unfold to_uint64. change (Z.of_nat 8 * 8) with 64.
  rewrite Z.mod_mod by lia. apply Z.mod_small. assumption.
Qed.

(** The tag of an entry: the sequence number above the type byte. *)
Definition tag (seq : Z) (type : ValueType) : Z :=
  Z.lor (to_uint64 (Z.shiftl seq 8)) (ValueType_value type).

Lemma tag_value seq type :
  0 <= seq < 2 ^ 56 -> tag seq type = seq * 256 + ValueType_value type.
Proof.
  intros Hs. unfold tag, to_uint64.
  rewrite Z.shiftl_mul_pow2 by lia.
  rewrite Z.mod_small by (change (2 ^ 8) with 256; change (2 ^ 56) with 72057594037927936 in Hs;
                          change (2 ^ 64) with 18446744073709551616; lia).
  rewrite Z.lor_comm. rewrite <- Z.shiftl_mul_pow2 by lia.
  rewrite lor_shiftl_add; [change (2 ^ 8) with 256; lia|lia|].
  destruct type; cbn; lia.
Qed.

Lemma tag_range seq type : 0 <= seq < 2 ^ 56 -> 0 <= tag seq type < 2 ^ 64.
Proof.
  intros Hs. rewrite tag_value by assumption.
  change (2 ^ 56) with 72057594037927936 in Hs.
  change (2 ^ 64) with 18446744073709551616.
  destruct type; cbn; lia.
Qed.


(** ** Entries *)

(** One call of [Add]: sequence, type, user key, value. *)
Definition Insertion : Type := Z * ValueType * Slice * Slice.

Definition ins_seq (a : Insertion) : Z := let '(s, _, _, _) := a in s.
Definition ins_type (a : Insertion) : ValueType := let '(_, t, _, _) := a in t.
Definition ins_key (a : Insertion) : Slice := let '(_, _, k, _) := a in k.
Definition ins_value (a : Insertion) : Slice := let '(_, _, _, v) := a in v.

(** The sequence number fits the 56 bits of the tag, and the lengths fit
    the 32-bit prefixes of the entry. *)
Definition valid (a : Insertion) : Prop :=
  0 <= ins_seq a < 2 ^ 56 /\
  size (ins_key a) + 8 < 2 ^ 32 /\
  size (ins_value a) < 2 ^ 32.

(** The bytes [Add] writes. *)
Definition entry (a : Insertion) : list byte :=
  EncodeVarint32 (size (ins_key a) + 8) ++ ins_key a ++
  EncodeFixed64 (tag (ins_seq a) (ins_type a)) ++
  EncodeVarint32 (size (ins_value a)) ++ ins_value a.

Lemma length_EncodeVarint32 v : 0 <= v < 2 ^ 32 -> (1 <= length (EncodeVarint32 v) <= 5)%nat.
Proof.
  intros Hv. destruct (VarintLength_EncodeVarint32 v Hv) as [Hl Hr].
  unfold size in Hl. lia.
Qed.

Lemma GetVarint32Ptr_limit_EncodeVarint32 v rest :
  0 <= v < 2 ^ 32 ->
  GetVarint32Ptr_limit 5 (EncodeVarint32 v ++ rest) = Some (v, rest).
Proof.
  intros Hv. unfold GetVarint32Ptr_limit.
  pose proof (length_EncodeVarint32 v Hv) as Hl.
  rewrite firstn_app.
  rewrite (firstn_all2 (n := 5) (EncodeVarint32 v)) by lia.
  rewrite (GetVarint32Ptr_EncodeVarint32 v _ Hv).
  rewrite length_app.
  replace (length (EncodeVarint32 v) + length (firstn (5 - length (EncodeVarint32 v)) rest)
           - length (firstn (5 - length (EncodeVarint32 v)) rest))%nat
    with (length (EncodeVarint32 v)) by lia.
  rewrite skipn_app, Nat.sub_diag, skipn_all. reflexivity.
Qed.

(** The assertion at the end of [Add]: the bytes written fill the buffer
    of [encoded_len] bytes obtained from the arena. *)
Lemma entry_fills_buffer a :
  valid a ->
  size (entry a) =
  VarintLength (size (ins_key a) + 8) + (size (ins_key a) + 8) +
  VarintLength (size (ins_value a)) + size (ins_value a).
Proof.
  intros (_ & Hk & Hv). unfold entry.
  rewrite !size_app.
  assert (Hk' : 0 <= size (ins_key a) + 8 < 2 ^ 32) by (unfold size in *; lia).
  assert (Hv' : 0 <= size (ins_value a) < 2 ^ 32) by (unfold size in *; lia).
  rewrite (proj1 (VarintLength_EncodeVarint32 _ Hk')).
  rewrite (proj1 (VarintLength_EncodeVarint32 _ Hv')).
  assert (H8 : size (EncodeFixed64 (tag (ins_seq a) (ins_type a))) = 8)
    by (unfold size; rewrite length_EncodeFixed64; reflexivity).
  rewrite H8. lia.
Qed.

(** The internal key of an entry: user key, then tag. *)
Definition internal_key (key : Slice) (tg : Z) : Slice := key ++ EncodeFixed64 tg.

Lemma size_internal_key key tg : size (internal_key key tg) = size key + 8.
Proof. unfold internal_key, size. rewrite length_app, length_EncodeFixed64. lia. Qed.

Lemma GetLengthPrefixedSlice_prefixed key tg rest :
  size key + 8 < 2 ^ 32 ->
  GetLengthPrefixedSlice (EncodeVarint32 (size key + 8) ++ key ++ EncodeFixed64 tg ++ rest) =
  Some (internal_key key tg).
Proof.
  intros Hk. unfold GetLengthPrefixedSlice.
  rewrite GetVarint32Ptr_limit_EncodeVarint32 by (unfold size in *; lia).
  rewrite <- size_internal_key with (tg := tg).
  rewrite app_assoc. fold (internal_key key tg).
  rewrite firstn_size_app. reflexivity.
Qed.

Lemma GetLengthPrefixedSlice_entry a :
  valid a ->
  GetLengthPrefixedSlice (entry a) =
  Some (internal_key (ins_key a) (tag (ins_seq a) (ins_type a))).
Proof.
  intros (_ & Hk & _). unfold entry.
  apply GetLengthPrefixedSlice_prefixed. assumption.
Qed.

Section WithComparator.
Context {user_comparator : Comparator} {table_memory : OrderedSetMemory}.

(** ** The order of the table *)

(** The comparison of two internal keys by their parts. *)
Definition compare_parts (ka : Slice) (ta : Z) (kb : Slice) (tb : Z) : Z :=
  let r := Compare ka kb in
  if r =? 0 then
    if tb <? ta then -1 else if ta <? tb then 1 else r
  else r.

Lemma Compare_internal_key ka ta kb tb :
  0 <= ta < 2 ^ 64 -> 0 <= tb < 2 ^ 64 ->
  InternalKeyComparator_Compare (internal_key ka ta) (internal_key kb tb) =
  compare_parts ka ta kb tb.
Proof.
  intros Ha Hb. unfold InternalKeyComparator_Compare, ExtractUserKey, internal_key.
  rewrite !length_app, !length_EncodeFixed64, !Nat.add_sub.
  rewrite !firstn_app, !Nat.sub_diag, !firstn_O, !app_nil_r, !firstn_all.
  rewrite !skipn_app, !Nat.sub_diag, !skipn_all. cbn [app skipn].
  rewrite <- (app_nil_r (EncodeFixed64 ta)), <- (app_nil_r (EncodeFixed64 tb)).
  rewrite !DecodeFixed64_EncodeFixed64 by assumption. reflexivity.
Qed.

(** [x] holds the internal key made of [key] and [tg]. *)
Definition keyed (x : list byte) (key : Slice) (tg : Z) : Prop :=
  GetLengthPrefixedSlice x = Some (internal_key key tg) /\ 0 <= tg < 2 ^ 64.

Lemma keyed_entry a :
  valid a -> keyed (entry a) (ins_key a) (tag (ins_seq a) (ins_type a)).
Proof.
  intros Ha. split.
  - apply GetLengthPrefixedSlice_entry. assumption.
  - apply tag_range. apply Ha.
Qed.

Lemma KeyComparator_keyed x kx tx y ky ty :
  keyed x kx tx -> keyed y ky ty ->
  KeyComparator x y = Some (compare_parts kx tx ky ty).
Proof.
  intros [Hx Htx] [Hy Hty]. unfold KeyComparator. rewrite Hx, Hy.
  rewrite Compare_internal_key by assumption. reflexivity.
Qed.

(** [x] sorts before the key [target]. *)
Definition before_key (target : list byte) (x : list byte) : Prop :=
  exists c, KeyComparator x target = Some c /\ c < 0.

Definition not_before_key (target : list byte) (x : list byte) : Prop :=
  exists c, KeyComparator x target = Some c /\ 0 <= c.

Definition comparable (target : list byte) (x : list byte) : Prop :=
  exists c, KeyComparator x target = Some c.

Lemma FindGreaterOrEqual_spec target l :
  Forall (comparable target) l ->
  exists before from,
    FindGreaterOrEqual target l = Some (before, from) /\
    l = before ++ from /\
    Forall (before_key target) before /\
    match from with
    | [] => True
    | y :: _ => not_before_key target y
    end.
Proof.
  induction 1 as [|x l [c Hc] _ IH].
  - exists [], []. repeat split; constructor.
  - cbn [FindGreaterOrEqual]. rewrite Hc.
    destruct (Z.ltb_spec c 0) as [Hlt|Hge].
    + destruct IH as (before & from & E & -> & Hb & Hf).
      rewrite E. exists (x :: before), from. repeat split; try assumption.
      constructor; [exists c; auto|assumption].
    + exists [], (x :: l). repeat split; [constructor|].
      exists c. auto.
Qed.


(** ** [Add] *)

(** The memtable after the insertions of [h], oldest first. *)
Fixpoint AddAll (m : t) (h : list Insertion) : option t :=
  match h with
  | [] => Some m
  | (s, type, key, value) :: h =>
      match Add m s type key value with
      | None => None
      | Some m => AddAll m h
      end
  end.

(** Every entry of the table was written by one of the insertions of
    [h]. *)
Definition written_by (h : list Insertion) (table : list (list byte)) : Prop :=
  Forall (fun e => exists a, In a h /\ valid a /\ e = entry a) table.

Lemma written_by_comparable h table a :
  valid a -> written_by h table -> Forall (comparable (entry a)) table.
Proof.
  intros Ha. apply Forall_impl. intros e (b & _ & Hb & ->).
  eexists. apply (KeyComparator_keyed _ _ _ _ _ _ (keyed_entry b Hb) (keyed_entry a Ha)).
Qed.

Lemma Add_entry m s type key value :
  valid (s, type, key, value) ->
  Forall (comparable (entry (s, type, key, value))) (table_ m) ->
  exists arena before from,
    Add m s type key value =
      Some {| arena_ := arena;
              table_ := before ++ entry (s, type, key, value) :: from |} /\
    table_ m = before ++ from /\
    Forall (before_key (entry (s, type, key, value))) before.
Proof.
  intros (Hs & Hk & Hv) Hc. cbn [ins_seq ins_key ins_value] in *.
  destruct (FindGreaterOrEqual_spec _ _ Hc) as (before & from & E & Ht & Hb & _).
  unfold Add. destruct (Arena.Allocate _ _) as [p arena].
  assert (Hsz : to_size_t (size key + 8) = size key + 8).
  { unfold to_size_t, to_uint64. apply Z.mod_small. unfold size in *.
    change (2 ^ 32) with 4294967296 in Hk. change (2 ^ 64) with 18446744073709551616. lia. }
  rewrite Hsz. fold (tag s type).
  change (EncodeVarint32 (size key + 8) ++ key ++ EncodeFixed64 (tag s type) ++
          EncodeVarint32 (size value) ++ value)
    with (entry (s, type, key, value)).
  unfold Table_Insert. rewrite E.
  eexists _, before, from. split; [reflexivity|auto].
Qed.

Lemma AddAll_written h : forall m h0,
  Forall valid h -> written_by h0 (table_ m) ->
  exists m', AddAll m h = Some m' /\ written_by (h0 ++ h) (table_ m').
Proof.
  induction h as [|[[[s type] key] value] h IH]; intros m h0 Hh Hm.
  - exists m. rewrite app_nil_r. auto.
  - inversion Hh as [|? ? Ha Hh']; subst. cbn [AddAll].
    destruct (Add_entry m s type key value Ha (written_by_comparable _ _ _ Ha Hm))
      as (arena & before & from & E & Ht & _).
    rewrite E.
    destruct (IH {| arena_ := arena; table_ := before ++ entry (s, type, key, value) :: from |}
                 (h0 ++ [(s, type, key, value)]) Hh') as (m' & E' & Hw).
    + cbn [table_]. unfold written_by in *. rewrite Ht in Hm.
      apply Forall_app in Hm. destruct Hm as [Hb Hf].
      apply Forall_app. split; [|constructor].
      * revert Hb. apply Forall_impl. intros e (a & Hin & Hv & ->).
        exists a. rewrite in_app_iff. auto.
      * exists (s, type, key, value). rewrite in_app_iff. cbn. auto.
      * revert Hf. apply Forall_impl. intros e (a & Hin & Hv & ->).
        exists a. rewrite in_app_iff. auto.
    + exists m'. rewrite <- app_assoc in Hw. auto.
Qed.

(** ** [Get] *)

(** The lookup key holds the internal key of [key] at the snapshot. *)
Lemma keyed_LookupKey key snapshot :
  size key + 8 < 2 ^ 32 -> 0 <= snapshot < 2 ^ 56 ->
  keyed (memtable_key (LookupKey_new key snapshot)) key (tag snapshot kValueTypeForSeek).
Proof.
  intros Hk Hs. split; [|apply tag_range; assumption].
  unfold LookupKey_new. cbn [memtable_key].
  change (PackSequenceAndType snapshot kValueTypeForSeek)
    with (tag snapshot kValueTypeForSeek).
  rewrite <- (app_nil_r (EncodeFixed64 _)).
  apply GetLengthPrefixedSlice_prefixed. assumption.
Qed.


(** [Get] on a table whose entries come from [h], when the iterator does
    not stop at an entry for the user key. *)
Lemma Get_missing m h lookup value0 s0 :
  written_by h (table_ m) ->
  (exists key tg, keyed (memtable_key lookup) key tg) ->
  (forall a, In a h -> valid a ->
             not_before_key (memtable_key lookup) (entry a) ->
             Compare (ins_key a) (user_key lookup) <> 0) ->
  Get m lookup value0 s0 = Some (false, value0, s0).
Proof.
  intros Hw (key & tg & Hkeyed) Hother. unfold Get, Table_Seek.
  assert (Hc : Forall (comparable (memtable_key lookup)) (table_ m)).
  { revert Hw. apply Forall_impl. intros e (b & _ & Hb & ->).
    eexists. apply (KeyComparator_keyed _ _ _ _ _ _ (keyed_entry b Hb) Hkeyed). }
  destruct (FindGreaterOrEqual_spec _ _ Hc) as (before & from & E & Ht & _ & Hf).
  rewrite E. destruct from as [|y from]; [reflexivity|].
  assert (Hy : In y (table_ m)) by (rewrite Ht, in_app_iff; cbn; auto).
  unfold written_by in Hw. rewrite Forall_forall in Hw.
  destruct (Hw y Hy) as (a & Hin & Ha & ->).
  specialize (Hother a Hin Ha Hf).
  destruct Ha as (Hs & Hk & Hv).
  unfold entry at 1.
  rewrite GetVarint32Ptr_limit_EncodeVarint32 by (unfold size in *; lia).
  replace (size (ins_key a) + 8 - 8) with (size (ins_key a)) by lia.
  assert (Hu : to_uint32 (size (ins_key a)) = size (ins_key a)).
  { apply Z.mod_small. unfold size in *. lia. }
  rewrite Hu, firstn_size_app.
  destruct (Z.eqb_spec (Compare (ins_key a) (user_key lookup)) 0); [contradiction|].
  reflexivity.
Qed.


(** ** Tags in the order *)





(** ** The property of the memtable *)


End WithComparator.

(** ** On the bytewise comparator *)

(** The order of the default comparator: bytes as unsigned numbers, and a
    proper prefix before its extensions. *)
Fixpoint bytewise (a b : Slice) : Z :=
  match a, b with
  | [], [] => 0
  | [], _ :: _ => -1
  | _ :: _, [] => 1
  | x :: a, y :: b =>
      if byte.unsigned x <? byte.unsigned y then -1
      else if byte.unsigned y <? byte.unsigned x then 1
      else bytewise a b
  end.

Definition BytewiseComparator : Comparator := {| Compare := bytewise |}.

(** A stand-in for the memory of the ordered set in the runs below: a head
    of 104 bytes when the set is made and a node of 16 bytes for every
    entry, in aligned memory. *)
#[export] Instance NodeMemory : OrderedSetMemory := {
  Table_new_arena a := snd (Arena.AllocateAligned a 104);
  Table_Insert_arena a _ _ := snd (Arena.AllocateAligned a 16)
}.

Lemma bytewise_refl a : bytewise a a = 0.
Proof.
  induction a as [|x a IH]; cbn [bytewise]; [reflexivity|].
  rewrite Z.ltb_irrefl. exact IH.
Qed.

(** "a", "old" and "new". *)
Definition key_a : Slice := [Byte.x61].
Definition value_old : Slice := [Byte.x6f; Byte.x6c; Byte.x64].
Definition value_new : Slice := [Byte.x6e; Byte.x65; Byte.x77].


(** The run of the shadowing scenario on the bytewise comparator:
    [add(5, VALUE, "a", "old"); add(7, VALUE, "a", "new")], then
    [get("a" @ 10)] is ["new"] and [get("a" @ 6)] is ["old"]; after
    [add(9, DELETION, "a", "")], [get("a" @ 10)] is the tombstone. *)
Example shadowing_scenario :
  let get m snapshot :=
    match m with
    | Some m => Get (user_comparator := BytewiseComparator) m
                  (LookupKey_new key_a snapshot) [] OK
    | None => None
    end in
  let m2 := AddAll (user_comparator := BytewiseComparator) new
              [(5, kTypeValue, key_a, value_old); (7, kTypeValue, key_a, value_new)] in
  let m3 := AddAll (user_comparator := BytewiseComparator) new
              [(5, kTypeValue, key_a, value_old); (7, kTypeValue, key_a, value_new);
               (9, kTypeDeletion, key_a, [])] in
  get m2 10 = Some (true, value_new, OK) /\
  get m2 6 = Some (true, value_old, OK) /\
  get m2 4 = Some (false, [], OK) /\
  get m3 10 = Some (true, [], NotFound "") /\
  get m3 8 = Some (true, value_new, OK).
Proof. vm_compute. repeat split. Qed.

End MemTableFacts.

(** * More on util/coding: the 64-bit varint and length-prefixed slices *)
Module CodecFacts.
Import Coding CodingFacts.

(** ** The loops of [EncodeVarint64] and [GetVarint64Ptr] *)

Lemma pow2_7_succ (k : nat) : 2 ^ (7 * Z.of_nat (S k)) = 128 * 2 ^ (7 * Z.of_nat k).
Proof.
  replace (7 * Z.of_nat (S k)) with (7 + 7 * Z.of_nat k) by lia.
  rewrite Z.pow_add_r by lia. reflexivity.
Qed.

Lemma pow2_pos (n : Z) : 0 <= n -> 0 < 2 ^ n.
Proof. intros. apply Z.pow_pos_nonneg; lia. Qed.

Lemma lor_mul_add r y n :
  0 <= n -> 0 <= r < 2 ^ n -> Z.lor r (y * 2 ^ n) = r + y * 2 ^ n.
Proof.
  intros Hn Hr. rewrite <- (lor_shiftl_add r y n) by assumption.
  rewrite Z.shiftl_mul_pow2 by assumption. reflexivity.
Qed.

(** Decoding what the encoder loop wrote for [v], from the [k]-th group
    on, adds [v] above the [7 * k] bits read so far. *)
Lemma loop64_EncodeVarint64_loop rest : forall (n k : nat) v r,
  (k <= 9)%nat ->
  0 <= v < 2 ^ (7 * Z.of_nat n) ->
  v * 2 ^ (7 * Z.of_nat k) < 2 ^ 64 ->
  0 <= r < 2 ^ (7 * Z.of_nat k) ->
  GetVarint64Ptr_loop (7 * Z.of_nat k) r (EncodeVarint64_loop n v ++ rest) =
  Some (r + v * 2 ^ (7 * Z.of_nat k), rest).
Proof.
  induction n as [|n IH]; intros k v r Hk Hv Hfit Hr.
  - change (2 ^ (7 * Z.of_nat 0)) with 1 in Hv.
    assert (v = 0) by lia. subst v.
    cbn [EncodeVarint64_loop app].
    rewrite loop64_last by (lia || (apply last_byte_stops; lia)).
    rewrite unsigned_of_Z_small by lia.
    rewrite Z.shiftl_0_l. change (to_uint64 0) with 0. rewrite Z.lor_0_r.
    f_equal. f_equal. lia.
  - pose proof (pow2_pos (7 * Z.of_nat k) ltac:(lia)) as Hpos.
    cbn [EncodeVarint64_loop].
    destruct (Z.leb_spec 128 v) as [Hge|Hlt]; cbn [app].
    + (* a group with the continuation bit *)
      assert (Hk8 : (k <= 8)%nat).
      { destruct (Nat.eq_dec k 9) as [->|]; [|lia].
        exfalso. change (2 ^ (7 * Z.of_nat 9)) with 9223372036854775808 in Hfit.
        change (2 ^ 64) with 18446744073709551616 in Hfit. lia. }
      rewrite loop64_continue by (lia || apply lor_128_continues).
      rewrite lor_128_low.
      change 127 with (Z.ones 7). rewrite Z.land_ones by lia. change (2 ^ 7) with 128.
      assert (Hm : 0 <= v mod 128 < 128) by (apply Z.mod_pos_bound; lia).
      assert (Hsmall : 0 <= v mod 128 * 2 ^ (7 * Z.of_nat k) < 2 ^ 64).
      { split; [nia|].
        apply Z.lt_le_trans with (128 * 2 ^ (7 * Z.of_nat k)); [nia|].
        rewrite <- pow2_7_succ. apply Z.pow_le_mono_r; lia. }
      rewrite Z.shiftl_mul_pow2 by lia.
      unfold to_uint64 at 1. rewrite (Z.mod_small _ _ Hsmall).
      rewrite lor_mul_add by lia.
      replace (7 * Z.of_nat k + 7) with (7 * Z.of_nat (S k)) by lia.
      rewrite Z.shiftr_div_pow2 by lia. change (2 ^ 7) with 128.
      rewrite IH.
      * f_equal. f_equal. rewrite pow2_7_succ.
        rewrite (Z.div_mod v 128) at 3 by lia. ring.
      * lia.
      * rewrite pow2_7_succ in Hv. split; [apply Z.div_pos; lia|].
        apply Z.div_lt_upper_bound; lia.
      * rewrite pow2_7_succ.
        assert (v / 128 * 128 <= v) by (rewrite (Z.div_mod v 128) at 2 by lia; lia).
        nia.
      * rewrite pow2_7_succ. nia.
    + (* the last group *)
      rewrite loop64_last by (lia || (apply last_byte_stops; lia)).
      rewrite unsigned_of_Z_small by lia.
      rewrite Z.shiftl_mul_pow2 by lia.
      unfold to_uint64. rewrite Z.mod_small by nia.
      rewrite lor_mul_add by lia. reflexivity.
Qed.

(** The two loops count the same groups. *)
Lemma VarintLength_loop_size : forall (n : nat) v len,
  VarintLength_loop n v len = len - 1 + size (EncodeVarint64_loop n v).
Proof.
  induction n as [|n IH]; intros v len; cbn [VarintLength_loop EncodeVarint64_loop].
  - unfold size. cbn. lia.
  - destruct (128 <=? v).
    + rewrite IH. unfold size. cbn [length]. lia.
    + unfold size. cbn. lia.
Qed.

Lemma size_EncodeVarint64_loop : forall (n fuel : nat) v,
  (1 <= n)%nat -> 0 <= v < 2 ^ (7 * Z.of_nat n) ->
  1 <= size (EncodeVarint64_loop fuel v) <= Z.of_nat n.
Proof.
  induction n as [|n IH]; intros fuel v Hn Hv; [lia|].
  destruct fuel as [|fuel]; cbn [EncodeVarint64_loop].
  - unfold size. cbn. lia.
  - destruct (Z.leb_spec 128 v) as [Hge|Hlt].
    + assert (Hn1 : (1 <= n)%nat).
      { destruct n; [|lia]. change (2 ^ (7 * Z.of_nat 1)) with 128 in Hv. lia. }
      rewrite pow2_7_succ in Hv.
      specialize (IH fuel (Z.shiftr v 7) Hn1).
      rewrite Z.shiftr_div_pow2 in * by lia. change (2 ^ 7) with 128 in *.
      assert (0 <= v / 128 < 2 ^ (7 * Z.of_nat n)).
      { split; [apply Z.div_pos; lia|apply Z.div_lt_upper_bound; lia]. }
      specialize (IH ltac:(assumption)).
      unfold size in *. cbn [length]. lia.
    + unfold size. cbn. lia.
Qed.

(** ** The 64-bit varint *)

Lemma GetVarint64Ptr_EncodeVarint64 (v : Z) (rest : list byte) :
  0 <= v < 2 ^ 64 ->
  GetVarint64Ptr (EncodeVarint64 v ++ rest) = Some (v, rest).
Proof.
  intros Hv.
  assert (Hu : to_uint64 v = v) by (apply Z.mod_small; assumption).
  unfold GetVarint64Ptr, EncodeVarint64. rewrite Hu.
  change (GetVarint64Ptr_loop (7 * Z.of_nat 0) 0 (EncodeVarint64_loop 10 v ++ rest) =
          Some (v, rest)).
  rewrite (loop64_EncodeVarint64_loop rest 10 0 v 0).
  - f_equal. f_equal. change (2 ^ (7 * Z.of_nat 0)) with 1. lia.
  - lia.
  - change (2 ^ (7 * Z.of_nat 10)) with (2 ^ 70).
    change (2 ^ 64) with 18446744073709551616 in Hv.
    change (2 ^ 70) with 1180591620717411303424. lia.
  - change (2 ^ (7 * Z.of_nat 0)) with 1. lia.
  - change (2 ^ (7 * Z.of_nat 0)) with 1. lia.
Qed.

(** Varint64 round trip: for every [v] below 2^64, [GetVarint64Ptr] and
    [GetVarint64] read [v] back from the bytes [EncodeVarint64] wrote,
    whatever follows them, and leave the cursor on what follows; the
    encoding has [VarintLength v] bytes, between 1 and 10. *)
Theorem varint64_roundtrip (v : Z) (rest : list byte) :
  0 <= v < 2 ^ 64 ->
  GetVarint64Ptr (EncodeVarint64 v ++ rest) = Some (v, rest) /\
  GetVarint64 (PutVarint64 [] v ++ rest) = (Some v, rest) /\
  size (EncodeVarint64 v) = VarintLength v /\
  1 <= VarintLength v <= 10.
Proof.
  intros Hv.
  assert (Hu : to_uint64 v = v) by (apply Z.mod_small; assumption).
  pose proof (GetVarint64Ptr_EncodeVarint64 v rest Hv) as Hdec.
  assert (Hlen : size (EncodeVarint64 v) = VarintLength v).
  { unfold VarintLength, EncodeVarint64. rewrite VarintLength_loop_size. lia. }
  split; [exact Hdec|]. split; [|split; [exact Hlen|]].
  - unfold GetVarint64, PutVarint64. cbn [app]. rewrite Hdec. reflexivity.
  - rewrite <- Hlen. unfold EncodeVarint64. rewrite Hu.
    apply (size_EncodeVarint64_loop 10 10 v); [lia|].
    change (2 ^ (7 * Z.of_nat 10)) with 1180591620717411303424.
    change (2 ^ 64) with 18446744073709551616 in Hv. lia.
Qed.

Lemma varint64_roundtrip_witness :
  GetVarint64Ptr (EncodeVarint64 (2 ^ 64 - 1) ++ [Byte.x07]) =
    Some (2 ^ 64 - 1, [Byte.x07]) /\
  VarintLength (2 ^ 64 - 1) = 10.
Proof.
  destruct (varint64_roundtrip (2 ^ 64 - 1) [Byte.x07]) as (Hdec & _ & _ & _).
  - change (2 ^ 64) with 18446744073709551616. lia.
  - split; [exact Hdec|reflexivity].
Defined.

(** The two encoders agree below 2^32: [EncodeVarint64] writes the bytes
    [EncodeVarint32] writes, so each decoder reads what either encoder
    wrote for such a value. *)
Theorem EncodeVarint64_EncodeVarint32 (v : Z) (rest : list byte) :
  0 <= v < 2 ^ 32 ->
  EncodeVarint64 v = EncodeVarint32 v /\
  GetVarint64Ptr (EncodeVarint32 v ++ rest) = Some (v, rest) /\
  GetVarint32Ptr (EncodeVarint64 v ++ rest) = Some (v, rest).
Proof.
  intros Hv.
  assert (E : EncodeVarint64 v = EncodeVarint32 v).
  { unfold EncodeVarint64, EncodeVarint32.
    assert (Hu : to_uint32 v = v) by (apply Z.mod_small; assumption).
    assert (Hu' : to_uint64 v = v) by (apply Z.mod_small; lia).
    rewrite Hu, Hu'. cbv zeta. cbn [EncodeVarint64_loop].
    change (Z.shiftl 1 7) with (2 ^ 7). change (Z.shiftl 1 14) with (2 ^ 14).
    change (Z.shiftl 1 21) with (2 ^ 21). change (Z.shiftl 1 28) with (2 ^ 28).
    rewrite !Z.shiftr_shiftr by lia. cbn [Z.add Pos.add Pos.succ].
    rewrite !Z.shiftr_div_pow2 by lia.
    repeat match goal with
           | |- context [?a <? ?b] => destruct (Z.ltb_spec a b)
           end;
      repeat match goal with
             | |- context [128 <=? ?a] => destruct (Z.leb_spec 128 a)
             end;
      try reflexivity;
      exfalso;
      change (2 ^ 7) with 128 in *; change (2 ^ 14) with 16384 in *;
      change (2 ^ 21) with 2097152 in *; change (2 ^ 28) with 268435456 in *;
      change (2 ^ 35) with 34359738368 in *;
      change (2 ^ 32) with 4294967296 in *;
      Z.div_mod_to_equations; lia. }
  split; [exact E|]. split.
  - rewrite <- E. apply GetVarint64Ptr_EncodeVarint64. lia.
  - rewrite E. apply GetVarint32Ptr_EncodeVarint32. assumption.
Qed.

Lemma EncodeVarint64_EncodeVarint32_witness :
  EncodeVarint64 300 = EncodeVarint32 300 /\
  GetVarint64Ptr (EncodeVarint32 300 ++ []) = Some (300, []).
Proof.
  destruct (EncodeVarint64_EncodeVarint32 300 []) as (E & Hdec & _);
    [lia|]. split; [exact E|exact Hdec].
Defined.

(** ** Length-prefixed slices *)

Lemma GetLengthPrefixedSlice_Put (value rest : list byte) :
  size value < 2 ^ 32 ->
  GetLengthPrefixedSlice (PutLengthPrefixedSlice [] value ++ rest) = (Some value, rest).
Proof.
  intros Hs.
  assert (Hv : 0 <= size value < 2 ^ 32) by (unfold size in *; lia).
  unfold PutLengthPrefixedSlice, PutVarint32, GetLengthPrefixedSlice, GetVarint32.
  cbn [app]. rewrite <- app_assoc.
  rewrite (GetVarint32Ptr_EncodeVarint32 _ _ Hv).
  destruct (Z.leb_spec (size value) (size (value ++ rest))) as [_|Hgt].
  - rewrite firstn_size_app, skipn_size_app. reflexivity.
  - rewrite size_app in Hgt. unfold size in Hgt. lia.
Qed.

(** The overload on a pointer pair and the overload on a slice decide
    alike, the one by [p + len > limit] and the other by
    [input->size() >= len]. *)
Lemma GetLengthPrefixedSlicePtr_Slice (p : list byte) :
  GetLengthPrefixedSlicePtr p =
  match GetLengthPrefixedSlice p with
  | (Some data, rest) => Some (data, rest)
  | (None, _) => None
  end.
Proof.
  unfold GetLengthPrefixedSlicePtr, GetLengthPrefixedSlice, GetVarint32.
  destruct (GetVarint32Ptr p) as [[len q]|]; [|reflexivity].
  destruct (Z.ltb_spec (size q) len); destruct (Z.leb_spec len (size q));
    try lia; reflexivity.
Qed.

(** Length-prefixed slice round trip: [PutLengthPrefixedSlice] appends to
    [dst], leaving what [dst] held in place, the length of [value] as a
    varint32 and then its bytes; for a value shorter than 2^32 bytes both
    overloads of [GetLengthPrefixedSlice] read [value] back from there and
    stop on what follows. *)
Theorem length_prefixed_roundtrip (dst value rest : list byte) :
  size value < 2 ^ 32 ->
  PutLengthPrefixedSlice dst value = dst ++ PutLengthPrefixedSlice [] value /\
  size (PutLengthPrefixedSlice [] value) = VarintLength (size value) + size value /\
  GetLengthPrefixedSlice (PutLengthPrefixedSlice [] value ++ rest) = (Some value, rest) /\
  GetLengthPrefixedSlicePtr (PutLengthPrefixedSlice [] value ++ rest) = Some (value, rest).
Proof.
  intros Hs.
  assert (Hv : 0 <= size value < 2 ^ 32) by (unfold size in *; lia).
  split; [|split; [|split]].
  - unfold PutLengthPrefixedSlice, PutVarint32. cbn [app].
    rewrite app_assoc. reflexivity.
  - unfold PutLengthPrefixedSlice, PutVarint32. cbn [app].
    rewrite size_app, (proj1 (VarintLength_EncodeVarint32 _ Hv)). reflexivity.
  - apply GetLengthPrefixedSlice_Put. assumption.
  - rewrite GetLengthPrefixedSlicePtr_Slice, GetLengthPrefixedSlice_Put by assumption.
    reflexivity.
Qed.

Lemma length_prefixed_roundtrip_witness :
  GetLengthPrefixedSlice
    (PutLengthPrefixedSlice [] [Byte.x6b; Byte.x31] ++ [Byte.x07]) =
  (Some [Byte.x6b; Byte.x31], [Byte.x07]).
Proof.
  destruct (length_prefixed_roundtrip [] [Byte.x6b; Byte.x31] [Byte.x07])
    as (_ & _ & Hdec & _); [cbn; lia|exact Hdec].
Defined.

(** The two overloads of [GetLengthPrefixedSlice] agree on every input:
    the overload on a pointer pair returns null exactly when the overload
    on a slice returns false, and otherwise both give the same slice and
    stop at the same place. *)
Theorem GetLengthPrefixedSlice_overloads (p : list byte) :
  (GetLengthPrefixedSlicePtr p = None <-> fst (GetLengthPrefixedSlice p) = None) /\
  (forall data rest,
     GetLengthPrefixedSlicePtr p = Some (data, rest) <->
     GetLengthPrefixedSlice p = (Some data, rest)).
Proof.
  rewrite GetLengthPrefixedSlicePtr_Slice.
  destruct (GetLengthPrefixedSlice p) as [[data' |] rest']; cbn [fst]; split.
  - split; discriminate.
  - intros data rest. split; intros H; inversion H; reflexivity.
  - split; reflexivity.
  - intros data rest. split; discriminate.
Qed.

(** ** What the decoders accept *)

(** Decoding a varint32 succeeds exactly on an input that begins with at
    most four bytes with the continuation bit and then one without; the
    value is the number these bytes spell in groups of seven bits, least
    significant group first, cut to 32 bits; the cursor stops behind
    them. *)
Theorem GetVarint32PtrFallback_success (p : list byte) (v : Z) (q : list byte) :
  GetVarint32PtrFallback p = Some (v, q) <->
  exists enc, varint32_form enc /\ p = enc ++ q /\ v = groups enc mod 2 ^ 32.
Proof.
  change (GetVarint32PtrFallback p) with (GetVarint32Ptr p).
  split.
  - intros H. destruct (GetVarint32Ptr_Some_form _ _ _ H) as (enc & Hf & Hp & Hv).
    exists enc. auto.
  - intros (enc & Hf & -> & ->). apply GetVarint32Ptr_form. assumption.
Qed.

Lemma groups_app (cs l : list byte) :
  groups (cs ++ l) = groups cs + 128 ^ Z.of_nat (length cs) * groups l.
Proof.
  induction cs as [|c cs IH]; cbn [app length].
  - change (groups []) with 0. change (128 ^ Z.of_nat 0) with 1. lia.
  - change (groups (c :: cs ++ l)) with (byte.unsigned c mod 128 + 128 * groups (cs ++ l)).
    change (groups (c :: cs)) with (byte.unsigned c mod 128 + 128 * groups cs).
    rewrite IH. rewrite Nat2Z.inj_succ, Z.pow_succ_r by lia. ring.
Qed.

(** Another spelling, for every spelling of a varint32: with an empty group
    more when there is room for one, and with a bit above the 32nd set in
    the fifth group otherwise. *)
Lemma varint32_form_respelled (enc : list byte) :
  varint32_form enc ->
  exists enc', varint32_form enc' /\ enc' <> enc /\
               varint32_value enc' = varint32_value enc.
Proof.
  intros (cs & t & -> & Hcs & Ht & Hl).
  assert (Htr : 0 <= byte.unsigned t < 128).
  { pose proof (byte.unsigned_range t). unfold continues in Ht. lia. }
  destruct (Nat.eq_dec (length cs) 4) as [H4|H4].
  - (* five bytes: a bit of the fifth above the 32nd *)
    set (t' := byte.of_Z ((byte.unsigned t + 16) mod 128)).
    assert (Hm : 0 <= (byte.unsigned t + 16) mod 128 < 128)
      by (apply Z.mod_pos_bound; lia).
    assert (Ht' : byte.unsigned t' = (byte.unsigned t + 16) mod 128).
    { unfold t'. apply unsigned_of_Z_small. lia. }
    exists (cs ++ [t']). split; [|split].
    + exists cs, t'. repeat split; try assumption.
      unfold continues. rewrite Ht'. lia.
    + intros E. apply app_inv_head in E. inversion E as [E'].
      apply (f_equal byte.unsigned) in E'. rewrite Ht' in E'.
      Z.div_mod_to_equations. lia.
    + unfold varint32_value, to_uint32. rewrite !groups_app, H4.
      change (groups [t']) with (byte.unsigned t' mod 128 + 128 * 0).
      change (groups [t]) with (byte.unsigned t mod 128 + 128 * 0).
      rewrite Ht'. change (128 ^ Z.of_nat 4) with 268435456.
      change (2 ^ 32) with 4294967296.
      Z.div_mod_to_equations. lia.
  - (* room for one more group *)
    set (t' := byte.of_Z (byte.unsigned t + 128)).
    assert (Ht' : byte.unsigned t' = byte.unsigned t + 128).
    { unfold t'. apply unsigned_of_Z_small. lia. }
    exists ((cs ++ [t']) ++ [Byte.x00]). split; [|split].
    + exists (cs ++ [t']), Byte.x00. repeat split.
      * apply Forall_app. split; [assumption|]. constructor; [|constructor].
        unfold continues. lia.
      * unfold continues. cbn. lia.
      * rewrite length_app. cbn [length]. lia.
    + intros E. apply (f_equal (@length byte)) in E.
      rewrite !length_app in E. cbn [length] in E. lia.
    + unfold varint32_value. f_equal. rewrite <- app_assoc. rewrite !groups_app.
      unfold groups at 2 3 5. cbn [fold_right length].
      rewrite Ht'. change (byte.unsigned Byte.x00) with 0.
      change (128 ^ Z.of_nat 1) with 128.
      f_equal. f_equal. Z.div_mod_to_equations. lia.
Qed.

(** The varint32 decoder is not injective: for every value there are bytes
    other than the ones [EncodeVarint32] writes for it that
    [GetVarint32PtrFallback] accepts and reads as that value. *)
Theorem GetVarint32PtrFallback_not_injective (v : Z) (rest : list byte) :
  0 <= v < 2 ^ 32 ->
  exists enc,
    enc <> EncodeVarint32 v /\
    GetVarint32PtrFallback (enc ++ rest) = Some (v, rest).
Proof.
  intros Hv.
  pose proof (GetVarint32Ptr_EncodeVarint32 v [] Hv) as E.
  destruct (GetVarint32Ptr_Some_form _ _ _ E) as (enc0 & Hf & Henc & Hval).
  rewrite !app_nil_r in Henc. subst enc0.
  destruct (varint32_form_respelled _ Hf) as (enc' & Hf' & Hne & Hsame).
  exists enc'. split; [assumption|].
  change (GetVarint32PtrFallback (enc' ++ rest)) with (GetVarint32Ptr (enc' ++ rest)).
  rewrite (GetVarint32Ptr_form enc' rest Hf'). congruence.
Qed.

Lemma GetVarint32PtrFallback_not_injective_witness :
  exists enc,
    enc <> EncodeVarint32 5 /\ GetVarint32PtrFallback (enc ++ []) = Some (5, []).
Proof. apply (GetVarint32PtrFallback_not_injective 5 []). lia. Defined.

Lemma lor_bound (a b n : Z) :
  0 <= n -> 0 <= a < 2 ^ n -> 0 <= b < 2 ^ n -> 0 <= Z.lor a b < 2 ^ n.
Proof.
  intros Hn Ha Hb.
  assert (H0 : 0 <= Z.lor a b) by (apply Z.lor_nonneg; lia).
  split; [assumption|].
  destruct (Z.eq_dec (Z.lor a b) 0) as [->|Hne]; [apply Z.pow_pos_nonneg; lia|].
  apply Z.log2_lt_pow2; [lia|].
  rewrite Z.log2_lor by lia.
  assert (Hlog : forall x, 0 <= x < 2 ^ n -> x <> 0 -> Z.log2 x < n).
  { intros x Hx Hx0. apply Z.log2_lt_pow2; lia. }
  destruct (Z.eq_dec a 0) as [->|Ha0]; destruct (Z.eq_dec b 0) as [->|Hb0].
  - exfalso. apply Hne. reflexivity.
  - rewrite Z.max_r by (apply Z.log2_nonneg). apply Hlog; assumption.
  - rewrite Z.max_l by (apply Z.log2_nonneg). apply Hlog; assumption.
  - apply Z.max_lub_lt; apply Hlog; assumption.
Qed.

Lemma loop64_Some_inv p : forall (k : nat) result v q,
  0 <= result < 2 ^ 64 ->
  GetVarint64Ptr_loop (7 * Z.of_nat k) result p = Some (v, q) ->
  (exists cs t, p = cs ++ t :: q /\ Forall continues cs /\ ~ continues t /\
                (k + length cs <= 9)%nat) /\
  0 <= v < 2 ^ 64.
Proof.
  induction p as [|b p IH]; intros k result v q Hr H.
  - simpl in H. destruct (_ <=? _); discriminate.
  - destruct (Z.le_gt_cases (7 * Z.of_nat k) 63) as [Hs|Hs].
    2:{ rewrite loop64_stop in H by lia. discriminate. }
    assert (Hmod : forall x, 0 <= to_uint64 x < 2 ^ 64)
      by (intros x; apply Z.mod_pos_bound; reflexivity).
    destruct (continues_dec b) as [Hb|Hb].
    + rewrite loop64_continue in H by assumption.
      replace (7 * Z.of_nat k + 7) with (7 * Z.of_nat (S k)) in H by lia.
      apply IH in H; [|apply lor_bound; [lia|assumption|apply Hmod]].
      destruct H as ((cs & t & -> & Hcs & Ht & Hl) & Hv).
      split; [|assumption].
      exists (b :: cs), t. repeat split; try assumption.
      * constructor; assumption.
      * simpl. lia.
    + rewrite loop64_last in H by assumption. inversion H; subst.
      split; [|apply lor_bound; [lia|assumption|apply Hmod]].
      exists [], b. split; [reflexivity|]. split; [constructor|].
      split; [assumption|]. simpl. lia.
Qed.

(** A successful [GetVarint64Ptr] has read at most nine bytes with the
    continuation bit and the byte without it that follows them, and
    nothing else: the cursor it returns is just behind that byte, and the
    value is below 2^64. *)
Theorem GetVarint64Ptr_consumed (p : list byte) (v : Z) (q : list byte) :
  GetVarint64Ptr p = Some (v, q) ->
  (exists cs t, p = cs ++ t :: q /\ Forall continues cs /\ ~ continues t /\
                (length cs <= 9)%nat) /\
  0 <= v < 2 ^ 64.
Proof.
  intros H. apply (loop64_Some_inv p 0 0 v q) in H.
  - exact H.
  - change (2 ^ 64) with 18446744073709551616. lia.
Qed.

Lemma GetVarint64Ptr_consumed_witness :
  (exists cs t, [Byte.xac; Byte.x02; Byte.x07] = cs ++ t :: [Byte.x07] /\
                Forall continues cs /\ ~ continues t /\ (length cs <= 9)%nat) /\
  0 <= 300 < 2 ^ 64.
Proof.
  apply (GetVarint64Ptr_consumed [Byte.xac; Byte.x02; Byte.x07] 300 [Byte.x07]).
  reflexivity.
Defined.

End CodecFacts.

(** * The arena over a run of requests *)
Module ArenaInvariants.
Import Arena CodingFacts ArenaFacts.

(** A call of [Allocate] or of [AllocateAligned]. *)
Inductive Request : Type :=
| Plain (bytes : Z)
| Aligned (bytes : Z).

Definition bytes_of (r : Request) : Z :=
  match r with Plain n => n | Aligned n => n end.

Definition serve (a : t) (r : Request) : pointer * t :=
  match r with
  | Plain n => Allocate a n
  | Aligned n => AllocateAligned a n
  end.

(** The pointers returned for the requests, in their order, and the arena
    afterwards. *)
Fixpoint serve_all (a : t) (rs : list Request) : list pointer * t :=
  match rs with
  | [] => ([], a)
  | r :: rs =>
      let (p, a) := serve a r in
      let (ps, a) := serve_all a rs in
      (p :: ps, a)
  end.

(** A request the callers make: some bytes, and fewer than half the
    address space. *)
Definition sensible (r : Request) : Prop := 0 < bytes_of r < 2 ^ 63.

(** ** The state between two calls *)

(** [alloc_ptr_] is null with nothing remaining, or it points into a
    block of [kBlockSize] bytes of which [alloc_bytes_remaining_] are
    left behind it. *)
Definition wf (a : t) : Prop :=
  match alloc_ptr_ a with
  | nullptr => alloc_bytes_remaining_ a = 0
  | Ptr block offset =>
      nth_error (blocks_ a) block = Some kBlockSize /\
      0 <= offset /\ 0 <= alloc_bytes_remaining_ a /\
      offset + alloc_bytes_remaining_ a = kBlockSize
  end.

(** Byte [i] of block [block] has not been handed out: it lies behind
    [alloc_ptr_] in the current block, or in a block yet to come. *)
Definition free (a : t) (block : nat) (i : Z) : Prop :=
  (length (blocks_ a) <= block)%nat \/
  exists offset, alloc_ptr_ a = Ptr block offset /\ offset <= i < kBlockSize.

(** What one call does: the bytes it returns were free, lie in one block,
    and are no longer free; no byte becomes free. *)
Definition hands_out (a : t) (n : Z) (p : pointer) (a' : t) : Prop :=
  exists block offset,
    p = Ptr block offset /\
    (exists sz, nth_error (blocks_ a') block = Some sz /\
                0 <= offset /\ offset + n <= sz) /\
    (forall i, offset <= i < offset + n -> free a block i) /\
    (forall block' i, free a' block' i ->
       free a block' i /\ ~ (block' = block /\ offset <= i < offset + n)).

Lemma wf_current a block offset :
  wf a -> alloc_ptr_ a = Ptr block offset -> (block < length (blocks_ a))%nat.
Proof.
  unfold wf. intros Hwf E. rewrite E in Hwf.
  apply nth_error_Some. destruct Hwf as [H _]. rewrite H. discriminate.
Qed.

Lemma AllocateFallback_hands_out a n :
  wf a -> 0 < n ->
  wf (snd (AllocateFallback a n)) /\
  hands_out a n (fst (AllocateFallback a n)) (snd (AllocateFallback a n)).
Proof.
  intros Hwf Hn. unfold AllocateFallback.
  change (kBlockSize / 4) with 1024.
  destruct (Z.ltb_spec 1024 n) as [Hbig|Hsmall].
  - (* a block of its own *)
    rewrite AllocateNewBlock_spec. cbn [fst snd]. split.
    + unfold wf in *. cbn [alloc_ptr_ alloc_bytes_remaining_ blocks_].
      destruct (alloc_ptr_ a) as [|block offset] eqn:E; [assumption|].
      destruct Hwf as (Hb & Ho & Hr & Hs). repeat split; try assumption.
      rewrite nth_error_app1; [assumption|].
      apply nth_error_Some. rewrite Hb. discriminate.
    + exists (length (blocks_ a)), 0. split; [reflexivity|].
      unfold free. cbn [blocks_ alloc_ptr_]. split; [|split].
      * exists n. rewrite nth_error_app2, Nat.sub_diag by lia. cbn. split; [reflexivity|lia].
      * intros i Hi. left. lia.
      * intros block' i [Hlen|(offset & E & Hi)].
        -- rewrite length_app in Hlen. cbn [length] in Hlen.
           split; [left; lia|]. intros [-> _]. lia.
        -- pose proof (wf_current a _ _ Hwf E) as Hlt.
           split; [right; exists offset; auto|]. intros [-> _]. lia.
  - (* a fresh block of the standard size *)
    rewrite AllocateNewBlock_spec. cbn [fst snd pointer_add blocks_ memory_usage_]. split.
    + unfold wf. cbn [alloc_ptr_ alloc_bytes_remaining_ blocks_].
      rewrite nth_error_app2, Nat.sub_diag by lia. cbn [nth_error].
      unfold kBlockSize. repeat split; lia.
    + exists (length (blocks_ a)), 0. split; [reflexivity|].
      unfold free. cbn [blocks_ alloc_ptr_]. split; [|split].
      * exists kBlockSize. rewrite nth_error_app2, Nat.sub_diag by lia. cbn [nth_error].
        unfold kBlockSize. split; [reflexivity|lia].
      * intros i Hi. left. lia.
      * intros block' i [Hlen|(offset & E & Hi)].
        -- rewrite length_app in Hlen. cbn [length] in Hlen.
           split; [left; lia|]. intros [-> _]. lia.
        -- inversion E; subst. split; [left; lia|]. intros [_ Hin]. lia.
Qed.

(** The bytes between [offset] and [offset + used + n] of the current
    block, of which the last [n] are returned. *)
Lemma current_hands_out a block offset used n :
  wf a -> alloc_ptr_ a = Ptr block offset ->
  0 <= used -> 0 < n -> used + n <= alloc_bytes_remaining_ a ->
  let a' := {| alloc_ptr_ := Ptr block (offset + (used + n));
               alloc_bytes_remaining_ := alloc_bytes_remaining_ a - (used + n);
               blocks_ := blocks_ a;
               memory_usage_ := memory_usage_ a |} in
  wf a' /\ hands_out a n (Ptr block (offset + used)) a'.
Proof.
  intros Hwf E Hused Hn Hfit a'.
  pose proof Hwf as Hwf'. unfold wf in Hwf'. rewrite E in Hwf'.
  destruct Hwf' as (Hb & Ho & Hr & Hs). split.
  - unfold wf, a'. cbn [alloc_ptr_ alloc_bytes_remaining_ blocks_].
    repeat split; try assumption; lia.
  - exists block, (offset + used). split; [reflexivity|].
    unfold a', free. cbn [blocks_ alloc_ptr_]. split; [|split].
    + exists kBlockSize. repeat split; try assumption; lia.
    + intros i Hi. right. exists offset. split; [assumption|]. lia.
    + intros block' i [Hlen|(offset' & E' & Hi)].
      * split; [left; assumption|]. intros [-> _].
        pose proof (wf_current a _ _ Hwf E). lia.
      * inversion E'; subst. split; [right; exists offset; split; [assumption|lia]|].
        intros [_ Hin]. lia.
Qed.

Lemma Allocate_hands_out a n :
  wf a -> 0 < n ->
  wf (snd (Allocate a n)) /\
  hands_out a n (fst (Allocate a n)) (snd (Allocate a n)).
Proof.
  intros Hwf Hn. unfold Allocate.
  destruct (Z.leb_spec n (alloc_bytes_remaining_ a)) as [Hfit|Hno].
  - cbn [fst snd].
    destruct (alloc_ptr_ a) as [|block offset] eqn:E.
    { unfold wf in Hwf. rewrite E in Hwf. lia. }
    cbn [pointer_add].
    pose proof (current_hands_out a block offset 0 n Hwf E ltac:(lia) Hn ltac:(lia)) as H.
    cbn zeta in H. rewrite !Z.add_0_l, Z.add_0_r in H. exact H.
  - apply AllocateFallback_hands_out; assumption.
Qed.

Lemma slop_range offset :
  let current_mod := Z.land offset (align - 1) in
  let slop := if current_mod =? 0 then 0 else align - current_mod in
  0 <= slop < 8 /\ (offset + slop) mod 8 = 0.
Proof.
  change (align - 1) with (Z.ones 3). rewrite Z.land_ones by lia.
  change align with 8. change (2 ^ 3) with 8. cbv zeta.
  destruct (Z.eqb_spec (offset mod 8) 0); Z.div_mod_to_equations; lia.
Qed.

Lemma AllocateAligned_hands_out a n :
  wf a -> 0 < n < 2 ^ 63 ->
  wf (snd (AllocateAligned a n)) /\
  hands_out a n (fst (AllocateAligned a n)) (snd (AllocateAligned a n)) /\
  address_bits (fst (AllocateAligned a n)) (align - 1) = 0.
Proof.
  intros Hwf Hn. unfold AllocateAligned.
  set (current_mod := address_bits (alloc_ptr_ a) (align - 1)).
  set (slop := if current_mod =? 0 then 0 else align - current_mod).
  assert (Hslop : 0 <= slop < 8 /\
                  match alloc_ptr_ a with
                  | nullptr => slop = 0
                  | Ptr _ offset => (offset + slop) mod 8 = 0
                  end).
  { subst slop current_mod. destruct (alloc_ptr_ a) as [|block offset]; cbn [address_bits].
    - cbn. lia.
    - apply slop_range. }
  destruct Hslop as [Hs Hal].
  assert (Hneeded : to_size_t (n + slop) = n + slop).
  { apply to_size_t_small. change (2 ^ 63) with 9223372036854775808 in Hn.
    change (2 ^ 64) with 18446744073709551616. lia. }
  rewrite Hneeded.
  destruct (Z.leb_spec (n + slop) (alloc_bytes_remaining_ a)) as [Hfit|Hno].
  - cbn [fst snd].
    destruct (alloc_ptr_ a) as [|block offset] eqn:E.
    { unfold wf in Hwf. rewrite E in Hwf. lia. }
    cbn [pointer_add address_bits].
    pose proof (current_hands_out a block offset slop n Hwf E ltac:(lia) ltac:(lia)
                  ltac:(lia)) as H.
    cbn zeta in H. rewrite (Z.add_comm slop n) in H.
    destruct H as [H1 H2]. split; [exact H1|]. split; [exact H2|].
    change (align - 1) with (Z.ones 3). rewrite Z.land_ones by lia. exact Hal.
  - destruct (AllocateFallback_hands_out a n Hwf ltac:(lia)) as [H1 H2].
    split; [exact H1|]. split; [exact H2|].
    destruct H2 as (block & offset & Hp & _).
    unfold AllocateFallback in *. change (kBlockSize / 4) with 1024 in *.
    destruct (1024 <? n); rewrite AllocateNewBlock_spec in *; cbn [fst] in *;
      reflexivity.
Qed.

Lemma serve_hands_out a r :
  wf a -> sensible r ->
  wf (snd (serve a r)) /\
  hands_out a (bytes_of r) (fst (serve a r)) (snd (serve a r)).
Proof.
  intros Hwf Hr. destruct r as [n|n]; unfold sensible in Hr; cbn [serve bytes_of] in *.
  - apply Allocate_hands_out; [assumption|lia].
  - destruct (AllocateAligned_hands_out a n Hwf Hr) as (H1 & H2 & _). auto.
Qed.

Lemma serve_blocks a r : exists more, blocks_ (snd (serve a r)) = blocks_ a ++ more.
Proof.
  assert (Hf : forall n, exists more,
             blocks_ (snd (AllocateFallback a n)) = blocks_ a ++ more).
  { intros n. unfold AllocateFallback. destruct (_ <? _);
      rewrite AllocateNewBlock_spec; cbn [snd blocks_]; eexists; reflexivity. }
  destruct r as [n|n]; cbn [serve]; unfold Allocate, AllocateAligned;
    destruct (_ <=? _); try apply Hf;
    cbn [snd blocks_]; exists []; rewrite app_nil_r; reflexivity.
Qed.

(** ** Runs *)

(** Byte [i] of block [block] belongs to the allocation [x], a pointer and
    the number of bytes asked for. *)
Definition holds (x : pointer * Z) (block : nat) (i : Z) : Prop :=
  exists offset, fst x = Ptr block offset /\ offset <= i < offset + snd x.

(** Two allocations have no byte in common. *)
Definition apart (x y : pointer * Z) : Prop :=
  forall block i, holds x block i -> ~ holds y block i.

(** The allocation lies inside one of the blocks of the arena. *)
Definition within (a : t) (x : pointer * Z) : Prop :=
  exists block offset sz,
    fst x = Ptr block offset /\ nth_error (blocks_ a) block = Some sz /\
    0 <= offset /\ offset + snd x <= sz.

Lemma within_more a more blocks' x :
  blocks' = blocks_ a ++ more -> within a x ->
  exists block offset sz,
    fst x = Ptr block offset /\ nth_error blocks' block = Some sz /\
    0 <= offset /\ offset + snd x <= sz.
Proof.
  intros -> (block & offset & sz & Hp & Hb & Ho).
  exists block, offset, sz. split; [assumption|]. split; [|assumption].
  rewrite nth_error_app1; [assumption|].
  apply nth_error_Some. rewrite Hb. discriminate.
Qed.

Lemma serve_all_apart : forall rs a,
  wf a -> Forall sensible rs ->
  let given := combine (fst (serve_all a rs)) (map bytes_of rs) in
  let a' := snd (serve_all a rs) in
  wf a' /\
  length (fst (serve_all a rs)) = length rs /\
  (exists more, blocks_ a' = blocks_ a ++ more) /\
  Forall (within a') given /\
  Forall (fun x => forall block i, holds x block i -> free a block i) given /\
  ForallOrdPairs apart given /\
  (forall block i, free a' block i -> free a block i).
Proof.
  induction rs as [|r rs IH]; intros a Hwf Hrs; cbn [serve_all].
  - cbn [fst snd map combine length].
    split; [assumption|]. split; [reflexivity|].
    split; [exists []; rewrite app_nil_r; reflexivity|].
    split; [constructor|]. split; [constructor|]. split; [constructor|auto].
  - inversion Hrs as [|? ? Hr Hrs']; subst.
    destruct (serve_hands_out a r Hwf Hr) as [Hwf1 Hout].
    destruct (serve_blocks a r) as [more1 Hmore1].
    destruct (serve a r) as [p a1]. cbn [fst snd] in *.
    specialize (IH a1 Hwf1 Hrs'). cbv zeta in IH.
    destruct (serve_all a1 rs) as [ps a']. cbn [fst snd map combine length] in *.
    destruct IH as (Hwf' & Hlen & (more & Hmore) & Hin & Hfree & Hpairs & Hmono).
    destruct Hout as (block & offset & -> & (sz & Hsz & Hoff) & Hwas & Hnow).
    split; [assumption|]. split; [lia|]. split; [|split; [|split; [|split]]].
    + exists (more1 ++ more). rewrite Hmore, Hmore1, app_assoc. reflexivity.
    + constructor; [|assumption].
      apply (within_more a1 more); [assumption|].
      exists block, offset, sz. cbn [fst snd]. auto.
    + constructor.
      * intros block' i (offset' & E & Hi). cbn [fst snd] in *.
        inversion E; subst. apply Hwas. assumption.
      * revert Hfree. apply Forall_impl. intros x Hx block' i Hh.
        apply Hnow. apply Hx. assumption.
    + constructor; [|assumption].
      revert Hfree. apply Forall_impl. intros x Hx block' i (offset' & E & Hi) Hh.
      cbn [fst snd] in *. inversion E; subst.
      destruct (Hnow _ _ (Hx _ _ Hh)) as [_ Hnot]. apply Hnot. auto.
    + intros block' i Hf. apply Hnow. apply Hmono. assumption.
Qed.

Lemma wf_new : wf new.
Proof. reflexivity. Qed.

(** Allocations never overlap.  In a run of calls of [Allocate] and
    [AllocateAligned] on a new arena, each for some bytes, every call
    returns a pointer into one of the blocks of the arena with the bytes
    asked for inside that block, and no byte belongs to two of the
    allocations. *)
Theorem allocations_apart (rs : list Request) :
  Forall sensible rs ->
  let given := combine (fst (serve_all new rs)) (map bytes_of rs) in
  length (fst (serve_all new rs)) = length rs /\
  Forall (within (snd (serve_all new rs))) given /\
  ForallOrdPairs apart given.
Proof.
  intros Hrs given.
  destruct (serve_all_apart rs new wf_new Hrs) as (_ & Hlen & _ & Hin & _ & Hp & _).
  auto.
Qed.

Lemma allocations_apart_witness :
  ForallOrdPairs apart
    (combine (fst (serve_all new [Plain 100; Aligned 8; Plain 2000; Plain 4000]))
             [100; 8; 2000; 4000]).
Proof.
  apply (allocations_apart [Plain 100; Aligned 8; Plain 2000; Plain 4000]).
  repeat constructor.
Defined.

(** [AllocateAligned] returns aligned memory.  After any run of calls on
    a new arena, the pointer it returns for some bytes points into a block
    at an offset that is a multiple of 8; the blocks being aligned
    themselves, the assertion at its end holds. *)
Theorem AllocateAligned_aligned (rs : list Request) (n : Z) :
  Forall sensible rs ->
  0 < n < 2 ^ 63 ->
  let a := snd (serve_all new rs) in
  (exists block offset,
     fst (AllocateAligned a n) = Ptr block offset /\ offset mod 8 = 0) /\
  address_bits (fst (AllocateAligned a n)) (align - 1) = 0.
Proof.
  intros Hrs Hn a.
  destruct (serve_all_apart rs new wf_new Hrs) as (Hwf & _).
  destruct (AllocateAligned_hands_out a n Hwf Hn) as (_ & Hout & Hbits).
  split; [|exact Hbits].
  destruct Hout as (block & offset & Hp & _).
  exists block, offset. split; [assumption|].
  rewrite Hp in Hbits. cbn [address_bits] in Hbits.
  change (align - 1) with (Z.ones 3) in Hbits. rewrite Z.land_ones in Hbits by lia.
  exact Hbits.
Qed.

Lemma AllocateAligned_aligned_witness :
  fst (AllocateAligned (snd (serve_all new [Plain 3])) 16) = Ptr 0 8.
Proof.
  destruct (AllocateAligned_aligned [Plain 3] 16) as [(block & offset & E & _) _].
  - repeat constructor.
  - lia.
  - reflexivity.
Defined.

(** ** The memory the arena owns *)

Definition capacity (a : t) : Z := fold_right Z.add 0 (blocks_ a).

Definition total (rs : list Request) : Z := fold_right Z.add 0 (map bytes_of rs).

(** [memory_usage_] counts every block with the pointer kept for it, and
    the blocks hold the [asked] bytes handed out and those that remain. *)
Definition accounted (a : t) (asked : Z) : Prop :=
  memory_usage_ a =
    to_size_t (capacity a + sizeof_pointer * Z.of_nat (length (blocks_ a))) /\
  asked + alloc_bytes_remaining_ a <= capacity a.

Lemma wf_remaining a : wf a -> 0 <= alloc_bytes_remaining_ a.
Proof. unfold wf. destruct (alloc_ptr_ a); lia. Qed.

Lemma capacity_app (l : list Z) (sz : Z) :
  fold_right Z.add 0 (l ++ [sz]) = fold_right Z.add 0 l + sz.
Proof. induction l as [|x l IH]; cbn [app fold_right]; lia. Qed.

Lemma to_size_t_add_l x y : to_size_t (to_size_t x + y) = to_size_t (x + y).
Proof. unfold to_size_t, to_uint64. apply Z.add_mod_idemp_l. lia. Qed.

Lemma AllocateFallback_accounted a n asked :
  wf a -> 0 < n -> accounted a asked ->
  accounted (snd (AllocateFallback a n)) (asked + n) /\
  (length (blocks_ (snd (AllocateFallback a n))) <= S (length (blocks_ a)))%nat.
Proof.
  intros Hwf Hn [Hu Hc]. pose proof (wf_remaining a Hwf) as Hr.
  unfold AllocateFallback. change (kBlockSize / 4) with 1024.
  destruct (Z.ltb_spec 1024 n); rewrite AllocateNewBlock_spec;
    unfold accounted, capacity in *;
    cbn [snd blocks_ memory_usage_ alloc_bytes_remaining_];
    rewrite capacity_app, length_app, Hu, to_size_t_add_l; cbn [length];
    (split; [split; [f_equal; unfold sizeof_pointer; lia|unfold kBlockSize; lia]|lia]).
Qed.

Lemma serve_accounted a r asked :
  wf a -> sensible r -> accounted a asked ->
  accounted (snd (serve a r)) (asked + bytes_of r) /\
  (length (blocks_ (snd (serve a r))) <= S (length (blocks_ a)))%nat.
Proof.
  intros Hwf Hr Hacc. pose proof (wf_remaining a Hwf) as Hrem.
  destruct r as [n|n]; unfold sensible in Hr; cbn [serve bytes_of] in *.
  - unfold Allocate. destruct (Z.leb_spec n (alloc_bytes_remaining_ a)).
    + destruct Hacc as [Hu Hc]. unfold accounted, capacity in *.
      cbn [snd blocks_ memory_usage_ alloc_bytes_remaining_].
      split; [split; [assumption|lia]|lia].
    + apply AllocateFallback_accounted; [assumption|lia|assumption].
  - unfold AllocateAligned.
    set (current_mod := address_bits (alloc_ptr_ a) (align - 1)).
    set (slop := if current_mod =? 0 then 0 else align - current_mod).
    assert (Hslop : 0 <= slop < 8).
    { subst slop current_mod. destruct (alloc_ptr_ a) as [|block offset]; cbn [address_bits].
      - cbn. lia.
      - apply slop_range. }
    assert (Hneeded : to_size_t (n + slop) = n + slop).
    { apply to_size_t_small. change (2 ^ 63) with 9223372036854775808 in Hr.
      change (2 ^ 64) with 18446744073709551616. lia. }
    rewrite Hneeded.
    destruct (Z.leb_spec (n + slop) (alloc_bytes_remaining_ a)).
    + destruct Hacc as [Hu Hc]. unfold accounted, capacity in *.
      cbn [snd blocks_ memory_usage_ alloc_bytes_remaining_].
      split; [split; [assumption|lia]|lia].
    + apply AllocateFallback_accounted; [assumption|lia|assumption].
Qed.

Lemma serve_all_accounted : forall rs a asked,
  wf a -> Forall sensible rs -> accounted a asked ->
  accounted (snd (serve_all a rs)) (asked + total rs) /\
  (length (blocks_ (snd (serve_all a rs))) <= length (blocks_ a) + length rs)%nat.
Proof.
  induction rs as [|r rs IH]; intros a asked Hwf Hrs Hacc; cbn [serve_all].
  - cbn [snd total map fold_right length]. rewrite Z.add_0_r. split; [assumption|lia].
  - inversion Hrs as [|? ? Hr Hrs']; subst.
    destruct (serve_hands_out a r Hwf Hr) as [Hwf1 _].
    destruct (serve_accounted a r asked Hwf Hr Hacc) as [Hacc1 Hlen1].
    destruct (serve a r) as [p a1]. cbn [fst snd] in *.
    specialize (IH a1 (asked + bytes_of r) Hwf1 Hrs' Hacc1).
    destruct (serve_all a1 rs) as [ps a']. cbn [fst snd length] in *.
    destruct IH as [Hacc' Hlen']. split; [|lia].
    unfold total in *. cbn [map fold_right].
    replace (asked + (bytes_of r + fold_right Z.add 0 (map bytes_of rs)))
      with (asked + bytes_of r + fold_right Z.add 0 (map bytes_of rs)) by lia.
    assumption.
Qed.

(** What [MemoryUsage] reports.  After any run of calls on a new arena it
    is the sum, as a [size_t], of the sizes of the blocks and of one
    pointer for each block; the blocks hold at least the bytes asked for;
    and no call allocates more than one block. *)
Theorem MemoryUsage_accounts (rs : list Request) :
  Forall sensible rs ->
  let a := snd (serve_all new rs) in
  MemoryUsage a =
    to_size_t (capacity a + sizeof_pointer * Z.of_nat (length (blocks_ a))) /\
  total rs <= capacity a /\
  (length (blocks_ a) <= length rs)%nat.
Proof.
  intros Hrs a.
  destruct (serve_all_accounted rs new 0 wf_new Hrs) as [[Hu Hc] Hlen].
  { split; [reflexivity|cbn; lia]. }
  destruct (serve_all_apart rs new wf_new Hrs) as (Hwf & _).
  pose proof (wf_remaining _ Hwf). fold a in Hu, Hc, Hlen, H.
  cbn [length new blocks_] in Hlen.
  split; [exact Hu|]. split; lia.
Qed.

Lemma MemoryUsage_accounts_witness :
  MemoryUsage (snd (serve_all new [Plain 100; Aligned 8; Plain 4000])) = 4096 + 8 + 4000 + 8.
Proof.
  destruct (MemoryUsage_accounts [Plain 100; Aligned 8; Plain 4000]) as (Hu & _).
  - repeat constructor.
  - rewrite Hu. vm_compute. reflexivity.
Defined.

End ArenaInvariants.

(** * More on db/write_batch: the header, [Append], sizes, and [Iterate] on
      damaged batches *)
Module BatchFacts.
Import Coding DBFormat WriteBatch CodingFacts WriteBatchFacts.

(** ** Buffers with a header *)

Lemma build_batch ops :
  build ops =
  batch (repeat Byte.x00 8) (Z.of_nat (length ops)) (concat (map record ops)).
Proof.
  unfold build. rewrite Clear_batch, fold_apply_batch by reflexivity. reflexivity.
Qed.

Lemma EncodeFixed32_DecodeFixed32 (p : list byte) :
  (4 <= length p)%nat -> EncodeFixed32 (DecodeFixed32 p) = firstn 4 p.
Proof.
  intros Hp. unfold EncodeFixed32, DecodeFixed32.
  assert (Hl : length (firstn 4 p) = 4%nat) by (rewrite length_firstn; lia).
  pose proof (le_combine_bound (firstn 4 p)) as Hb. rewrite Hl in Hb.
  unfold to_uint32. rewrite Z.mod_small by exact Hb.
  apply split_le_combine'. exact Hl.
Qed.

(** Every buffer that holds a header is its sequence bytes, its count and
    its records. *)
Lemma batch_decompose (b : t) :
  kHeader <= size b ->
  b = batch (firstn 8 b) (DecodeFixed32 (skipn 8 b)) (skipn 12 b) /\
  length (firstn 8 b) = 8%nat.
Proof.
  unfold kHeader, size. intros Hb. split; [|rewrite length_firstn; lia].
  unfold batch. rewrite EncodeFixed32_DecodeFixed32 by (rewrite length_skipn; lia).
  rewrite <- (firstn_skipn 8 b) at 1. f_equal.
  rewrite <- (firstn_skipn 4 (skipn 8 b)) at 1. f_equal.
  rewrite skipn_skipn. reflexivity.
Qed.

Lemma SetSequence_batch seq c body s :
  length seq = 8%nat ->
  SetSequence (batch seq c body) s = batch (EncodeFixed64 s) c body.
Proof.
  intros Hseq. unfold SetSequence. rewrite skipn_8_batch by assumption. reflexivity.
Qed.

Lemma length_sequence_bytes n : length (EncodeFixed64 n) = 8%nat.
Proof. apply length_le_split. Qed.

Lemma Sequence_batch seq c body :
  length seq = 8%nat -> Sequence (batch seq c body) = le_combine seq.
Proof.
  intros Hseq. unfold Sequence, DecodeFixed64.
  rewrite firstn_8_batch by assumption. reflexivity.
Qed.

Lemma Sequence_EncodeFixed64 s c body :
  Sequence (batch (EncodeFixed64 s) c body) = to_uint64 s.
Proof.
  rewrite Sequence_batch by apply length_sequence_bytes.
  unfold EncodeFixed64. rewrite le_combine_split.
  change (Z.of_nat 8 * 8) with 64. unfold to_uint64. apply Z.mod_mod. lia.
Qed.

Lemma to_int32_to_uint32 a : to_int32 (to_uint32 a) = to_int32 a.
Proof.
  unfold to_uint32, to_int32.
  change (2 ^ 31) with 2147483648. change (2 ^ 32) with 4294967296.
  Z.div_mod_to_equations. lia.
Qed.

Lemma to_uint32_to_int32 a : to_uint32 (to_int32 a) = to_uint32 a.
Proof.
  unfold to_uint32, to_int32.
  change (2 ^ 31) with 2147483648. change (2 ^ 32) with 4294967296.
  Z.div_mod_to_equations. lia.
Qed.

(** The header fields and the records do not disturb one another.  On a
    buffer that holds a header: [SetSequence] stores the sequence number,
    read back by [Sequence] as a 64-bit number, and leaves the count and
    the records as they are; [SetCount] stores the count, read back by
    [Count] as an [int], and leaves the sequence number and the records as
    they are; [Put] and [Delete] leave the sequence number as it is. *)
Theorem header_independent (b : t) (s n : Z) (op : Op) :
  kHeader <= size b ->
  (Sequence (SetSequence b s) = to_uint64 s /\
   Count (SetSequence b s) = Count b /\
   skipn 12 (SetSequence b s) = skipn 12 b) /\
  (Count (SetCount b n) = to_int32 n /\
   Sequence (SetCount b n) = Sequence b /\
   skipn 12 (SetCount b n) = skipn 12 b) /\
  Sequence (apply b op) = Sequence b.
Proof.
  intros Hb. destruct (batch_decompose b Hb) as [E Hseq].
  set (seq := firstn 8 b) in *. set (c := DecodeFixed32 (skipn 8 b)) in *.
  set (body := skipn 12 b) in *. clearbody seq c body. clear Hb. subst b.
  split; [|split].
  - rewrite SetSequence_batch by assumption.
    rewrite Sequence_EncodeFixed64, !Count_batch, !skipn_12_batch
      by (assumption || apply length_sequence_bytes).
    auto.
  - rewrite SetCount_batch by assumption.
    rewrite Count_batch, !Sequence_batch, !skipn_12_batch by assumption.
    rewrite to_int32_to_uint32. auto.
  - rewrite apply_batch, !Sequence_batch by assumption. reflexivity.
Qed.

Lemma header_independent_witness :
  Sequence (SetSequence (build [OpDelete key_k2]) 7) = 7 /\
  Count (SetSequence (build [OpDelete key_k2]) 7) = 1.
Proof.
  destruct (header_independent (build [OpDelete key_k2]) 7 0 (OpDelete [])) as ((Hs & Hc & _) & _).
  - vm_compute. discriminate.
  - split; [exact Hs|rewrite Hc; reflexivity].
Defined.

(** ** [Append] *)

(** [Append] composes batches: appending the batch built from [ys] to the
    batch built from [xs] gives the batch built from [xs] followed by [ys],
    with the sequence number of the destination, whatever that of the
    source, and its count is the number of operations of both.  The
    counts are added as [int]s, so together the batches hold fewer than
    2^31 operations. *)
Theorem Append_build (xs ys : list Op) (s1 s2 : Z) :
  Z.of_nat (length xs) + Z.of_nat (length ys) < 2 ^ 31 ->
  Append (SetSequence (build xs) s1) (SetSequence (build ys) s2) =
    SetSequence (build (xs ++ ys)) s1 /\
  Count (Append (SetSequence (build xs) s1) (SetSequence (build ys) s2)) =
    Z.of_nat (length xs) + Z.of_nat (length ys).
Proof.
  intros Hn.
  assert (E : Append (SetSequence (build xs) s1) (SetSequence (build ys) s2) =
              SetSequence (build (xs ++ ys)) s1).
  { rewrite !build_batch, !SetSequence_batch by reflexivity.
    unfold Append. change (Z.to_nat kHeader) with 12%nat.
    rewrite !Count_batch, SetCount_batch, skipn_12_batch by apply length_sequence_bytes.
    unfold batch. rewrite <- !app_assoc. f_equal. f_equal.
    - unfold EncodeFixed32. f_equal.
      rewrite <- to_uint32_to_int32, length_app, Nat2Z.inj_add.
      unfold to_uint32, to_int32.
      change (2 ^ 31) with 2147483648. change (2 ^ 32) with 4294967296.
      Z.div_mod_to_equations. lia.
    - rewrite map_app, concat_app. reflexivity. }
  split; [exact E|].
  rewrite E, build_batch, SetSequence_batch by reflexivity.
  rewrite Count_batch by apply length_sequence_bytes.
  rewrite to_int32_to_uint32, length_app, Nat2Z.inj_add.
  unfold to_int32. change (2 ^ 31) with 2147483648 in *.
  change (2 ^ 32) with 4294967296.
  Z.div_mod_to_equations. lia.
Qed.

Lemma Append_build_witness :
  Append (SetSequence (build [OpPut key_k1 value_v1]) 5)
         (SetSequence (build [OpDelete key_k2]) 9) =
  SetSequence (build [OpPut key_k1 value_v1; OpDelete key_k2]) 5.
Proof.
  apply (Append_build [OpPut key_k1 value_v1] [OpDelete key_k2] 5 9). reflexivity.
Defined.

(** ** Sizes *)

(** The bytes one operation takes in the batch. *)
Definition op_size (op : Op) : Z :=
  match op with
  | OpPut key value =>
      1 + VarintLength (size key) + size key + VarintLength (size value) + size value
  | OpDelete key => 1 + VarintLength (size key) + size key
  end.

Lemma size_record op : fits op -> size (record op) = op_size op.
Proof.
  assert (Hs : forall data : list byte,
             size data < 2 ^ 32 ->
             size (EncodeVarint32 (size data)) = VarintLength (size data)).
  { intros data Hd. apply VarintLength_EncodeVarint32. unfold size in *. lia. }
  destruct op as [key value|key]; cbn [fits record op_size].
  - intros [Hk Hv].
    change (Byte.x01 :: ?l) with ([Byte.x01] ++ l).
    rewrite !size_app, !Hs by assumption. change (size [Byte.x01]) with 1. lia.
  - intros Hk.
    change (Byte.x00 :: ?l) with ([Byte.x00] ++ l).
    rewrite !size_app, !Hs by assumption. change (size [Byte.x00]) with 1. lia.
Qed.

Lemma size_concat_records ops :
  Forall fits ops ->
  size (concat (map record ops)) = fold_right Z.add 0 (map op_size ops).
Proof.
  induction 1 as [|op ops Hop _ IH]; cbn [map concat fold_right]; [reflexivity|].
  rewrite size_app, size_record, IH by assumption. reflexivity.
Qed.

(** [ApproximateSize] is exact: a cleared batch has the 12 bytes of the
    header, and every [Put] and [Delete] adds the tag byte and, for the key
    and for the value of a [Put], the bytes of the length as a varint32 and
    the bytes themselves. *)
Theorem ApproximateSize_build (ops : list Op) :
  Forall fits ops ->
  ApproximateSize (build ops) = 12 + fold_right Z.add 0 (map op_size ops).
Proof.
  intros Hops. unfold ApproximateSize.
  rewrite build_batch, size_batch by reflexivity.
  rewrite size_concat_records by assumption. reflexivity.
Qed.

Lemma ApproximateSize_build_witness :
  ApproximateSize (build [OpPut key_k1 value_v1; OpDelete key_k2]) = 12 + (7 + (4 + 0)).
Proof.
  apply (ApproximateSize_build [OpPut key_k1 value_v1; OpDelete key_k2]).
  repeat constructor.
Defined.

(** ** [Iterate] on damaged batches *)

Lemma length_EncodeVarint32_pos v : (1 <= length (EncodeVarint32 v))%nat.
Proof.
  unfold EncodeVarint32. cbv zeta.
  repeat match goal with |- context [?a <? ?b] => destruct (a <? b) end;
    cbn [length]; lia.
Qed.

Lemma Forall_cut {A : Type} (P : A -> Prop) (l : list A) : forall n : nat,
  Forall P l -> Forall P (firstn n l).
Proof.
  induction l as [|x l IH]; intros [|n] Hl; cbn [firstn]; try constructor.
  - inversion Hl; assumption.
  - apply IH. inversion Hl; assumption.
Qed.

Lemma GetLengthPrefixedSlice_record data rest :
  size data < 2 ^ 32 ->
  GetLengthPrefixedSlice (EncodeVarint32 (size data) ++ data ++ rest) = (Some data, rest).
Proof.
  intros Hd. apply GetLengthPrefixedSlice_varstring, varstring_EncodeVarint32. assumption.
Qed.

Section WithHandler.
Context {H : Type} {handler : Handler H}.

(** The loop of [Iterate] over the records of [ops]: it hands them to
    the handler and goes on with what follows them. *)
Lemma Iterate_loop_records tail : forall ops (fuel : nat) found (h : H),
  Forall fits ops ->
  to_int32 found = found ->
  (length (concat (map record ops) ++ tail) <= fuel)%nat ->
  exists fuel',
    (length tail <= fuel')%nat /\
    Iterate_loop fuel (concat (map record ops) ++ tail) found h =
    Iterate_loop fuel' tail (to_int32 (found + Z.of_nat (length ops)))
      (fold_left dispatch ops h).
Proof.
  induction ops as [|op ops IH]; intros fuel found h Hops Hfound Hfuel.
  - cbn [map concat app length fold_left Z.of_nat] in *.
    exists fuel. split; [assumption|]. rewrite Z.add_0_r, Hfound. reflexivity.
  - inversion Hops as [|? ? Hop Hops']; subst.
    cbn [map concat fold_left] in *. rewrite <- app_assoc in *.
    destruct op as [key value|key]; cbn [record fits dispatch] in *.
    + destruct Hop as [Hk Hv].
      destruct fuel as [|fuel]; [cbn in Hfuel; lia|].
      cbn [app Iterate_loop]. change (byte.unsigned Byte.x01) with 1.
      cbn [ValueType_value Z.eqb Pos.eqb].
      rewrite <- !app_assoc.
      rewrite GetLengthPrefixedSlice_record by assumption.
      rewrite GetLengthPrefixedSlice_record by assumption.
      destruct (IH fuel (to_int32 (found + 1)) (handler_Put h key value) Hops'
                  (to_int32_idem _))
        as (fuel' & Hf' & E).
      { cbn [app length] in Hfuel. rewrite <- !app_assoc in Hfuel.
        rewrite !length_app in Hfuel. rewrite !length_app. lia. }
      exists fuel'. split; [assumption|]. rewrite E, to_int32_add_l.
      cbn [length]. do 2 f_equal. lia.
    + destruct fuel as [|fuel]; [cbn in Hfuel; lia|].
      cbn [app Iterate_loop]. change (byte.unsigned Byte.x00) with 0.
      cbn [ValueType_value Z.eqb Pos.eqb].
      rewrite <- !app_assoc.
      rewrite GetLengthPrefixedSlice_record by assumption.
      destruct (IH fuel (to_int32 (found + 1)) (handler_Delete h key) Hops'
                  (to_int32_idem _))
        as (fuel' & Hf' & E).
      { cbn [app length] in Hfuel. rewrite <- !app_assoc in Hfuel.
        rewrite !length_app in Hfuel. rewrite !length_app. lia. }
      exists fuel'. split; [assumption|]. rewrite E, to_int32_add_l.
      cbn [length]. do 2 f_equal. lia.
Qed.

(** [Iterate] on the records of [ops] followed by [tail], under any
    count [c]. *)
Lemma Iterate_records seq c ops tail (h : H) :
  length seq = 8%nat -> Forall fits ops ->
  exists fuel',
    (length tail <= fuel')%nat /\
    Iterate (batch seq c (concat (map record ops)) ++ tail) h =
    match Iterate_loop fuel' tail (to_int32 (Z.of_nat (length ops)))
            (fold_left dispatch ops h) with
    | None => None
    | Some (Return s, handler) => Some (s, handler)
    | Some (Done found, handler) =>
        if negb (found =? to_int32 (to_uint32 c))
        then Some (Corruption "WriteBatch has wrong count", handler)
        else Some (OK, handler)
    end.
Proof.
  intros Hseq Hops.
  assert (E : batch seq c (concat (map record ops)) ++ tail =
              batch seq c (concat (map record ops) ++ tail)).
  { unfold batch. rewrite <- !app_assoc. reflexivity. }
  rewrite E. unfold Iterate.
  rewrite size_batch by assumption.
  destruct (Z.ltb_spec (12 + size (concat (map record ops) ++ tail)) kHeader) as [Hlt|_].
  { unfold kHeader, size in Hlt. lia. }
  change (Z.to_nat kHeader) with 12%nat.
  rewrite skipn_12_batch, Count_batch by assumption.
  destruct (Iterate_loop_records tail ops _ 0 h Hops eq_refl (Nat.le_refl _))
    as (fuel' & Hf' & E').
  exists fuel'. split; [assumption|]. rewrite E'. reflexivity.
Qed.

(** A proper beginning of the bytes of a length-prefixed slice holds no
    slice. *)
Lemma GetLengthPrefixedSlice_cut data (k : nat) :
  size data < 2 ^ 32 ->
  (k < length (EncodeVarint32 (size data) ++ data))%nat ->
  fst (GetLengthPrefixedSlice (firstn k (EncodeVarint32 (size data) ++ data))) = None.
Proof.
  intros Hd Hk.
  destruct (varstring_EncodeVarint32 data [] Hd) as (enc & Hf & Hv & Henc).
  rewrite app_nil_r in Henc. rewrite Henc in *.
  apply GetLengthPrefixedSlice_truncated.
  destruct (Nat.lt_ge_cases k (length enc)) as [Hin|Hout].
  - (* inside the length *)
    left. destruct Hf as (cs & t & -> & Hcs & Ht & Hl).
    rewrite length_app in Hin. cbn [length] in Hin.
    rewrite <- app_assoc, firstn_app.
    replace (k - length cs)%nat with 0%nat by lia.
    rewrite firstn_O, app_nil_r. split.
    + rewrite length_firstn. lia.
    + apply Forall_cut. assumption.
  - (* inside the bytes *)
    right. exists enc, (firstn (k - length enc) data).
    split; [assumption|]. split.
    + rewrite firstn_app, firstn_all2 by lia. reflexivity.
    + rewrite Hv. unfold size. rewrite length_firstn.
      rewrite length_app in Hk. lia.
Qed.

(** [Iterate] stops at the first damaged record, after it has handed the
    handler every record before it.  For operations [ops] with keys and
    values shorter than 2^32 bytes: when their records are followed by a
    tag that is neither VALUE nor DELETION, [Iterate] returns Corruption
    "unknown WriteBatch tag"; when they are followed by a proper beginning
    of the record of one more operation, it returns Corruption "bad
    WriteBatch Put" or "bad WriteBatch Delete"; in both cases the handler
    has received exactly [ops], whatever the count of the header. *)
Theorem Iterate_stops_at_damage (ops : list Op) (h : H) :
  Forall fits ops ->
  (forall tag junk,
     byte.unsigned tag <> 1 -> byte.unsigned tag <> 0 ->
     Iterate (build ops ++ tag :: junk) h =
     Some (Corruption "unknown WriteBatch tag", fold_left dispatch ops h)) /\
  (forall op (k : nat),
     fits op -> (0 < k < length (record op))%nat ->
     Iterate (build ops ++ firstn k (record op)) h =
     Some (Corruption match op with
                      | OpPut _ _ => "bad WriteBatch Put"
                      | OpDelete _ => "bad WriteBatch Delete"
                      end,
           fold_left dispatch ops h)).
Proof.
  intros Hops. split.
  - intros tag junk H1 H0. rewrite build_batch.
    destruct (Iterate_records (repeat Byte.x00 8) (Z.of_nat (length ops)) ops
                (tag :: junk) h eq_refl Hops) as (fuel' & Hf' & E).
    rewrite E. destruct fuel' as [|fuel']; [cbn in Hf'; lia|].
    cbn [Iterate_loop ValueType_value].
    destruct (Z.eqb_spec (byte.unsigned tag) 1); [contradiction|].
    destruct (Z.eqb_spec (byte.unsigned tag) 0); [contradiction|]. reflexivity.
  - intros op k Hop Hk. rewrite build_batch.
    destruct (Iterate_records (repeat Byte.x00 8) (Z.of_nat (length ops)) ops
                (firstn k (record op)) h eq_refl Hops) as (fuel' & Hf' & E).
    rewrite E. clear E.
    destruct k as [|k]; [lia|].
    destruct op as [key value|key]; cbn [record fits firstn length] in *.
    + destruct Hop as [Hkey Hvalue].
      destruct fuel' as [|fuel']; [lia|].
      cbn [Iterate_loop]. change (byte.unsigned Byte.x01) with 1.
      cbn [ValueType_value Z.eqb Pos.eqb].
      destruct (Nat.lt_ge_cases k (length (EncodeVarint32 (size key) ++ key)))
        as [Hin|Hout].
      * (* the key is cut *)
        rewrite app_assoc, firstn_app.
        replace (k - length (EncodeVarint32 (size key) ++ key))%nat with 0%nat by lia.
        rewrite firstn_O, app_nil_r.
        pose proof (GetLengthPrefixedSlice_cut key k Hkey Hin) as Hcut.
        destruct (GetLengthPrefixedSlice _) as [[?|] ?]; [discriminate|reflexivity].
      * (* the value is cut *)
        rewrite app_assoc, firstn_app, firstn_all2 by lia.
        rewrite <- app_assoc.
        rewrite GetLengthPrefixedSlice_record by assumption.
        pose proof (GetLengthPrefixedSlice_cut value
                      (k - length (EncodeVarint32 (size key) ++ key)) Hvalue) as Hcut.
        rewrite !length_app in *.
        specialize (Hcut ltac:(lia)).
        destruct (GetLengthPrefixedSlice _) as [[?|] ?]; [discriminate|reflexivity].
    + destruct fuel' as [|fuel']; [lia|].
      cbn [Iterate_loop]. change (byte.unsigned Byte.x00) with 0.
      cbn [ValueType_value Z.eqb Pos.eqb].
      pose proof (GetLengthPrefixedSlice_cut key k Hop ltac:(lia)) as Hcut.
      destruct (GetLengthPrefixedSlice _) as [[?|] ?]; [discriminate|reflexivity].
Qed.

(** The count of the header is checked last.  With any count [n] stored
    in the header of the batch built from [ops], [Iterate] hands the
    handler all of [ops]; then it returns OK when [n] is their number and
    Corruption "WriteBatch has wrong count" when it is not. *)
Theorem Iterate_checks_count_last (ops : list Op) (n : Z) (h : H) :
  Forall fits ops ->
  Z.of_nat (length ops) < 2 ^ 31 ->
  - 2 ^ 31 <= n < 2 ^ 31 ->
  Iterate (SetCount (build ops) n) h =
  Some (if n =? Z.of_nat (length ops) then OK
        else Corruption "WriteBatch has wrong count",
        fold_left dispatch ops h).
Proof.
  intros Hops Hlen Hn. rewrite build_batch, SetCount_batch by reflexivity.
  destruct (Iterate_records (repeat Byte.x00 8) n ops [] h eq_refl Hops)
    as (fuel' & _ & E).
  rewrite app_nil_r in E. rewrite E.
  assert (Hloop : Iterate_loop fuel' [] (to_int32 (Z.of_nat (length ops)))
                    (fold_left dispatch ops h) =
                  Some (Done (to_int32 (Z.of_nat (length ops))),
                        fold_left dispatch ops h))
    by (destruct fuel'; reflexivity).
  rewrite Hloop, to_int32_to_uint32, !to_int32_small by lia.
  rewrite Z.eqb_sym. destruct (n =? Z.of_nat (length ops)); reflexivity.
Qed.

End WithHandler.

Lemma Iterate_stops_at_damage_witness :
  Iterate (build [OpPut key_k1 value_v1] ++ [Byte.x02; Byte.x00]) ([] : list Op) =
    Some (Corruption "unknown WriteBatch tag", [OpPut key_k1 value_v1]) /\
  Iterate (build [OpPut key_k1 value_v1] ++ firstn 3 (record (OpDelete key_k2)))
    ([] : list Op) =
    Some (Corruption "bad WriteBatch Delete", [OpPut key_k1 value_v1]).
Proof.
  destruct (Iterate_stops_at_damage [OpPut key_k1 value_v1] ([] : list Op))
    as [Htag Hcut].
  - repeat constructor.
  - split.
    + apply (Htag Byte.x02 [Byte.x00]); discriminate.
    + apply (Hcut (OpDelete key_k2) 3%nat); [reflexivity|cbn; lia].
Defined.

Lemma Iterate_checks_count_last_witness :
  Iterate (SetCount (build [OpPut key_k1 value_v1; OpDelete key_k2]) 3) ([] : list Op) =
  Some (Corruption "WriteBatch has wrong count", [OpPut key_k1 value_v1; OpDelete key_k2]).
Proof.
  pose proof (Iterate_checks_count_last (handler := Recorder)
                [OpPut key_k1 value_v1; OpDelete key_k2] 3 []) as E.
  apply E.
  - repeat constructor.
  - reflexivity.
  - lia.
Defined.

End BatchFacts.

(** * More on db/log_writer: whole records *)
Module LogRecords.
Import Coding log CodingFacts LogFacts.

(** ** On every file *)

Section AnyFile.
Context {crc : Crc32c} {F : Type} {file : WritableFile F}.

(** [AddRecord] returns, whatever the file answers.  The loop makes a
    turn without writing a payload byte when the block has room for a
    header only, and still comes to an end: for every record and every
    sink, failing or not, [AddRecord] returns a status, and it leaves
    [block_offset_] inside the block. *)
Theorem AddRecord_returns (w : Writer F) (slice : Slice) :
  0 <= block_offset_ w <= kBlockSize ->
  exists w' status,
    AddRecord w slice = Some (w', status) /\
    0 <= block_offset_ w' <= kBlockSize.
Proof. apply AddRecord_total. Qed.

End AnyFile.

(** A sink that is out of order: every call fails. *)
#[export] Instance BrokenFile : WritableFile unit := {
  file_Append f _ := (f, IOError "broken");
  file_Flush f := (f, IOError "broken")
}.

Lemma AddRecord_returns_witness :
  exists w' status,
    AddRecord (crc := SumCrc) (file := BrokenFile) (Writer_new tt) [Byte.x61] =
      Some (w', status) /\
    0 <= block_offset_ w' <= kBlockSize.
Proof.
  apply (AddRecord_returns (crc := SumCrc) (file := BrokenFile) (Writer_new tt) [Byte.x61]).
  cbn. unfold kBlockSize. lia.
Defined.

(** ** On a file that keeps what it receives *)

Section OnMemFile.
Context {crc : Crc32c}.

(** How a record is cut.  On a writer inside its block, [AddRecord]
    returns OK after it has written, behind the zero bytes that end a
    block too short for a header, the fragments of the record and
    nothing else: their payloads, put end to end, are the record; the
    record goes out as one FULL fragment when it fits the room of the
    block, and otherwise as a FIRST fragment that takes the room of the
    block (none at all, if so), MIDDLE fragments that fill a block each,
    and a LAST fragment that is not empty. *)
Theorem AddRecord_fragments (w : Writer MemFile) (slice : Slice) :
  0 <= block_offset_ w <= kBlockSize ->
  exists frs w',
    AddRecord w slice = Some (w', OK) /\
    dest_ w' = dest_ w ++ trailer (block_offset_ w) ++ emit frs /\
    record_fragments (room w) slice frs.
Proof.
  intros Hw. destruct (AddRecord_MemFile w slice Hw) as (frs & w' & E & Hd & Hf & _).
  exists frs, w'. auto.
Qed.

Lemma AddRecord_single (w : Writer MemFile) (slice : Slice) :
  0 <= block_offset_ w <= kBlockSize ->
  size slice <= room w ->
  AddRecord w slice =
  Some ({| dest_ := dest_ w ++ trailer (block_offset_ w) ++ fragment kFullType slice;
           block_offset_ :=
             switched_offset (block_offset_ w) + kHeaderSize + size slice |}, OK).
Proof.
  intros Hw Hfit.
  destruct (AddRecord_MemFile w slice Hw) as (frs & w' & E & Hd & [_ Hf] & _ & Ho).
  rewrite E. f_equal. f_equal. destruct w' as [d o]. cbn [dest_ block_offset_] in *.
  rewrite (Ho Hfit). f_equal. rewrite Hd.
  destruct Hf as [[_ ->]|[Hno _]]; [|lia].
  cbn [emit flat_map fst snd]. rewrite app_nil_r. reflexivity.
Qed.

(** A record that fits the block, and the empty record among them, goes
    out as a single FULL fragment: [AddRecord] appends the header with
    the length of the record, the record, and flushes; [block_offset_]
    advances by the header and the record. *)
Theorem AddRecord_fits (w : Writer MemFile) (slice : Slice) :
  0 <= block_offset_ w <= kBlockSize ->
  size slice <= room w ->
  AddRecord w slice =
  Some ({| dest_ := dest_ w ++ trailer (block_offset_ w) ++ fragment kFullType slice;
           block_offset_ :=
             switched_offset (block_offset_ w) + kHeaderSize + size slice |}, OK) /\
  header_length (fragment_header kFullType slice) = size slice /\
  header_type (fragment_header kFullType slice) = RecordType_value kFullType.
Proof.
  intros Hw Hfit. split.
  - apply AddRecord_single; assumption.
  - apply header_fields.
    pose proof (room_nonneg w Hw). unfold room, offset_ok in *.
    unfold switched_offset, kBlockSize, kHeaderSize in *.
    destruct (Z.ltb_spec (32768 - block_offset_ w) 7); lia.
Qed.

(** ** File positions *)

(** No fragment straddles a block boundary.  At every turn of
    [AddRecord] on a writer a program can hold, the header of the
    fragment is written at a file position from which the header and the
    payload end inside the same block of 32,768 bytes; the payload has at
    most 65,535 bytes, the two length bytes of the header hold their
    number and the type byte holds the type: the assertions of
    [EmitPhysicalRecord] hold. *)
Theorem fragment_in_block (st : LoopState MemFile) :
  turn st ->
  exists t payload,
    dest_ (writer (AddRecord_body st)) =
      dest_ (writer st) ++ trailer (block_offset_ (writer st)) ++ fragment t payload /\
    size (contents (dest_ (writer st) ++ trailer (block_offset_ (writer st))))
      mod kBlockSize + kHeaderSize + size payload <= kBlockSize /\
    size payload <= 0xffff /\
    header_length (fragment_header t payload) = size payload /\
    header_type (fragment_header t payload) = RecordType_value t.
Proof.
  intros Hturn. destruct (turn_turn_inv st Hturn) as [[Hw Ha] Hleft].
  assert (Hleft0 : 0 <= left st) by (rewrite Hleft; unfold size; lia).
  destruct (fragment_fits_block st Hw Hleft0) as [Hlen Hfit].
  cbv zeta in Hlen, Hfit.
  set (offset := block_offset_ (writer st)) in *.
  set (len := fragment_length offset (left st)) in *.
  assert (Hlen' : 0 <= len <= size (ptr st)).
  { subst len. unfold fragment_length. rewrite <- Hleft.
    unfold switched_offset, offset_ok, kBlockSize, kHeaderSize in *.
    fold offset in Hw.
    destruct (Z.ltb_spec (32768 - offset) 7); lia. }
  rewrite (body_MemFile st Hw Hleft). cbn [writer dest_]. fold offset. fold len.
  eexists _, (firstn (Z.to_nat len) (ptr st)). split; [reflexivity|].
  pose proof (size_firstn len (ptr st) Hlen') as Hsz.
  split; [|split; [lia|apply header_fields; lia]].
  rewrite Hsz.
  assert (Hpos : size (contents (dest_ (writer st) ++ trailer offset)) mod kBlockSize =
                 switched_offset offset).
  { rewrite contents_app, size_app. unfold aligned in Ha. fold offset in Ha.
    unfold switched_offset, offset_ok in *. fold offset in Hw.
    destruct (Z.ltb_spec (kBlockSize - offset) kHeaderSize) as [Hlt|Hge].
    - destruct (size_contents_trailer offset) as [Ht _]; [lia|]. rewrite Ht.
      unfold kBlockSize, kHeaderSize in *. Z.div_mod_to_equations. lia.
    - unfold trailer. destruct (Z.ltb_spec (kBlockSize - offset) kHeaderSize); [lia|].
      cbn [andb contents]. change (size []) with 0.
      unfold kBlockSize, kHeaderSize in *. Z.div_mod_to_equations. lia. }
  rewrite Hpos. exact Hfit.
Qed.

(** Taking a log up again.  A writer made on the file of a writer a
    program holds, with the length of that file, writes every record as
    that writer would. *)
Theorem resume_transparent (w : Writer MemFile) (slice : Slice) :
  reachable w ->
  AddRecord (Writer_resume (dest_ w) (size (contents (dest_ w)))) slice =
  AddRecord w slice.
Proof.
  intros Hr. destruct (reachable_inv w Hr) as [Hw Ha].
  unfold aligned, offset_ok in *.
  assert (Hmod : 0 <= size (contents (dest_ w)) mod kBlockSize < kBlockSize)
    by (apply Z.mod_pos_bound; reflexivity).
  unfold Writer_resume.
  rewrite to_int32_small by (unfold kBlockSize in *; lia).
  destruct (Z.eq_dec (block_offset_ w) kBlockSize) as [Hend|Hin].
  - (* the writer stands at the end of a block *)
    assert (E : size (contents (dest_ w)) mod kBlockSize = 0).
    { rewrite Ha, Hend. reflexivity. }
    rewrite E. unfold AddRecord. cbn [AddRecord_loop].
    assert (Hbody : forall st st' : LoopState MemFile,
               SwitchBlock (writer st) = SwitchBlock (writer st') ->
               ptr st = ptr st' -> left st = left st' -> begin st = begin st' ->
               AddRecord_body st = AddRecord_body st').
    { intros st st' E1 E2 E3 E4. unfold AddRecord_body. rewrite E1, E2, E3, E4.
      reflexivity. }
    rewrite (Hbody _ {| writer := w; ptr := slice; left := size slice;
                        begin := true; s := OK |}); try reflexivity.
    cbn [writer]. rewrite !SwitchBlock_MemFile
      by (unfold offset_ok; cbn [block_offset_]; unfold kBlockSize in *; lia).
    cbn [dest_ block_offset_]. rewrite Hend. reflexivity.
  - (* inside a block *)
    rewrite Ha, Z.mod_small by lia. destruct w. reflexivity.
Qed.

End OnMemFile.

Lemma AddRecord_fragments_witness :
  exists frs w',
    AddRecord (crc := SumCrc) (Writer_new ([] : MemFile)) payload_40000 = Some (w', OK) /\
    dest_ w' = [] ++ trailer 0 ++ emit (crc := SumCrc) frs /\
    record_fragments 32761 payload_40000 frs.
Proof.
  apply (AddRecord_fragments (crc := SumCrc) (Writer_new []) payload_40000).
  cbn. unfold kBlockSize. lia.
Defined.

Lemma AddRecord_fits_witness :
  AddRecord (crc := SumCrc) (Writer_new ([] : MemFile)) [] =
  Some ({| dest_ := fragment (crc := SumCrc) kFullType []; block_offset_ := 7 |}, OK).
Proof.
  destruct (AddRecord_fits (crc := SumCrc) (Writer_new []) []) as [E _].
  - cbn. unfold kBlockSize. lia.
  - vm_compute. discriminate.
  - exact E.
Defined.

(** ** A write of the trailer that fails *)

(** A sink whose next [Append] fails and leaves the file as it is, after
    which it is in order again: the flag tells whether the failure is still
    to come. *)
Definition FailOnce : Type := bool * MemFile.

#[export] Instance FailOnce_WritableFile : WritableFile FailOnce := {
  file_Append f data :=
    if fst f then ((false, snd f), IOError "append failed")
    else ((false, snd f ++ [EvAppend data]), OK);
  file_Flush f := ((fst f, snd f ++ [EvFlush]), OK)
}.

Section OnFailOnce.
Context {crc : Crc32c}.

(** The writer and the loop state on the sink once it is in order. *)
Definition mended (w : Writer MemFile) : Writer FailOnce :=
  {| dest_ := (false, dest_ w); block_offset_ := block_offset_ w |}.

Definition mended_state (st : LoopState MemFile) : LoopState FailOnce :=
  {| writer := mended (writer st); ptr := ptr st; left := left st;
     begin := begin st; s := s st |}.

Lemma SwitchBlock_mended (w : Writer MemFile) :
  SwitchBlock (mended w) = mended (SwitchBlock w).
Proof.
  unfold SwitchBlock, mended. cbn [dest_ block_offset_].
  destruct (_ <? kHeaderSize); [|reflexivity].
  destruct (0 <? _); reflexivity.
Qed.

Lemma Emit_mended (w : Writer MemFile) t p len :
  EmitPhysicalRecord (mended w) t p len =
  (mended (fst (EmitPhysicalRecord w t p len)), snd (EmitPhysicalRecord w t p len)).
Proof. reflexivity. Qed.

Lemma body_mended (st : LoopState MemFile) :
  AddRecord_body (mended_state st) = mended_state (AddRecord_body st).
Proof.
  unfold AddRecord_body, mended_state. cbn [writer ptr left begin s].
  rewrite SwitchBlock_mended, Emit_mended.
  cbn [mended block_offset_].
  destruct (EmitPhysicalRecord (SwitchBlock (writer st)) _ _ _) as [w' s'].
  reflexivity.
Qed.

Lemma loop_mended : forall (fuel : nat) (st : LoopState MemFile),
  AddRecord_loop fuel (mended_state st) =
  option_map (fun r => (mended (fst r), snd r)) (AddRecord_loop fuel st).
Proof.
  induction fuel as [|fuel IH]; intros st; [reflexivity|].
  cbn [AddRecord_loop]. rewrite body_mended.
  cbn [mended_state s left writer].
  destruct (ok (s (AddRecord_body st)) && (0 <? left (AddRecord_body st))).
  - apply IH.
  - reflexivity.
Qed.

(** A failed write of the trailer goes unnoticed.  The writer stands
    where fewer than 7 bytes, and at least one, are left in the block, on
    a sink whose next [Append] fails.  [AddRecord] calls [Append] for the
    zero bytes of the trailer and drops the status it returns: it goes on
    as at the start of a block, writes the fragments of the record, and
    returns OK, though the file holds none of the zero bytes. *)
Theorem trailer_failure_unnoticed (f : MemFile) (offset : Z) (slice : Slice) :
  kBlockSize - kHeaderSize < offset < kBlockSize ->
  exists frs w',
    AddRecord {| dest_ := (true, f) : FailOnce; block_offset_ := offset |} slice =
      Some (w', OK) /\
    dest_ w' = (false, f ++ emit frs) /\
    record_fragments full slice frs.
Proof.
  intros Ho.
  set (w1 := {| dest_ := f; block_offset_ := kBlockSize |} : Writer MemFile).
  assert (E : AddRecord {| dest_ := (true, f) : FailOnce; block_offset_ := offset |} slice =
              AddRecord (mended w1) slice).
  { unfold AddRecord. cbn [AddRecord_loop].
    assert (Hbody : forall st st' : LoopState FailOnce,
               SwitchBlock (writer st) = SwitchBlock (writer st') ->
               ptr st = ptr st' -> left st = left st' -> begin st = begin st' ->
               AddRecord_body st = AddRecord_body st').
    { intros st st' E1 E2 E3 E4. unfold AddRecord_body. rewrite E1, E2, E3, E4.
      reflexivity. }
    rewrite (Hbody _ {| writer := mended w1; ptr := slice; left := size slice;
                        begin := true; s := OK |}); try reflexivity.
    cbn [writer]. unfold SwitchBlock, mended, w1. cbn [dest_ block_offset_].
    rewrite to_int32_small
      by (unfold kBlockSize, kHeaderSize in *; change (2 ^ 31) with 2147483648; lia).
    destruct (Z.ltb_spec (kBlockSize - offset) kHeaderSize) as [_|Hge];
      [|unfold kBlockSize, kHeaderSize in *; lia].
    destruct (Z.ltb_spec 0 (kBlockSize - offset)) as [_|Hle]; [|lia].
    reflexivity. }
  rewrite E.
  change (AddRecord (mended w1) slice)
    with (AddRecord_loop (S (2 * length slice))
            (mended_state {| writer := w1; ptr := slice; left := size slice;
                             begin := true; s := OK |})).
  rewrite loop_mended.
  change (AddRecord_loop (S (2 * length slice))
            {| writer := w1; ptr := slice; left := size slice; begin := true; s := OK |})
    with (AddRecord w1 slice).
  destruct (AddRecord_MemFile w1 slice) as (frs & w' & E' & Hd & Hf & _).
  { unfold offset_ok, w1, kBlockSize. cbn. lia. }
  rewrite E'. cbn [option_map fst snd].
  exists frs, (mended w'). split; [reflexivity|]. split.
  - unfold mended. cbn [dest_]. rewrite Hd. reflexivity.
  - exact Hf.
Qed.

(** A failed write of a header ends the call.  The writer stands where
    a header fits the block, on a sink whose next [Append] fails.
    [AddRecord] calls [Append] for the header of the first fragment and
    returns the status of that call: the payload is not appended, nothing
    is flushed, and no further fragment is tried, however long the
    record.  [block_offset_] has advanced by the header and the payload of
    the fragment all the same, so that it no longer tells the position in
    the file. *)
Theorem header_failure_stops (f : MemFile) (offset : Z) (slice : Slice) :
  0 <= offset <= kBlockSize - kHeaderSize ->
  AddRecord {| dest_ := (true, f) : FailOnce; block_offset_ := offset |} slice =
  Some ({| dest_ := (false, f);
           block_offset_ :=
             offset + kHeaderSize +
             Z.min (size slice) (kBlockSize - offset - kHeaderSize) |},
        IOError "append failed").
Proof.
  intros Ho. unfold AddRecord. cbn [AddRecord_loop].
  unfold AddRecord_body. cbn [writer ptr left begin s].
  assert (Hs : SwitchBlock {| dest_ := (true, f) : FailOnce; block_offset_ := offset |} =
               {| dest_ := (true, f); block_offset_ := offset |}).
  { unfold SwitchBlock. cbn [block_offset_].
    rewrite to_int32_small
      by (unfold kBlockSize, kHeaderSize in *; change (2 ^ 31) with 2147483648; lia).
    destruct (Z.ltb_spec (kBlockSize - offset) kHeaderSize); [lia|reflexivity]. }
  rewrite Hs. cbn [block_offset_].
  rewrite to_int32_small
    by (unfold kBlockSize, kHeaderSize in *; change (2 ^ 31) with 2147483648; lia).
  rewrite to_size_t_small
    by (unfold kBlockSize, kHeaderSize in *; change (2 ^ 64) with 18446744073709551616;
        lia).
  assert (Hsize : 0 <= size slice) by (unfold size; lia).
  set (len := if size slice <? kBlockSize - offset - kHeaderSize
              then size slice else kBlockSize - offset - kHeaderSize).
  assert (Hlen : len = Z.min (size slice) (kBlockSize - offset - kHeaderSize)).
  { subst len. destruct (Z.ltb_spec (size slice) (kBlockSize - offset - kHeaderSize)); lia. }
  unfold EmitPhysicalRecord.
  cbn [dest_ block_offset_ file_Append FailOnce_WritableFile fst snd ok s left writer andb].
  rewrite to_int32_small
    by (unfold kBlockSize, kHeaderSize in *; change (2 ^ 31) with 2147483648; lia).
  rewrite Hlen. do 3 f_equal. lia.
Qed.

End OnFailOnce.

Lemma trailer_failure_unnoticed_witness :
  exists frs w',
    AddRecord (crc := SumCrc)
      {| dest_ := (true, file_32765) : FailOnce; block_offset_ := 32765 |} [Byte.x61] =
      Some (w', OK) /\
    dest_ w' = (false, file_32765 ++ emit (crc := SumCrc) frs) /\
    record_fragments full [Byte.x61] frs.
Proof.
  apply (trailer_failure_unnoticed (crc := SumCrc) file_32765 32765 [Byte.x61]).
  unfold kBlockSize, kHeaderSize. lia.
Defined.

Lemma header_failure_stops_witness :
  AddRecord (crc := SumCrc)
    {| dest_ := (true, []) : FailOnce; block_offset_ := 0 |} payload_40000 =
  Some ({| dest_ := (false, []); block_offset_ := 0 + 7 + 32761 |}, IOError "append failed").
Proof.
  etransitivity.
  - apply (header_failure_stops (crc := SumCrc) [] 0 payload_40000).
    unfold kBlockSize, kHeaderSize. lia.
  - do 3 f_equal.
Defined.

(** The writer at the end of the first block, after a record that fills
    it. *)
Definition writer_full : Writer MemFile :=
  {| dest_ := fragment (crc := SumCrc) kFullType (repeat Byte.x61 (Z.to_nat 32761));
     block_offset_ := 32768 |}.

Lemma reachable_full : reachable (crc := SumCrc) writer_full.
Proof.
  apply (reachable_AddRecord (Writer_new []) (repeat Byte.x61 (Z.to_nat 32761))
           writer_full OK); [apply reachable_new|].
  rewrite (AddRecord_single (crc := SumCrc) (Writer_new [])
             (repeat Byte.x61 (Z.to_nat 32761))).
  - unfold size. rewrite repeat_length. reflexivity.
  - cbn. unfold kBlockSize. lia.
  - unfold size. rewrite repeat_length. vm_compute. discriminate.
Qed.

Lemma fragment_in_block_witness :
  exists t payload,
    dest_ (writer (AddRecord_body (crc := SumCrc)
                     {| writer := writer_32765; ptr := [Byte.x61]; left := 1;
                        begin := true; s := OK |})) =
      dest_ writer_32765 ++ trailer 32765 ++ fragment (crc := SumCrc) t payload /\
    size (contents (dest_ writer_32765 ++ trailer 32765)) mod kBlockSize
      + kHeaderSize + size payload <= kBlockSize.
Proof.
  destruct (fragment_in_block (crc := SumCrc) turn_32765) as (t & payload & Hd & Hfit & _).
  - apply turn_first, reachable_32765.
  - exists t, payload. split; [exact Hd|exact Hfit].
Defined.

Lemma resume_transparent_witness :
  AddRecord (crc := SumCrc)
    (Writer_resume (dest_ writer_full) (size (contents (dest_ writer_full)))) [Byte.x61] =
  AddRecord (crc := SumCrc) writer_full [Byte.x61].
Proof. apply (resume_transparent (crc := SumCrc) writer_full [Byte.x61]), reachable_full. Defined.

End LogRecords.

(** * More on db/memtable: entries, scans, missing keys *)
Module MemTableScan.
Import Coding DBFormat MemTable CodingFacts MemTableFacts.

(** ** Entries *)

Lemma GetVarint32Ptr_limit_entry a :
  valid a ->
  GetVarint32Ptr_limit 5 (entry a) =
  Some (size (ins_key a) + 8,
        ins_key a ++ EncodeFixed64 (tag (ins_seq a) (ins_type a)) ++
        EncodeVarint32 (size (ins_value a)) ++ ins_value a).
Proof.
  intros (_ & Hk & _). unfold entry.
  apply GetVarint32Ptr_limit_EncodeVarint32. unfold size in *. lia.
Qed.

Lemma GetLengthPrefixedSlice_value value :
  size value < 2 ^ 32 ->
  GetLengthPrefixedSlice (EncodeVarint32 (size value) ++ value) = Some value.
Proof.
  intros Hv. unfold GetLengthPrefixedSlice.
  rewrite GetVarint32Ptr_limit_EncodeVarint32 by (unfold size in *; lia).
  rewrite <- (app_nil_r value) at 2. rewrite firstn_size_app. reflexivity.
Qed.

(** What the iterator reads at an entry. *)
Definition read (e : list byte) : option Slice * option Slice :=
  (MemTableIterator_key [e], MemTableIterator_value [e]).

Lemma read_entry a :
  valid a ->
  read (entry a) =
  (Some (internal_key (ins_key a) (tag (ins_seq a) (ins_type a))), Some (ins_value a)).
Proof.
  intros Ha. unfold read. cbn [MemTableIterator_key MemTableIterator_value].
  rewrite GetLengthPrefixedSlice_entry, GetVarint32Ptr_limit_entry by assumption.
  destruct Ha as (_ & Hk & Hv).
  rewrite <- (size_internal_key (ins_key a) (tag (ins_seq a) (ins_type a))).
  rewrite (app_assoc (ins_key a)).
  fold (internal_key (ins_key a) (tag (ins_seq a) (ins_type a))).
  rewrite skipn_size_app, GetLengthPrefixedSlice_value by assumption.
  reflexivity.
Qed.

(** The entries a scan meets: from the position of the iterator, [key()]
    and [value()] at every step of [Next()] while it is [Valid()]. *)
Fixpoint walk (fuel : nat) (it : MemTableIterator)
  : list (option Slice * option Slice) :=
  match fuel with
  | O => []
  | S fuel =>
      if MemTableIterator_Valid it
      then (MemTableIterator_key it, MemTableIterator_value it) ::
           walk fuel (MemTableIterator_Next it)
      else []
  end.

(** A scan from the first entry to the end of the table. *)
Definition scan_table (m : t) : list (option Slice * option Slice) :=
  walk (length (table_ m)) (MemTableIterator_SeekToFirst m).

Lemma walk_map : forall (it : MemTableIterator) (fuel : nat),
  (length it <= fuel)%nat -> walk fuel it = map read it.
Proof.
  induction it as [|e it IH]; intros fuel Hf.
  - destruct fuel; reflexivity.
  - destruct fuel as [|fuel]; [cbn in Hf; lia|].
    cbn [walk MemTableIterator_Valid MemTableIterator_Next tl map].
    rewrite IH by (cbn in Hf; lia). reflexivity.
Qed.

Section WithComparator.
Context {user_comparator : Comparator} {table_memory : OrderedSetMemory}.

(** ** The table after a history of insertions *)

Lemma AddAll_permutation h : forall m h0,
  Forall valid h -> written_by h0 (table_ m) ->
  exists m', AddAll m h = Some m' /\
             Permutation (table_ m') (table_ m ++ map entry h).
Proof.
  induction h as [|[[[s type] key] value] h IH]; intros m h0 Hh Hm.
  - exists m. cbn [map]. rewrite app_nil_r. auto.
  - inversion Hh as [|? ? Ha Hh']; subst. cbn [AddAll].
    destruct (Add_entry m s type key value Ha (written_by_comparable _ _ _ Ha Hm))
      as (arena & before & from & E & Ht & _).
    rewrite E.
    destruct (IH {| arena_ := arena;
                    table_ := before ++ entry (s, type, key, value) :: from |}
                 (h0 ++ [(s, type, key, value)]) Hh') as (m' & E' & Hp).
    + cbn [table_]. unfold written_by in *. rewrite Ht in Hm.
      apply Forall_app in Hm. destruct Hm as [Hb Hf].
      apply Forall_app. split; [|constructor].
      * revert Hb. apply Forall_impl. intros e (a & Hin & Hv & ->).
        exists a. rewrite in_app_iff. auto.
      * exists (s, type, key, value). rewrite in_app_iff. cbn. auto.
      * revert Hf. apply Forall_impl. intros e (a & Hin & Hv & ->).
        exists a. rewrite in_app_iff. auto.
    + exists m'. split; [exact E'|].
      cbn [table_ map] in *. rewrite Hp, Ht.
      rewrite <- !app_assoc. apply Permutation_app_head.
      cbn [app]. apply Permutation_middle.
Qed.

(** A scan finds every insertion.  After [Add] has been called for each
    insertion of a history, with sequence numbers of 56 bits and lengths
    that fit their prefix, the scan of the table from [SeekToFirst] by
    [Next] meets, in some order, one entry for each insertion, at which
    [key()] is the user key followed by the eight bytes of the tag and
    [value()] is the value. *)
Theorem scan_finds_insertions (h : list Insertion) :
  Forall valid h ->
  exists m,
    AddAll new h = Some m /\
    Permutation (scan_table m)
      (map (fun a => (Some (internal_key (ins_key a) (tag (ins_seq a) (ins_type a))),
                      Some (ins_value a))) h).
Proof.
  intros Hh.
  destruct (AddAll_permutation h new [] Hh) as (m & E & Hp); [constructor|].
  exists m. split; [exact E|]. cbn [new table_ app] in Hp.
  unfold scan_table, MemTableIterator_SeekToFirst. rewrite walk_map by lia.
  rewrite (Permutation_map read Hp), map_map.
  erewrite map_ext_in; [reflexivity|].
  intros a Hin. apply read_entry. rewrite Forall_forall in Hh. auto.
Qed.

(** ** Keys that were never added *)

(** [Get] never reports a key that was not added: after any history of
    insertions none of which is for a user key the comparator holds
    equal to [k], [Get] for [k] at any snapshot returns false and leaves
    the value and the status of the caller as they are.  Nothing is
    asked of the comparator. *)
Theorem Get_absent (h : list Insertion) (k : Slice) (snapshot : Z)
    (value0 : Slice) (s0 : Status) :
  Forall valid h ->
  size k + 8 < 2 ^ 32 -> 0 <= snapshot < 2 ^ 56 ->
  (forall a, In a h -> Compare (ins_key a) k <> 0) ->
  exists m,
    AddAll new h = Some m /\
    Get m (LookupKey_new k snapshot) value0 s0 = Some (false, value0, s0).
Proof.
  intros Hh Hk Hs Hnone.
  destruct (AddAll_written h new [] Hh) as (m & E & Hw); [constructor|].
  exists m. split; [exact E|]. cbn [app] in Hw.
  apply (Get_missing m h).
  - assumption.
  - exists k, (tag snapshot kValueTypeForSeek). apply keyed_LookupKey; assumption.
  - intros a Hin _ _. cbn [LookupKey_new user_key]. apply Hnone. assumption.
Qed.

(** ** The key of a seek *)

(** The target of a seek round trip: [EncodeKey] writes the length of the
    target as a varint32 and then its bytes, and the file-local
    [GetLengthPrefixedSlice] reads a target shorter than 2^32 bytes back
    from there, so that [KeyComparator] compares two such keys as the
    internal-key comparator compares the targets. *)
Theorem EncodeKey_roundtrip (a b rest : Slice) :
  size a < 2 ^ 32 -> size b < 2 ^ 32 ->
  GetLengthPrefixedSlice (EncodeKey a ++ rest) = Some a /\
  KeyComparator (EncodeKey a) (EncodeKey b) = Some (InternalKeyComparator_Compare a b).
Proof.
  intros Ha Hb.
  assert (Hdec : forall (x r : Slice), size x < 2 ^ 32 ->
                   GetLengthPrefixedSlice (EncodeKey x ++ r) = Some x).
  { intros x r Hx. unfold EncodeKey, PutVarint32, GetLengthPrefixedSlice. cbn [app].
    rewrite <- app_assoc.
    rewrite GetVarint32Ptr_limit_EncodeVarint32 by (unfold size in *; lia).
    rewrite firstn_size_app. reflexivity. }
  split; [apply Hdec; assumption|].
  unfold KeyComparator.
  rewrite <- (app_nil_r (EncodeKey a)), <- (app_nil_r (EncodeKey b)).
  rewrite !Hdec by assumption. reflexivity.
Qed.

(** ** The newest entry of a key *)


End WithComparator.

Lemma scan_finds_insertions_witness :
  exists m,
    AddAll (user_comparator := BytewiseComparator) new
      [(5, kTypeValue, key_a, value_old); (7, kTypeDeletion, key_a, [])] = Some m /\
    Permutation (scan_table m)
      [(Some (internal_key key_a (tag 5 kTypeValue)), Some value_old);
       (Some (internal_key key_a (tag 7 kTypeDeletion)), Some [])].
Proof.
  apply (scan_finds_insertions (user_comparator := BytewiseComparator)
           [(5, kTypeValue, key_a, value_old); (7, kTypeDeletion, key_a, [])]).
  repeat constructor; cbn; lia.
Defined.

Lemma Get_absent_witness :
  exists m,
    AddAll (user_comparator := BytewiseComparator) new
      [(5, kTypeValue, key_a, value_old)] = Some m /\
    Get (user_comparator := BytewiseComparator) m (LookupKey_new [Byte.x62] 9) [] OK =
      Some (false, [], OK).
Proof.
  apply (Get_absent (user_comparator := BytewiseComparator)
           [(5, kTypeValue, key_a, value_old)] [Byte.x62] 9 [] OK).
  - repeat constructor; cbn; lia.
  - cbn. lia.
  - lia.
  - intros a [<-|[]]. cbn. discriminate.
Defined.

Lemma EncodeKey_roundtrip_witness :
  GetLengthPrefixedSlice (EncodeKey key_a ++ [Byte.x07]) = Some key_a.
Proof.
  apply (EncodeKey_roundtrip (user_comparator := BytewiseComparator) key_a key_a [Byte.x07]);
    cbn; lia.
Defined.

End MemTableScan.

(** * From a write batch to the memtable *)
Module InsertIntoFacts.
Import Coding DBFormat WriteBatch MemTable WriteBatchInternal.
Import CodingFacts WriteBatchFacts MemTableFacts BatchFacts MemTableScan.

(** The insertions [InsertInto] makes for the operations of a batch whose
    sequence number is [s]: one for each, numbered from [s] on; a
    deletion carries an empty value. *)
Fixpoint numbered (s : Z) (ops : list Op) : list Insertion :=
  match ops with
  | [] => []
  | OpPut key value :: ops =>
      (s, kTypeValue, key, value) :: numbered (to_uint64 (s + 1)) ops
  | OpDelete key :: ops =>
      (s, kTypeDeletion, key, []) :: numbered (to_uint64 (s + 1)) ops
  end.

Section WithComparator.
Context {user_comparator : Comparator} {table_memory : OrderedSetMemory}.

Lemma fold_dispatch_stuck ops :
  fold_left dispatch ops (None : option MemTableInserter) = None.
Proof. induction ops as [|[key value|key] ops IH]; cbn; auto. Qed.

Lemma fold_dispatch_inserter ops : forall s m,
  option_map mem_ (fold_left dispatch ops (Some {| sequence_ := s; mem_ := m |})) =
  AddAll m (numbered s ops).
Proof.
  induction ops as [|[key value|key] ops IH]; intros s m.
  - reflexivity.
  - cbn [fold_left dispatch handler_Put MemTableInserter_Handler MemTableInserter_Put
         numbered AddAll sequence_ mem_].
    destruct (Add m s kTypeValue key value) as [m1|].
    + apply IH.
    + rewrite fold_dispatch_stuck. reflexivity.
  - cbn [fold_left dispatch handler_Delete MemTableInserter_Handler
         MemTableInserter_Delete numbered AddAll sequence_ mem_].
    destruct (Add m s kTypeDeletion key []) as [m1|].
    + apply IH.
    + rewrite fold_dispatch_stuck. reflexivity.
Qed.

Lemma InsertInto_batch ops s m :
  Forall fits ops -> Z.of_nat (length ops) < 2 ^ 31 -> 0 <= s < 2 ^ 64 ->
  InsertInto (SetSequence (build ops) s) m = Some (OK, AddAll m (numbered s ops)).
Proof.
  intros Hops Hlen Hs.
  rewrite build_batch, SetSequence_batch by reflexivity.
  unfold InsertInto. rewrite Sequence_EncodeFixed64.
  assert (Hu : to_uint64 s = s) by (apply Z.mod_small; assumption).
  rewrite Hu.
  set (b := batch (EncodeFixed64 s) (Z.of_nat (length ops)) (concat (map record ops))).
  destruct (Iterate_scan b ops None (Some {| sequence_ := s; mem_ := m |}))
    as (st & E & Hst).
  - subst b. rewrite size_batch by apply length_EncodeFixed64.
    unfold kHeader, size. lia.
  - subst b. rewrite skipn_12_batch by apply length_EncodeFixed64.
    apply scan_records. assumption.
  - rewrite E, fold_dispatch_inserter.
    destruct Hst as [[_ ->]|[Hne _]]; [reflexivity|].
    exfalso. apply Hne. subst b.
    rewrite Count_batch by apply length_EncodeFixed64.
    rewrite to_int32_to_uint32. reflexivity.
Qed.

(** [InsertInto] applies a batch in order.  For a batch of fewer than
    2^31 operations with keys and values shorter than 2^32 bytes and the
    sequence number [s], [InsertInto] returns OK after it has called
    [MemTable::Add] once for each operation, in the order of the batch,
    with the sequence numbers [s], [s + 1], ..., a put as a VALUE and a
    delete as a DELETION with an empty value. *)
Theorem InsertInto_adds (ops : list Op) (s : Z) (m : MemTable.t) :
  Forall fits ops ->
  Z.of_nat (length ops) < 2 ^ 31 ->
  0 <= s < 2 ^ 64 ->
  InsertInto (SetSequence (build ops) s) m = Some (OK, AddAll m (numbered s ops)).
Proof. apply InsertInto_batch. Qed.

(** ** Reading back what a batch wrote *)








End WithComparator.

Lemma InsertInto_adds_witness :
  InsertInto (user_comparator := BytewiseComparator)
    (SetSequence (build [OpPut key_k1 value_v1; OpDelete key_k2]) 100) new =
  Some (OK, AddAll (user_comparator := BytewiseComparator) new
              [(100, kTypeValue, key_k1, value_v1); (101, kTypeDeletion, key_k2, [])]).
Proof.
  apply (InsertInto_adds (user_comparator := BytewiseComparator)
           [OpPut key_k1 value_v1; OpDelete key_k2] 100 new).
  - repeat constructor.
  - reflexivity.
  - lia.
Defined.


End InsertIntoFacts.
